(** * Order-statistics AVL tree (avl.py) and linear-probing table (hash_table.py)

    A shallow embedding of the two containers of the trading game, and the
    properties their specification states about them.

    Python objects are mutated in place.  The tree is a hierarchy of
    exclusively owned nodes, so a method that mutates the nodes below
    [current] is modelled as a function from the subtree it receives to the
    subtree it leaves behind.  When a method raises, the assignment that was
    waiting for its result does not happen, but the mutations already done
    stay: the model therefore returns, next to the exception, the state in
    which the subtree was left. *)

From stdpp Require Import base list sorting strings.
From Stdlib Require Import ZArith Lia Zdivisibility Floats.SpecFloat.

Local Open Scope Z_scope.

(** The exceptions the two modules raise, explicitly or by a failing
    attribute access or division. *)
Inductive exn : Type :=
  | KeyError
  | ValueError
  | AttributeError
  | ZeroDivisionError
  | TypeError
  | IndexError
  | RecursionError.

(** How a call that works on a subtree ends. *)
Inductive completion : Type :=
  | Returned
  | Raised (e : exn).

(** How a call that computes a value ends. *)
Inductive result (A : Type) : Type :=
  | Return (a : A)
  | Raise (e : exn).

Arguments Return {A} a.
Arguments Raise {A} e.

Module avl.

(** [Nil] is Python's [None]; a node carries, as in node.py, its key, its
    item, its two children and the two cached integers. *)
Inductive tree (K I : Type) : Type :=
  | Nil
  | AVLTreeNode (key : K) (item : I) (left right : tree K I)
                (height tree_size : Z).

Arguments Nil {K I}.
Arguments AVLTreeNode {K I} key item left right height tree_size.

(** The tree object: [self.root] and [self.length]. *)
Record AVLTree (K I : Type) : Type := mkAVLTree {
  root : tree K I;
  length : Z
}.

Arguments mkAVLTree {K I} root length.
Arguments root {K I} _.
Arguments length {K I} _.

Section code.

Context {K I : Type}.

(** Python's [<] on keys; [a > b] is read as [b < a]. *)
Variable ltb : K → K → bool.

Definition get_tree_size (current : tree K I) : Z :=
  match current with
  | Nil => 0
  | AVLTreeNode _ _ _ _ _ s => s
  end.

Definition get_height (current : tree K I) : Z :=
  match current with
  | Nil => 0
  | AVLTreeNode _ _ _ _ h _ => h
  end.

Definition get_balance (current : tree K I) : Z :=
  match current with
  | Nil => 0
  | AVLTreeNode _ _ l r _ _ => get_height r - get_height l
  end.

(** The two assignments that follow every structural change:
    [current.height = 1 + max(...)] and [current.tree_size = 1 + ... + ...]. *)
Definition update (current : tree K I) : tree K I :=
  match current with
  | Nil => Nil
  | AVLTreeNode k v l r _ _ =>
      AVLTreeNode k v l r
        (1 + Z.max (get_height l) (get_height r))
        (1 + get_tree_size l + get_tree_size r)
  end.

(** [child = current.right; center = child.left] fail on [None] before
    anything is assigned. *)
Definition left_rotate (current : tree K I) : completion * tree K I :=
  match current with
  | Nil => (Raised AttributeError, Nil)
  | AVLTreeNode k v l child h s =>
      match child with
      | Nil => (Raised AttributeError, current)
      | AVLTreeNode ck cv center cr ch cs =>
          let current' := update (AVLTreeNode k v l center h s) in
          (Returned, update (AVLTreeNode ck cv current' cr ch cs))
      end
  end.

Definition right_rotate (current : tree K I) : completion * tree K I :=
  match current with
  | Nil => (Raised AttributeError, Nil)
  | AVLTreeNode k v child r h s =>
      match child with
      | Nil => (Raised AttributeError, current)
      | AVLTreeNode ck cv cl center ch cs =>
          let current' := update (AVLTreeNode k v center r h s) in
          (Returned, update (AVLTreeNode ck cv cl current' ch cs))
      end
  end.

(** [get_balance(current) >= 2] is written [2 <=? get_balance current], and
    [get_height(child.left) > get_height(child.right)] as
    [get_height cr <? get_height cl]; the second test is reached only when
    the first one failed, since its branch returns. *)
Definition rebalance (current : tree K I) : completion * tree K I :=
  if 2 <=? get_balance current then
    match current with
    | Nil => (Raised AttributeError, Nil)
    | AVLTreeNode k v l child h s =>
        match child with
        | Nil => (Raised AttributeError, current)
        | AVLTreeNode _ _ cl cr _ _ =>
            if get_height cr <? get_height cl then
              match right_rotate child with
              | (Returned, child') => left_rotate (AVLTreeNode k v l child' h s)
              | (Raised e, child') => (Raised e, AVLTreeNode k v l child' h s)
              end
            else left_rotate current
        end
    end
  else if get_balance current <=? -2 then
    match current with
    | Nil => (Raised AttributeError, Nil)
    | AVLTreeNode k v child r h s =>
        match child with
        | Nil => (Raised AttributeError, current)
        | AVLTreeNode _ _ cl cr _ _ =>
            if get_height cl <? get_height cr then
              match left_rotate child with
              | (Returned, child') => right_rotate (AVLTreeNode k v child' r h s)
              | (Raised e, child') => (Raised e, AVLTreeNode k v child' r h s)
              end
            else right_rotate current
        end
    end
  else (Returned, current).

(** The tail shared by [insert_aux] and [delete_aux]: recompute the two
    cached fields of [current], rebalance, return.  [n] is [self.length]. *)
Definition finish (current : tree K I) (n : Z) : completion * tree K I * Z :=
  let (c, t) := rebalance (update current) in (c, t, n).

(** [insert_aux current key item], with [self.length] threaded through.
    The node built at a leaf has its cached fields assigned right after by
    the common tail, whatever the constructor put there. *)
Fixpoint insert_aux (current : tree K I) (key : K) (item : I) (n : Z)
  : completion * tree K I * Z :=
  match current with
  | Nil => finish (AVLTreeNode key item Nil Nil 1 1) (n + 1)
  | AVLTreeNode k v l r h s =>
      if ltb key k then
        match insert_aux l key item n with
        | (Returned, l', n') => finish (AVLTreeNode k v l' r h s) n'
        | (Raised e, l', n') => (Raised e, AVLTreeNode k v l' r h s, n')
        end
      else if ltb k key then
        match insert_aux r key item n with
        | (Returned, r', n') => finish (AVLTreeNode k v l r' h s) n'
        | (Raised e, r', n') => (Raised e, AVLTreeNode k v l r' h s, n')
        end
      else (Raised KeyError, current, n)
  end.

(** Modelled from the spec: bst.py is not among the sources.  [is_leaf] is
    the no-children test of the delete cases. *)
Definition is_leaf (current : tree K I) : bool :=
  match current with
  | AVLTreeNode _ _ Nil Nil _ _ => true
  | _ => false
  end.

(** Modelled from the spec: bst.py is not among the sources.  The leftmost
    node of a subtree. *)
Fixpoint get_minimal (current : tree K I) : tree K I :=
  match current with
  | Nil => Nil
  | AVLTreeNode _ _ l _ _ _ =>
      match l with
      | Nil => current
      | AVLTreeNode _ _ _ _ _ _ => get_minimal l
      end
  end.

(** Modelled from the spec: bst.py is not among the sources.  The in-order
    successor used by delete is the leftmost node of the right subtree. *)
Definition get_successor (current : tree K I) : tree K I :=
  match current with
  | Nil => Nil
  | AVLTreeNode _ _ _ r _ _ => get_minimal r
  end.

Definition is_None (current : tree K I) : bool :=
  match current with
  | Nil => true
  | AVLTreeNode _ _ _ _ _ _ => false
  end.

Fixpoint delete_aux (current : tree K I) (key : K) (n : Z)
  : completion * tree K I * Z :=
  match current with
  | Nil => (Raised ValueError, Nil, n)
  | AVLTreeNode k v l r h s =>
      if ltb key k then
        match delete_aux l key n with
        | (Returned, l', n') => finish (AVLTreeNode k v l' r h s) n'
        | (Raised e, l', n') => (Raised e, AVLTreeNode k v l' r h s, n')
        end
      else if ltb k key then
        match delete_aux r key n with
        | (Returned, r', n') => finish (AVLTreeNode k v l r' h s) n'
        | (Raised e, r', n') => (Raised e, AVLTreeNode k v l r' h s, n')
        end
      else if is_leaf current then (Returned, Nil, n - 1)
      else if is_None l then (Returned, r, n - 1)
      else if is_None r then (Returned, l, n - 1)
      else
        match get_successor current with
        | Nil => (Raised AttributeError, current, n)
        | AVLTreeNode sk sv _ _ _ _ =>
            match delete_aux r sk n with
            | (Returned, r', n') => finish (AVLTreeNode sk sv l r' h s) n'
            | (Raised e, r', n') => (Raised e, AVLTreeNode sk sv l r' h s, n')
            end
        end
  end.

(** [l] is the list the recursion appends to. *)
Fixpoint range_between_aux (current : tree K I) (i j max_index : Z)
    (l : list I) : list I :=
  match current with
  | Nil => l
  | AVLTreeNode _ v lt rt _ _ =>
      let current_index :=
        match rt with
        | Nil => max_index
        | AVLTreeNode _ _ _ _ _ rs => max_index - rs
        end in
      let l1 :=
        if i <? current_index
        then range_between_aux lt i j (current_index - 1) l else l in
      let l2 :=
        if (i <=? current_index) && (current_index <=? j)
        then l1 ++ [v] else l1 in
      if current_index <? j
      then range_between_aux rt i j max_index l2 else l2
  end.

(** The loop of [get_max]: [current.right] is read on every test. *)
Fixpoint get_max_loop (current : tree K I) : result (K * I) :=
  match current with
  | Nil => Raise AttributeError
  | AVLTreeNode k v _ r _ _ =>
      match r with
      | Nil => Return (k, v)
      | AVLTreeNode _ _ _ _ _ _ => get_max_loop r
      end
  end.

(** ** The methods of the tree object *)

(** Modelled from the spec: bst.py is not among the sources.  A new tree has
    no root and count 0. *)
Definition empty : AVLTree K I := mkAVLTree Nil 0.

(** Modelled from the spec: bst.py is not among the sources.  [tree[key] =
    item] runs [insert_aux] from the root and stores the node it returns. *)
Definition setitem (self : AVLTree K I) (key : K) (item : I)
  : completion * AVLTree K I :=
  match insert_aux (root self) key item (length self) with
  | (c, t, n) => (c, mkAVLTree t n)
  end.

(** Modelled from the spec: bst.py is not among the sources.  [del
    tree[key]] runs [delete_aux] from the root and stores the node it
    returns. *)
Definition delitem (self : AVLTree K I) (key : K)
  : completion * AVLTree K I :=
  match delete_aux (root self) key (length self) with
  | (c, t, n) => (c, mkAVLTree t n)
  end.

(** Modelled from the spec: bst.py is not among the sources.  Lookup descends
    by key comparison and fails on an absent key. *)
Fixpoint getitem_aux (current : tree K I) (key : K) : result I :=
  match current with
  | Nil => Raise KeyError
  | AVLTreeNode k v l r _ _ =>
      if ltb key k then getitem_aux l key
      else if ltb k key then getitem_aux r key
      else Return v
  end.

Definition getitem (self : AVLTree K I) (key : K) : result I :=
  getitem_aux (root self) key.

Definition range_between (self : AVLTree K I) (i j : Z)
  : result (list I) * AVLTree K I :=
  (Return (range_between_aux (root self) i j (length self - 1) []), self).

Definition get_max (self : AVLTree K I) : result (K * I) * AVLTree K I :=
  (get_max_loop (root self), self).

(** ** Sequences of operations *)

Inductive op : Type :=
  | Insert (key : K) (item : I)
  | Delete (key : K).

Definition apply_op (self : AVLTree K I) (o : op)
  : completion * AVLTree K I :=
  match o with
  | Insert key item => setitem self key item
  | Delete key => delitem self key
  end.

(** Runs the operations in order; [Some] when every one of them returned. *)
Fixpoint run (self : AVLTree K I) (ops : list op) : option (AVLTree K I) :=
  match ops with
  | [] => Some self
  | o :: ops' =>
      match apply_op self o with
      | (Returned, self') => run self' ops'
      | (Raised _, _) => None
      end
  end.

(** How many operations of a sequence are insertions, and how many are
    deletions. *)
Fixpoint insertions (ops : list op) : Z :=
  match ops with
  | [] => 0
  | Insert _ _ :: ops' => 1 + insertions ops'
  | Delete _ :: ops' => insertions ops'
  end.

Fixpoint deletions (ops : list op) : Z :=
  match ops with
  | [] => 0
  | Insert _ _ :: ops' => deletions ops'
  | Delete _ :: ops' => 1 + deletions ops'
  end.

(** ** What the specification talks about *)

(** In-order traversal. *)
Fixpoint elements (t : tree K I) : list (K * I) :=
  match t with
  | Nil => []
  | AVLTreeNode k v l r _ _ => elements l ++ (k, v) :: elements r
  end.

Definition keys (t : tree K I) : list K := (elements t).*1.

Definition values (t : tree K I) : list I := (elements t).*2.

Fixpoint cardinal (t : tree K I) : Z :=
  match t with
  | Nil => 0
  | AVLTreeNode _ _ l r _ _ => 1 + cardinal l + cardinal r
  end.

(** The height by its recursive definition, whatever the cached fields say. *)
Fixpoint depth (t : tree K I) : Z :=
  match t with
  | Nil => 0
  | AVLTreeNode _ _ l r _ _ => 1 + Z.max (depth l) (depth r)
  end.

(** Invariant 2: the balance of every node is within one. *)
Fixpoint balanced (t : tree K I) : Prop :=
  match t with
  | Nil => True
  | AVLTreeNode _ _ l r _ _ =>
      -1 <= get_height l - get_height r <= 1 ∧ balanced l ∧ balanced r
  end.

(** Invariant 3: both cached fields of every node match their formulas. *)
Fixpoint cached (t : tree K I) : Prop :=
  match t with
  | Nil => True
  | AVLTreeNode _ _ l r h s =>
      h = 1 + Z.max (get_height l) (get_height r) ∧
      s = 1 + get_tree_size l + get_tree_size r ∧
      cached l ∧ cached r
  end.

Definition lt (a b : K) : Prop := ltb a b = true.

(** Invariant 1: the in-order keys are strictly ascending. *)
Definition ordered (t : tree K I) : Prop := StronglySorted lt (keys t).

(** Invariant 4. *)
Definition counted (self : AVLTree K I) : Prop :=
  length self = cardinal (root self) ∧
  (root self ≠ Nil → length self = get_tree_size (root self)).

Definition invariant (self : AVLTree K I) : Prop :=
  balanced (root self) ∧ cached (root self) ∧ ordered (root self) ∧
  counted self.

(** The same tree with the cached fields forgotten: keys, items and the
    parent-child structure. *)
Fixpoint structure (t : tree K I) : tree K I :=
  match t with
  | Nil => Nil
  | AVLTreeNode k v l r _ _ => AVLTreeNode k v (structure l) (structure r) 0 0
  end.

(** [current.left] and [current.right], where there is a node. *)
Definition left_child (t : tree K I) : tree K I :=
  match t with
  | Nil => Nil
  | AVLTreeNode _ _ l _ _ _ => l
  end.

Definition right_child (t : tree K I) : tree K I :=
  match t with
  | Nil => Nil
  | AVLTreeNode _ _ _ r _ _ => r
  end.

(** The cached fields of this one node match their formulas. *)
Definition recomputed (t : tree K I) : Prop :=
  match t with
  | Nil => True
  | AVLTreeNode _ _ l r h s =>
      h = 1 + Z.max (get_height l) (get_height r) ∧
      s = 1 + get_tree_size l + get_tree_size r
  end.

(** The entries of [xs] at positions [lo..hi], both included. *)
Fixpoint window {A : Type} (lo hi : Z) (xs : list A) : list A :=
  match xs with
  | [] => []
  | x :: xs' =>
      (if (lo <=? 0) && (0 <=? hi) then [x] else [])
        ++ window (lo - 1) (hi - 1) xs'
  end.

End code.

End avl.

Module primes.

(** [while d % 2 == 0: d //= 2; s += 1] on a positive [d]: the odd part of
    [d] and the number of halvings. *)
Fixpoint split_twos (d : positive) (s : Z) : positive * Z :=
  match d with
  | xO d' => split_twos d' (s + 1)
  | _ => (d, s)
  end.

(** [for r in range(1, s)]: squares [x] until it meets [n - 1]; [fuel]
    counts the iterations left. *)
Fixpoint squarings (fuel : nat) (x n : Z) : bool :=
  match fuel with
  | O => false
  | S fuel' =>
      let x' := (x * x) mod n in
      if x' =? n - 1 then true else squarings fuel' x' n
  end.

(** [for v in vals]. *)
Fixpoint witnesses (vals : list Z) (d s n : Z) : bool :=
  match vals with
  | [] => true
  | v :: vals' =>
      if n <=? v then true
      else
        let x := (v ^ d) mod n in
        if (x =? 1) || (x =? n - 1) then witnesses vals' d s n
        else if squarings (Z.to_nat (s - 1)) x n then witnesses vals' d s n
        else false
  end.

Definition is_prime (n : Z) : bool :=
  if n <? 2 then false
  else
    match n - 1 with
    | Z.pos p =>
        let (d, s) := split_twos p 0 in witnesses [2; 7; 61] (Z.pos d) s n
    | _ => false
    end.

(** [LargestPrimeIterator.__next__]: [for num in range(upper_bound - 1, 0,
    -1)], written as a descent over the number of candidates left.  The
    method falls off its end, returning [None], when no candidate is
    prime. *)
Fixpoint next_from (candidates : nat) : option Z :=
  match candidates with
  | O => None
  | S below =>
      if is_prime (Z.of_nat candidates) then Some (Z.of_nat candidates)
      else next_from below
  end.

Definition next_prime (upper_bound : Z) : option Z :=
  next_from (Z.to_nat (upper_bound - 1)).

End primes.

(** * Reference functions for primality

    Not from the sources: a modular power by squaring, to evaluate
    [is_prime], and trial division, to compare it with. *)

Module primality.

Fixpoint powmod (v : Z) (d : positive) (n : Z) : Z :=
  match d with
  | xH => v mod n
  | xO d' => let r := powmod v d' n in (r * r) mod n
  | xI d' => let r := powmod v d' n in ((r * r) mod n * v) mod n
  end.

Fixpoint witnesses_fast (vals : list Z) (d : positive) (s n : Z) : bool :=
  match vals with
  | [] => true
  | v :: vals' =>
      if n <=? v then true
      else
        let x := powmod v d n in
        if (x =? 1) || (x =? n - 1) then witnesses_fast vals' d s n
        else if primes.squarings (Z.to_nat (s - 1)) x n
             then witnesses_fast vals' d s n
        else false
  end.

Definition is_prime_fast (n : Z) : bool :=
  if n <? 2 then false
  else
    match n - 1 with
    | Z.pos p =>
        let (d, s) := primes.split_twos p 0 in witnesses_fast [2; 7; 61] d s n
    | _ => false
    end.

(** No number from 2 to the integer square root divides [n]. *)
Definition trial (n : Z) : bool :=
  (2 <=? n) && forallb (λ k, negb (n mod k =? 0)) (seqZ 2 (Z.sqrt n - 1)).

Definition agree_below (bound : Z) : bool :=
  forallb (λ i, Bool.eqb (is_prime_fast (Z.of_nat i)) (trial (Z.of_nat i)))
          (seq 0 (Z.to_nat bound)).

End primality.

Module hash_table.

(** ** [int(n * 2.2)] in binary64 arithmetic *)

Definition prec : Z := 53.
Definition emax : Z := 1024.

(** Conversion of an integer to a double, rounding to nearest. *)
Definition float_of_int (n : Z) : spec_float :=
  binary_normalize prec emax n 0 false.

(** The double nearest to 2.2. *)
Definition two_point_two : spec_float :=
  S754_finite false 4953959590107546 (-51).

(** [int(x)]: truncation toward zero; infinities and NaN have no integer. *)
Definition int_of_float (x : spec_float) : option Z :=
  match x with
  | S754_zero _ => Some 0
  | S754_finite sign m e =>
      let a := if 0 <=? e then Z.pos m * 2 ^ e else Z.pos m / 2 ^ (- e) in
      Some (if sign then - a else a)
  | _ => None
  end.

Definition scaled (n : Z) : option Z :=
  int_of_float (SFmul prec emax (float_of_int n) two_point_two).

(** The test that [int(n * 2.2)] is at least 4 for every [n] from 2 up to
    [bound], to be evaluated. *)
Definition scaled_above_3 (bound : Z) : bool :=
  forallb (λ i, match scaled (Z.of_nat i) with
                | Some upper_bound => 4 <=? upper_bound
                | None => false
                end)
          (seq 2 (Z.to_nat bound - 2)).

(** ** The table object *)

Record LinearProbeTable (T : Type) : Type := mkTable {
  expected_size : Z;
  tablesize : Z;
  table : list (option (string * T));
  count : Z;
  conflict_count : Z;
  probe_total : Z;
  probe_max : Z;
  rehash_count : Z
}.

Arguments mkTable {T}.
Arguments expected_size {T} _.
Arguments tablesize {T} _.
Arguments table {T} _.
Arguments count {T} _.
Arguments conflict_count {T} _.
Arguments probe_total {T} _.
Arguments probe_max {T} _.
Arguments rehash_count {T} _.

Section code.

Context {T : Type}.

Local Abbreviation state := (LinearProbeTable T).

(** [len(self.table)]. *)
Definition len (self : state) : Z := Z.of_nat (List.length (table self)).

Definition set_table (self : state) (t : list (option (string * T))) : state :=
  mkTable (expected_size self) (tablesize self) t (count self)
          (conflict_count self) (probe_total self) (probe_max self)
          (rehash_count self).

Definition set_count (self : state) (c : Z) : state :=
  mkTable (expected_size self) (tablesize self) (table self) c
          (conflict_count self) (probe_total self) (probe_max self)
          (rehash_count self).

Definition set_probe_total (self : state) (p : Z) : state :=
  mkTable (expected_size self) (tablesize self) (table self) (count self)
          (conflict_count self) p (probe_max self) (rehash_count self).

Definition set_probe_max (self : state) (p : Z) : state :=
  mkTable (expected_size self) (tablesize self) (table self) (count self)
          (conflict_count self) (probe_total self) p (rehash_count self).

Definition set_rehash_count (self : state) (r : Z) : state :=
  mkTable (expected_size self) (tablesize self) (table self) (count self)
          (conflict_count self) (probe_total self) (probe_max self) r.

(** Modelled from the spec: referential_array.py is not among the sources.
    [ArrayR(length)] is a fixed-size array of [None]; it refuses a length
    that is not positive. *)
Definition ArrayR (length : Z) : result (list (option (string * T))) :=
  if length <=? 0 then Raise ValueError
  else Return (replicate (Z.to_nat length) None).

Definition ord (c : Ascii.ascii) : Z := Z.of_N (Ascii.N_of_ascii c).

(** The loop of [hash]; [%] by zero raises. *)
Fixpoint hash_loop (key : string) (value a size : Z) : result Z :=
  match key with
  | EmptyString => Return value
  | String char key' =>
      if size =? 0 then Raise ZeroDivisionError
      else if size - 1 =? 0 then Raise ZeroDivisionError
      else hash_loop key' ((ord char + a * value) mod size)
                     ((a * 27183) mod (size - 1)) size
  end.

Definition hash (self : state) (key : string) : result Z :=
  hash_loop key 0 31415 (len self).

Definition is_full (self : state) : bool := count self =? len self.

(** [if cur_probe_chain > self.probe_max: self.probe_max = cur_probe_chain]. *)
Definition note_chain (self : state) (cur_probe_chain : Z) : state :=
  if probe_max self <? cur_probe_chain
  then set_probe_max self cur_probe_chain else self.

(** The [for _ in range(len(self.table))] loop of [_linear_probe]; [fuel]
    counts the iterations left. *)
Fixpoint probe_loop (fuel : nat) (self : state) (key : string)
    (is_insert : bool) (position cur_probe_chain : Z) : result Z * state :=
  match fuel with
  | O => (Raise KeyError, self)
  | S fuel' =>
      match table self !! Z.to_nat position with
      | None => (Raise IndexError, self)
      | Some None =>
          if is_insert
          then (Return position, note_chain self cur_probe_chain)
          else (Raise KeyError, self)
      | Some (Some (k, _)) =>
          if String.eqb k key
          then (Return position, note_chain self cur_probe_chain)
          else probe_loop fuel'
                 (set_probe_total self (probe_total self + 1)) key is_insert
                 ((position + 1) mod len self) (cur_probe_chain + 1)
      end
  end.

Definition linear_probe (self : state) (key : string) (is_insert : bool)
  : result Z * state :=
  match hash self key with
  | Raise e => (Raise e, self)
  | Return position =>
      if is_insert && is_full self then (Raise KeyError, self)
      else probe_loop (List.length (table self)) self key is_insert position 0
  end.

(** [self.table[position]] after a successful probe, and the two
    assignments that end [__setitem__]. *)
Definition store (self : state) (position : Z) (key : string) (data : T)
  : completion * state :=
  match table self !! Z.to_nat position with
  | None => (Raised IndexError, self)
  | Some slot =>
      let self1 :=
        match slot with
        | None => set_count self (count self + 1)
        | Some _ => self
        end in
      (Returned,
       set_table self1 (<[Z.to_nat position := Some (key, data)]> (table self1)))
  end.

(** [next(iter(LargestPrimeIterator(int(self.tablesize * 2.2), 2)))]. *)
Definition next_size (size : Z) : option Z :=
  match scaled size with
  | Some upper_bound => primes.next_prime upper_bound
  | None => None
  end.

(** The loop of [_rehash] over the old table, with the setter it calls on
    [self] for every occupied slot. *)
Fixpoint reinsert (set : state → string → T → completion * state)
    (old_table : list (option (string * T))) (self : state)
  : completion * state :=
  match old_table with
  | [] => (Returned, self)
  | None :: rest => reinsert set rest self
  | Some (key, data) :: rest =>
      match set self key data with
      | (Returned, self') => reinsert set rest self'
      | (Raised e, self') => (Raised e, self')
      end
  end.

(** [_rehash], given the [__setitem__] it calls. *)
Definition rehash_with (set : state → string → T → completion * state)
    (self : state) : completion * state :=
  match next_size (tablesize self) with
  | None => (Raised TypeError, self)
  | Some new_size =>
      match ArrayR new_size with
      | Raise e => (Raised e, self)
      | Return new_table =>
          let fresh :=
            mkTable (expected_size self) new_size new_table 0
                    (conflict_count self) (probe_total self) (probe_max self)
                    (rehash_count self) in
          match reinsert set (table self) fresh with
          | (Returned, self') =>
              (Returned, set_rehash_count self' (rehash_count self' + 1))
          | (Raised e, self') => (Raised e, self')
          end
      end
  end.

(** [__setitem__] and [_rehash] call each other; [depth] bounds the nesting
    of [__setitem__] calls, as the interpreter's recursion limit does.
    [self.count > self.tablesize / 2] is a comparison with an exact half. *)
Fixpoint setitem (depth : nat) (self : state) (key : string) (data : T)
  : completion * state :=
  match depth with
  | O => (Raised RecursionError, self)
  | S depth' =>
      let rehashed :=
        if tablesize self <? 2 * count self
        then rehash_with (setitem depth') self
        else (Returned, self) in
      match rehashed with
      | (Raised e, self1) => (Raised e, self1)
      | (Returned, self1) =>
          match linear_probe self1 key true with
          | (Raise e, self2) => (Raised e, self2)
          | (Return position, self2) => store self2 position key data
          end
      end
  end.

Definition rehash (depth : nat) (self : state) : completion * state :=
  rehash_with (setitem depth) self.

Definition getitem (self : state) (key : string) : result T * state :=
  match linear_probe self key false with
  | (Raise e, self') => (Raise e, self')
  | (Return position, self') =>
      match table self' !! Z.to_nat position with
      | Some (Some (_, data)) => (Return data, self')
      | Some None => (Raise TypeError, self')
      | None => (Raise IndexError, self')
      end
  end.

(** [__contains__] turns the [KeyError] of [__getitem__] into [False]. *)
Definition contains (self : state) (key : string) : result bool * state :=
  match getitem self key with
  | (Return _, self') => (Return true, self')
  | (Raise KeyError, self') => (Return false, self')
  | (Raise e, self') => (Raise e, self')
  end.

(** [__init__]. *)
Definition init (expected_size tablesize_override : Z) : result state :=
  let size :=
    if -1 <? tablesize_override then Some tablesize_override
    else next_size expected_size in
  match size with
  | None => Raise TypeError
  | Some tablesize =>
      match ArrayR tablesize with
      | Raise e => Raise e
      | Return t => Return (mkTable expected_size tablesize t 0 0 0 0 0)
      end
  end.

(** The loops of [keys()] and [values()] over the slots. *)
Fixpoint keys_of (t : list (option (string * T))) : list string :=
  match t with
  | [] => []
  | None :: t' => keys_of t'
  | Some (k, _) :: t' => k :: keys_of t'
  end.

Fixpoint values_of (t : list (option (string * T))) : list T :=
  match t with
  | [] => []
  | None :: t' => values_of t'
  | Some (_, v) :: t' => v :: values_of t'
  end.

Definition keys (self : state) : list string := keys_of (table self).

Definition values (self : state) : list T := values_of (table self).

(** [__len__] and [is_empty]. *)
Definition len_ (self : state) : Z := count self.

Definition is_empty (self : state) : bool := count self =? 0.

(** [insert(key, data)] is [self[key] = data]. *)
Definition insert (depth : nat) (self : state) (key : string) (data : T)
  : completion * state :=
  setitem depth self key data.

Definition set_conflict_count (self : state) (c : Z) : state :=
  mkTable (expected_size self) (tablesize self) (table self) (count self)
          c (probe_total self) (probe_max self) (rehash_count self).

(** The loop of [statistics()] over the keys, with the list [hashes] of the
    positions met so far. *)
Fixpoint count_conflicts (ks : list string) (self : state) (hashes : list Z)
  : completion * state :=
  match ks with
  | [] => (Returned, self)
  | key :: ks' =>
      match hash self key with
      | Raise e => (Raised e, self)
      | Return cur_hash =>
          if bool_decide (cur_hash ∈ hashes)
          then count_conflicts ks'
                 (set_conflict_count self (conflict_count self + 1)) hashes
          else count_conflicts ks' self (hashes ++ [cur_hash])
      end
  end.

Definition statistics (self : state) : result (Z * Z * Z * Z) * state :=
  match count_conflicts (keys self) self [] with
  | (Raised e, self') => (Raise e, self')
  | (Returned, self') =>
      (Return (conflict_count self', probe_total self', probe_max self',
               rehash_count self'), self')
  end.

(** What the attributes of the class promise: [tablesize] is the length of
    the array and [count] the number of occupied slots. *)
Definition consistent (self : state) : Prop :=
  tablesize self = len self ∧
  count self = Z.of_nat (List.length (keys self)).

(** The key/data pairs of the occupied slots, in slot order. *)
Fixpoint pairs_of (t : list (option (string * T))) : list (string * T) :=
  match t with
  | [] => []
  | None :: t' => pairs_of t'
  | Some kv :: t' => kv :: pairs_of t'
  end.

Definition pairs (self : state) : list (string * T) := pairs_of (table self).

(** [self[key]] returns [data]. *)
Definition finds (self : state) (key : string) (data : T) : Prop :=
  ∃ self', getitem self key = (Return data, self').

(** What [__setitem__] does after the rehash, if any: the probe, then the
    two assignments. *)
Definition probe_and_store (self : state) (key : string) (data : T)
  : completion * state :=
  match linear_probe self key true with
  | (Raise e, self') => (Raised e, self')
  | (Return position, self') => store self' position key data
  end.

(** No key occupies two slots, and lookup finds every stored pair. *)
Definition retrievable (self : state) : Prop :=
  NoDup (keys self) ∧
  ∀ key data, (key, data) ∈ pairs self → finds self key data.

Definition sound (self : state) : Prop := consistent self ∧ retrievable self.

(** The tables the class produces: what [__init__] returns, and what a
    call of [__setitem__] (hence of [insert]), of [__getitem__] (hence of
    [__contains__]) or of [statistics] leaves of such a table, whether the
    call returns or raises. *)
Inductive built : state → Prop :=
  | built_init expected_size tablesize_override self :
      init expected_size tablesize_override = Return self → built self
  | built_setitem depth self key data :
      built self → built (setitem depth self key data).2
  | built_getitem self key :
      built self → built (getitem self key).2
  | built_statistics self :
      built self → built (statistics self).2.

End code.

End hash_table.

(** * Materials and the range trader (material.py, trader.py) *)

Module trader.

(** A material: its name and its mining rate, a number. *)
Record Material (K : Type) : Type := mkMaterial {
  mat_name : string;
  mining_rate : K
}.

Arguments mkMaterial {K} mat_name mining_rate.
Arguments mat_name {K} _.
Arguments mining_rate {K} _.

(** [RangeTrader]: [name], [sell] (the current deal, a material and a price,
    or [None]) and [materials], an AVL tree keyed by mining rate. *)
Record RangeTrader (K P : Type) : Type := mkRangeTrader {
  name : string;
  sell : option (Material K * P);
  materials : avl.AVLTree K (Material K)
}.

Arguments mkRangeTrader {K P} name sell materials.
Arguments name {K P} _.
Arguments sell {K P} _.
Arguments materials {K P} _.

Section code.

Context {K P : Type}.

Variable ltb : K → K → bool.

Definition set_materials (self : RangeTrader K P)
    (t : avl.AVLTree K (Material K)) : RangeTrader K P :=
  mkRangeTrader (name self) (sell self) t.

(** [RangeTrader(name)]. *)
Definition init (name : string) : RangeTrader K P :=
  mkRangeTrader name None avl.empty.

(** [is_currently_selling], [current_deal] and [stop_deal] of [Trader]. *)
Definition is_currently_selling (self : RangeTrader K P) : bool :=
  match sell self with
  | Some _ => true
  | None => false
  end.

Definition current_deal (self : RangeTrader K P) : result (Material K * P) :=
  match sell self with
  | Some deal => Return deal
  | None => Raise ValueError
  end.

Definition stop_deal (self : RangeTrader K P) : RangeTrader K P :=
  mkRangeTrader (name self) None (materials self).

(** The loop [for mat in mats: self.materials[mat.mining_rate] = mat]; an
    insertion that raises ends it, with the tree as it then is. *)
Fixpoint add_all (t : avl.AVLTree K (Material K)) (mats : list (Material K))
  : completion * avl.AVLTree K (Material K) :=
  match mats with
  | [] => (Returned, t)
  | mat :: rest =>
      match avl.setitem ltb t (mining_rate mat) mat with
      | (Returned, t') => add_all t' rest
      | (Raised e, t') => (Raised e, t')
      end
  end.

(** [set_all_materials]: a new tree replaces the old one before the loop. *)
Definition set_all_materials (self : RangeTrader K P)
    (mats : list (Material K)) : completion * RangeTrader K P :=
  match add_all avl.empty mats with
  | (c, t) => (c, set_materials self t)
  end.

Definition add_material (self : RangeTrader K P) (mat : Material K)
  : completion * RangeTrader K P :=
  match avl.setitem ltb (materials self) (mining_rate mat) mat with
  | (c, t) => (c, set_materials self t)
  end.

(** [remove_material] reads [self.material], an attribute that no method
    assigns: the read raises before anything is deleted. *)
Definition remove_material (self : RangeTrader K P) (mat : Material K)
  : completion * RangeTrader K P :=
  (Raised AttributeError, self).

(** [materials_between] hands the call to the tree, which it only reads. *)
Definition materials_between (self : RangeTrader K P) (i j : Z)
  : result (list (Material K)) * RangeTrader K P :=
  ((avl.range_between (materials self) i j).1, self).

End code.

End trader.

(** * Concrete trees and tables *)

Module samples.

Import avl.

(** Integer keys under [Z.ltb]; seven insertions and a deletion at a node
    with two children. *)
Definition sample_ops : list (@op Z Z) :=
  [Insert 5 50; Insert 3 30; Insert 8 80; Insert 1 10; Insert 4 40;
   Insert 7 70; Insert 9 90; Delete 3].

Definition sample : AVLTree Z Z :=
  mkAVLTree
    (AVLTreeNode 5 50
       (AVLTreeNode 4 40 (AVLTreeNode 1 10 Nil Nil 1 1) Nil 2 2)
       (AVLTreeNode 8 80 (AVLTreeNode 7 70 Nil Nil 1 1)
                         (AVLTreeNode 9 90 Nil Nil 1 1) 2 3)
       3 6)
    6.

(** A right-heavy chain of two nodes below key 1, the input of a left
    rotation. *)
Definition chain : tree Z Z :=
  AVLTreeNode 1 10 Nil (AVLTreeNode 2 20 Nil (AVLTreeNode 3 30 Nil Nil 1 1) 2 2)
              3 3.

(** The table built by [LinearProbeTable(1, 3)]. *)
Definition fresh_table : hash_table.LinearProbeTable Z :=
  hash_table.mkTable 1 3 [None; None; None] 0 0 0 0 0.

(** [fresh_table] after ["a"] and ["b"] have been set: two keys in three
    slots, more than half. *)
Definition two_keys : hash_table.LinearProbeTable Z :=
  hash_table.mkTable 1 3 [None; Some ("a", 1); Some ("b", 2)] 2 0 0 0 0.

(** [two_keys] after ["a"] has been set again. *)
Definition two_keys_rehashed : hash_table.LinearProbeTable Z :=
  hash_table.mkTable 1 5 [None; None; Some ("a", 5); Some ("b", 2); None]
                     2 0 0 0 1.

(** Two keys in five slots, less than half. *)
Definition roomy : hash_table.LinearProbeTable Z :=
  hash_table.mkTable 1 5 [None; None; Some ("a", 1); Some ("b", 2); None]
                     2 0 0 0 0.

(** Two keys in five slots that hash to the same position, the second one
    stored one slot further. *)
Definition crowded : hash_table.LinearProbeTable Z :=
  hash_table.mkTable 1 5 [None; None; Some ("a", 1); Some ("f", 6); None]
                     2 0 1 1 0.

(** Three materials with distinct mining rates, and a trader. *)
Definition ores : list (trader.Material Z) :=
  [trader.mkMaterial "Coal" 5; trader.mkMaterial "Diamond" 9;
   trader.mkMaterial "Iron Ingot" 3].

Definition merchant : trader.RangeTrader Z Z :=
  trader.init "Pierce Hodge".

End samples.

(** * The AVL tree: facts *)

Section avl_facts.

Import avl.

Context {K I : Type}.

Variable ltb : K → K → bool.

(** The keys are totally ordered by [<]. *)
Hypothesis ltb_irrefl : ∀ a, ltb a a = false.
Hypothesis ltb_trans : ∀ a b c, ltb a b = true → ltb b c = true → ltb a c = true.
Hypothesis ltb_total : ∀ a b, ltb a b = false → ltb b a = false → a = b.

Implicit Types (t l r : tree K I) (k key : K) (v item : I) (n h s : Z).
Implicit Types (self : AVLTree K I) (ops : list (@op K I)).

Local Abbreviation lt := (avl.lt ltb).
Local Abbreviation ordered := (avl.ordered ltb).

(** ** Cached fields *)

Lemma cached_height_nonneg t : cached t → 0 <= get_height t.
Proof.
  induction t as [|k v l IHl r IHr h s]; simpl; [lia|].
  intros (-> & _ & Hl & Hr). specialize (IHl Hl). lia.
Qed.

Lemma cached_height_pos k v l r h s :
  cached (AVLTreeNode k v l r h s) → 1 <= h.
Proof.
  simpl. intros (-> & _ & Hl & Hr).
  pose proof (cached_height_nonneg l Hl). lia.
Qed.

Lemma cached_height_Nil t : cached t → get_height t <= 0 → t = Nil.
Proof.
  destruct t as [|k v l r h s]; [done|].
  intros Hc Hh. apply cached_height_pos in Hc. simpl in Hh. lia.
Qed.

Lemma cached_depth t : cached t → get_height t = depth t.
Proof.
  induction t as [|k v l IHl r IHr h s]; simpl; [done|].
  intros (-> & _ & Hl & Hr). rewrite IHl, IHr by done. done.
Qed.

Lemma cached_cardinal t : cached t → get_tree_size t = cardinal t.
Proof.
  induction t as [|k v l IHl r IHr h s]; simpl; [done|].
  intros (_ & -> & Hl & Hr). rewrite IHl, IHr by done. done.
Qed.

Lemma cardinal_elements t : cardinal t = Z.of_nat (List.length (elements t)).
Proof.
  induction t as [|k v l IHl r IHr h s]; simpl; [done|].
  rewrite length_app. simpl. lia.
Qed.

Lemma cached_update k v l r h s :
  cached l → cached r → cached (update (AVLTreeNode k v l r h s)).
Proof. simpl. auto. Qed.

(** ** Rotations *)

Lemma left_rotate_Returned t t' :
  left_rotate t = (Returned, t') →
  ∃ k v l ck cv center cr h s ch cs,
    t = AVLTreeNode k v l (AVLTreeNode ck cv center cr ch cs) h s ∧
    t' = update (AVLTreeNode ck cv (update (AVLTreeNode k v l center h s)) cr ch cs).
Proof.
  destruct t as [|k v l [|ck cv center cr ch cs] h s]; simpl; try discriminate.
  intros [= <-]. by eexists _, _, _, _, _, _, _, _, _, _, _.
Qed.

Lemma right_rotate_Returned t t' :
  right_rotate t = (Returned, t') →
  ∃ k v r ck cv cl center h s ch cs,
    t = AVLTreeNode k v (AVLTreeNode ck cv cl center ch cs) r h s ∧
    t' = update (AVLTreeNode ck cv cl (update (AVLTreeNode k v center r h s)) ch cs).
Proof.
  destruct t as [|k v [|ck cv cl center ch cs] r h s]; simpl; try discriminate.
  intros [= <-]. by eexists _, _, _, _, _, _, _, _, _, _, _.
Qed.

Lemma left_rotate_Raised t e t' :
  left_rotate t = (Raised e, t') → e = AttributeError ∧ t' = t.
Proof.
  destruct t as [|k v l [|ck cv center cr ch cs] h s]; simpl; intros [= <- <-]; done.
Qed.

Lemma right_rotate_Raised t e t' :
  right_rotate t = (Raised e, t') → e = AttributeError ∧ t' = t.
Proof.
  destruct t as [|k v [|ck cv cl center ch cs] r h s]; simpl; intros [= <- <-]; done.
Qed.

Lemma left_rotate_elements t t' :
  left_rotate t = (Returned, t') → elements t' = elements t.
Proof.
  intros (k & v & l & ck & cv & center & cr & h & s & ch & cs & -> & ->)%left_rotate_Returned.
  simpl. by rewrite <- app_assoc.
Qed.

Lemma right_rotate_elements t t' :
  right_rotate t = (Returned, t') → elements t' = elements t.
Proof.
  intros (k & v & r & ck & cv & cl & center & h & s & ch & cs & -> & ->)%right_rotate_Returned.
  simpl. by rewrite <- app_assoc.
Qed.

Lemma left_rotate_cardinal t t' :
  left_rotate t = (Returned, t') → cardinal t' = cardinal t.
Proof.
  intros (k & v & l & ck & cv & center & cr & h & s & ch & cs & -> & ->)%left_rotate_Returned.
  simpl. lia.
Qed.

Lemma right_rotate_cardinal t t' :
  right_rotate t = (Returned, t') → cardinal t' = cardinal t.
Proof.
  intros (k & v & r & ck & cv & cl & center & h & s & ch & cs & -> & ->)%right_rotate_Returned.
  simpl. lia.
Qed.

(** ** Rebalancing *)

Lemma rebalance_elements t t' :
  rebalance t = (Returned, t') → elements t' = elements t.
Proof.
  unfold rebalance.
  destruct (2 <=? get_balance t); [|destruct (get_balance t <=? -2)].
  - destruct t as [|k v l [|ck cv cl cr ch cs] h s]; try discriminate.
    destruct (get_height cr <? get_height cl).
    + destruct (right_rotate _) as [[|e] child'] eqn:E; [|discriminate].
      intros ->%left_rotate_elements. apply right_rotate_elements in E.
      simpl in *. by rewrite E.
    + apply left_rotate_elements.
  - destruct t as [|k v [|ck cv cl cr ch cs] r h s]; try discriminate.
    destruct (get_height cl <? get_height cr).
    + destruct (left_rotate _) as [[|e] child'] eqn:E; [|discriminate].
      intros ->%right_rotate_elements. apply left_rotate_elements in E.
      simpl in *. by rewrite E.
    + apply right_rotate_elements.
  - by intros [= <-].
Qed.

Lemma rebalance_Raised t e t' :
  rebalance t = (Raised e, t') → e = AttributeError ∧ t' = t.
Proof.
  unfold rebalance.
  destruct (2 <=? get_balance t); [|destruct (get_balance t <=? -2)].
  - destruct t as [|k v l [|ck cv cl cr ch cs] h s]; try (by intros [= <- <-]).
    destruct (get_height cr <? get_height cl).
    + destruct (right_rotate _) as [[|e0] child'] eqn:E.
      * apply right_rotate_Returned in E
          as (? & ? & ? & ? & ? & ? & ? & ? & ? & ? & ? & _ & ->).
        discriminate.
      * apply right_rotate_Raised in E as [-> ->]. by intros [= <- <-].
    + apply left_rotate_Raised.
  - destruct t as [|k v [|ck cv cl cr ch cs] r h s]; try (by intros [= <- <-]).
    destruct (get_height cl <? get_height cr).
    + destruct (left_rotate _) as [[|e0] child'] eqn:E.
      * apply left_rotate_Returned in E
          as (? & ? & ? & ? & ? & ? & ? & ? & ? & ? & ? & _ & ->).
        discriminate.
      * apply left_rotate_Raised in E as [-> ->]. by intros [= <- <-].
    + apply right_rotate_Raised.
  - discriminate.
Qed.

Lemma rebalance_spec k v l r h s :
  cached l → cached r → balanced l → balanced r →
  -2 <= get_height l - get_height r <= 2 →
  ∃ t', rebalance (update (AVLTreeNode k v l r h s)) = (Returned, t') ∧
        cached t' ∧ balanced t' ∧ t' ≠ Nil ∧
        (get_height t' = 1 + Z.max (get_height l) (get_height r) ∨
         get_height t' = Z.max (get_height l) (get_height r)) ∧
        (-1 <= get_height l - get_height r <= 1 →
         t' = update (AVLTreeNode k v l r h s)).
Proof.
  intros Hcl Hcr Hbl Hbr Hd.
  pose proof (cached_height_nonneg l Hcl) as Hl0.
  pose proof (cached_height_nonneg r Hcr) as Hr0.
  unfold rebalance. simpl get_balance.
  destruct (Z.leb_spec 2 (get_height r - get_height l)) as [Hhi|Hhi].
  - (* right-heavy *)
    destruct r as [|ck cv cl cr ch cs]; [simpl in *; lia|].
    pose proof Hcr as (-> & -> & Hccl & Hccr).
    pose proof Hbr as (Hb & Hbcl & Hbcr).
    pose proof (cached_height_nonneg cl Hccl) as Hcl0.
    pose proof (cached_height_nonneg cr Hccr) as Hcr0.
    simpl update. cbv iota.
    destruct (Z.ltb_spec (get_height cr) (get_height cl)) as [Hin|Hin].
    + destruct cl as [|gk gv gl gr gh gs]; [simpl in *; lia|].
      pose proof Hccl as (-> & -> & Hcgl & Hcgr).
      pose proof Hbcl as (Hbg & Hbgl & Hbgr).
      pose proof (cached_height_nonneg gl Hcgl).
      pose proof (cached_height_nonneg gr Hcgr).
      simpl in *. eexists; split; [done|].
      repeat split; simpl; try done; try lia.
    + simpl in *. eexists; split; [done|].
      repeat split; simpl; try done; try lia.
  - destruct (Z.leb_spec (get_height r - get_height l) (-2)) as [Hlo|Hlo].
    + (* left-heavy *)
      destruct l as [|ck cv cl cr ch cs]; [simpl in *; lia|].
      pose proof Hcl as (-> & -> & Hccl & Hccr).
      pose proof Hbl as (Hb & Hbcl & Hbcr).
      pose proof (cached_height_nonneg cl Hccl) as Hcl0.
      pose proof (cached_height_nonneg cr Hccr) as Hcr0.
      simpl update. cbv iota.
      destruct (Z.ltb_spec (get_height cl) (get_height cr)) as [Hin|Hin].
      * destruct cr as [|gk gv gl gr gh gs]; [simpl in *; lia|].
        pose proof Hccr as (-> & -> & Hcgl & Hcgr).
        pose proof Hbcr as (Hbg & Hbgl & Hbgr).
        pose proof (cached_height_nonneg gl Hcgl).
        pose proof (cached_height_nonneg gr Hcgr).
        simpl in *. eexists; split; [done|].
        repeat split; simpl; try done; try lia.
      * simpl in *. eexists; split; [done|].
        repeat split; simpl; try done; try lia.
    + eexists; split; [done|]. simpl.
      repeat split; simpl; try done; try lia.
Qed.


Lemma finish_spec k v l r h s n :
  cached l → cached r → balanced l → balanced r →
  -2 <= get_height l - get_height r <= 2 →
  ∃ t', finish (AVLTreeNode k v l r h s) n = (Returned, t', n) ∧
        cached t' ∧ balanced t' ∧ t' ≠ Nil ∧
        elements t' = elements l ++ (k, v) :: elements r ∧
        (get_height t' = 1 + Z.max (get_height l) (get_height r) ∨
         get_height t' = Z.max (get_height l) (get_height r)) ∧
        (-1 <= get_height l - get_height r <= 1 →
         get_height t' = 1 + Z.max (get_height l) (get_height r)).
Proof.
  intros Hcl Hcr Hbl Hbr Hd.
  destruct (rebalance_spec k v l r h s Hcl Hcr Hbl Hbr Hd)
    as (t' & Hreb & Hc & Hb & Hne & Hh & Hsame).
  exists t'. unfold finish. rewrite Hreb.
  repeat split; try done.
  - by apply rebalance_elements in Hreb.
  - intros Hin. by rewrite (Hsame Hin).
Qed.

(** ** Ordering *)

Lemma lt_asym a b : lt a b → lt b a → False.
Proof.
  unfold avl.lt. intros Hab Hba.
  pose proof (ltb_trans _ _ _ Hab Hba) as Haa.
  rewrite ltb_irrefl in Haa. discriminate.
Qed.

Lemma lt_neq a b : lt a b → a ≠ b.
Proof. unfold avl.lt. intros Hab ->. rewrite ltb_irrefl in Hab. discriminate. Qed.

Lemma keys_node k v l r h s :
  keys (AVLTreeNode k v l r h s) = keys l ++ k :: keys r.
Proof. unfold keys. simpl. by rewrite fmap_app. Qed.

Lemma ordered_node k v l r h s :
  ordered (AVLTreeNode k v l r h s) ↔
  ordered l ∧ ordered r ∧
  (∀ x, x ∈ keys l → lt x k) ∧ (∀ y, y ∈ keys r → lt k y).
Proof.
  unfold avl.ordered. rewrite keys_node, StronglySorted_app, StronglySorted_cons.
  rewrite Forall_forall. split.
  - intros (Hlr & Hl & Hkr & Hr). repeat split; try done.
    intros x Hx. apply (Hlr x k); [done|]. apply elem_of_cons; by left.
  - intros (Hl & Hr & Hlk & Hkr). repeat split; try done.
    intros x y Hx [->|Hy]%elem_of_cons; [by apply Hlk|].
    unfold avl.lt. eapply ltb_trans; [by apply Hlk|by apply Hkr].
Qed.

Lemma elem_of_keys t p : p ∈ elements t → p.1 ∈ keys t.
Proof. apply list_elem_of_fmap_2. Qed.

Lemma ordered_split (xs ys : list (K * I)) key item :
  StronglySorted lt (xs ++ ys).*1 →
  (∀ p, p ∈ xs → lt p.1 key) → (∀ p, p ∈ ys → lt key p.1) →
  StronglySorted lt (xs ++ (key, item) :: ys).*1.
Proof.
  rewrite !fmap_app, fmap_cons, !StronglySorted_app, StronglySorted_cons.
  rewrite Forall_forall.
  intros (Hxy & Hx & Hy) Hlo Hhi. repeat split; try done.
  - intros a b (p & -> & Hp)%list_elem_of_fmap_1 [->|Hb]%elem_of_cons.
    + by apply Hlo.
    + by apply Hxy; [apply list_elem_of_fmap_2|].
  - by intros b (p & -> & Hp)%list_elem_of_fmap_1; apply Hhi.
Qed.

(** ** Insertion *)

Lemma insert_aux_spec t key item n :
  ordered t → cached t → balanced t →
  (key ∈ keys t ∧ insert_aux ltb t key item n = (Raised KeyError, t, n)) ∨
  ((key ∉ keys t) ∧
   ∃ t' xs ys,
     insert_aux ltb t key item n = (Returned, t', n + 1) ∧
     cached t' ∧ balanced t' ∧ t' ≠ Nil ∧
     (get_height t' = get_height t ∨ get_height t' = get_height t + 1) ∧
     elements t = xs ++ ys ∧ elements t' = xs ++ (key, item) :: ys ∧
     (∀ p, p ∈ xs → lt p.1 key) ∧ (∀ p, p ∈ ys → lt key p.1)).
Proof.
  induction t as [|k v l IHl r IHr h s]; intros Ho Hc Hb.
  - right. split; [apply not_elem_of_nil|].
    exists (AVLTreeNode key item Nil Nil 1 1), [], [].
    repeat split; simpl; try done; try lia.
    + intros p Hp. by apply elem_of_nil in Hp.
    + intros p Hp. by apply elem_of_nil in Hp.
  - apply ordered_node in Ho as (Hol & Hor & Hlk & Hkr).
    destruct Hc as (Hh & Hs & Hcl & Hcr). destruct Hb as (Hd & Hbl & Hbr).
    rewrite keys_node. simpl insert_aux.
    destruct (ltb key k) eqn:Hlt; [|destruct (ltb k key) eqn:Hgt].
    + destruct (IHl Hol Hcl Hbl)
        as [[Hin Heq]|(Hnin & l' & xs & ys & Heq & Hcl' & Hbl' & _ & Hhl' & Hel & Hel' & Hlo & Hhi)];
        rewrite Heq.
      * left. split; [|done]. apply elem_of_app; by left.
      * right. split.
        { rewrite not_elem_of_app, not_elem_of_cons. repeat split; try done.
          - by apply lt_neq.
          - intros Hin. apply (lt_asym key k); [done|by apply Hkr]. }
        destruct (finish_spec k v l' r h s (n + 1) Hcl' Hcr Hbl' Hbr)
          as (t' & Hfin & Hc' & Hb' & Hne & He' & Hh1 & Hh2); [lia|].
        exists t', xs, (ys ++ (k, v) :: elements r).
        rewrite Hfin, He'. simpl. rewrite Hel, Hel'.
        rewrite <- !app_assoc. simpl.
        repeat split; try done; try lia.
        intros p [Hp|[->|Hp]%elem_of_cons]%elem_of_app.
        -- by apply Hhi.
        -- done.
        -- unfold avl.lt. eapply ltb_trans; [exact Hlt|].
           apply Hkr. by apply elem_of_keys.
    + destruct (IHr Hor Hcr Hbr)
        as [[Hin Heq]|(Hnin & r' & xs & ys & Heq & Hcr' & Hbr' & _ & Hhr' & Her & Her' & Hlo & Hhi)];
        rewrite Heq.
      * left. split; [|done]. apply elem_of_app; right. apply elem_of_cons; by right.
      * right. split.
        { rewrite not_elem_of_app, not_elem_of_cons. repeat split; try done.
          - intros Hin. apply (lt_asym k key); [done|by apply Hlk].
          - intros ->. by rewrite ltb_irrefl in Hgt. }
        destruct (finish_spec k v l r' h s (n + 1) Hcl Hcr' Hbl Hbr')
          as (t' & Hfin & Hc' & Hb' & Hne & He' & Hh1 & Hh2); [lia|].
        exists t', (elements l ++ (k, v) :: xs), ys.
        rewrite Hfin, He'. simpl. rewrite Her, Her'.
        rewrite <- !app_assoc. simpl.
        repeat split; try done; try lia.
        intros p [Hp|[->|Hp]%elem_of_cons]%elem_of_app.
        -- unfold avl.lt. eapply ltb_trans; [|exact Hgt].
           apply Hlk. by apply elem_of_keys.
        -- done.
        -- by apply Hlo.
    + left. assert (key = k) as ->; [by apply ltb_total|].
      split; [|done]. apply elem_of_app; right. apply elem_of_cons; by left.
Qed.


(** ** Deletion *)

Lemma get_minimal_head t :
  t ≠ Nil →
  ∃ sk sv ml mr mh ms rest,
    get_minimal t = AVLTreeNode sk sv ml mr mh ms ∧
    elements t = (sk, sv) :: rest.
Proof.
  induction t as [|k v l IHl r _ h s]; [done|]. intros _.
  destruct l as [|lk lv ll lr lh ls].
  - simpl. by eexists _, _, _, _, _, _, _.
  - destruct IHl as (sk & sv & ml & mr & mh & ms & rest & Hmin & Hel); [done|].
    exists sk, sv, ml, mr, mh, ms, (rest ++ (k, v) :: elements r).
    split; [exact Hmin|].
    change (elements (AVLTreeNode k v (AVLTreeNode lk lv ll lr lh ls) r h s))
      with (elements (AVLTreeNode lk lv ll lr lh ls) ++ (k, v) :: elements r).
    by rewrite Hel.
Qed.

Lemma ordered_head_split (xs ys rest : list (K * I)) sk sv item :
  StronglySorted lt ((sk, sv) :: rest).*1 →
  (sk, sv) :: rest = xs ++ (sk, item) :: ys →
  xs = [] ∧ item = sv ∧ ys = rest.
Proof.
  intros Hs Heq. destruct xs as [|p xs]; simpl in Heq.
  - by injection Heq as <- <-.
  - injection Heq as <- ->. exfalso.
    rewrite fmap_cons, StronglySorted_cons, Forall_forall in Hs.
    destruct Hs as [Hs _]. apply (lt_neq sk sk); [|done]. apply Hs.
    rewrite fmap_app, fmap_cons. apply elem_of_app; right.
    apply elem_of_cons; by left.
Qed.

Lemma delete_aux_spec t key n :
  ordered t → cached t → balanced t →
  ((key ∉ keys t) ∧ delete_aux ltb t key n = (Raised ValueError, t, n)) ∨
  (key ∈ keys t ∧
   ∃ t' xs item ys,
     delete_aux ltb t key n = (Returned, t', n - 1) ∧
     cached t' ∧ balanced t' ∧
     (get_height t' = get_height t ∨ get_height t' = get_height t - 1) ∧
     elements t = xs ++ (key, item) :: ys ∧ elements t' = xs ++ ys).
Proof.
  revert key n.
  induction t as [|k v l IHl r IHr h s]; intros key n Ho Hc Hb.
  - left. split; [apply not_elem_of_nil|done].
  - pose proof Ho as (Hol & Hor & Hlk & Hkr)%ordered_node.
    pose proof Hc as (Hh & Hs & Hcl & Hcr). destruct Hb as (Hd & Hbl & Hbr).
    pose proof (cached_height_nonneg l Hcl) as Hl0.
    pose proof (cached_height_nonneg r Hcr) as Hr0.
    rewrite keys_node. simpl delete_aux.
    destruct (ltb key k) eqn:Hlt; [|destruct (ltb k key) eqn:Hgt].
    + destruct (IHl key n Hol Hcl Hbl)
        as [[Hnin Heq]|(Hin & l' & xs & it & ys & Heq & Hcl' & Hbl' & Hhl' & Hel & Hel')];
        rewrite Heq.
      * left. split; [|done].
        rewrite not_elem_of_app, not_elem_of_cons. repeat split; try done.
        -- by apply lt_neq.
        -- intros Hin. apply (lt_asym key k); [done|by apply Hkr].
      * right. split; [apply elem_of_app; by left|].
        destruct (finish_spec k v l' r h s (n - 1) Hcl' Hcr Hbl' Hbr)
          as (t' & Hfin & Hc' & Hb' & Hne & He' & Hh1 & Hh2); [lia|].
        exists t', xs, it, (ys ++ (k, v) :: elements r).
        rewrite Hfin, He'. simpl. rewrite Hel, Hel'.
        rewrite <- !app_assoc. simpl.
        repeat split; try done; try lia.
    + destruct (IHr key n Hor Hcr Hbr)
        as [[Hnin Heq]|(Hin & r' & xs & it & ys & Heq & Hcr' & Hbr' & Hhr' & Her & Her')];
        rewrite Heq.
      * left. split; [|done].
        rewrite not_elem_of_app, not_elem_of_cons. repeat split; try done.
        -- intros Hin. apply (lt_asym k key); [done|by apply Hlk].
        -- intros ->. by rewrite ltb_irrefl in Hgt.
      * right. split; [apply elem_of_app; right; apply elem_of_cons; by right|].
        destruct (finish_spec k v l r' h s (n - 1) Hcl Hcr' Hbl Hbr')
          as (t' & Hfin & Hc' & Hb' & Hne & He' & Hh1 & Hh2); [lia|].
        exists t', (elements l ++ (k, v) :: xs), it, ys.
        rewrite Hfin, He'. simpl. rewrite Her, Her'.
        rewrite <- !app_assoc. simpl.
        repeat split; try done; try lia.
    + right. assert (key = k) as ->; [by apply ltb_total|].
      split; [apply elem_of_app; right; apply elem_of_cons; by left|].
      destruct l as [|lk lv ll lr lh ls]; [|destruct r as [|rk rv rl rr rh rs]].
      * destruct r as [|rk rv rl rr rh rs].
        -- exists Nil, [], v, []. simpl in *. repeat split; try done; lia.
        -- exists (AVLTreeNode rk rv rl rr rh rs), [], v,
             (elements (AVLTreeNode rk rv rl rr rh rs)).
           simpl in *. repeat split; try done; try tauto; lia.
      * exists (AVLTreeNode lk lv ll lr lh ls),
          (elements (AVLTreeNode lk lv ll lr lh ls)), v, [].
        simpl in *. rewrite app_nil_r.
        repeat split; try done; try tauto; lia.
      * set (l := AVLTreeNode lk lv ll lr lh ls) in *.
        set (r := AVLTreeNode rk rv rl rr rh rs) in *.
        destruct (get_minimal_head r) as (sk & sv & ml & mr & mh & ms & rest & Hmin & Hel);
          [done|].
        change (is_leaf (AVLTreeNode k v l r h s)) with false.
        change (is_None l) with false. change (is_None r) with false.
        cbv iota. unfold get_successor. rewrite Hmin.
        destruct (IHr sk n Hor Hcr Hbr)
          as [[Hnin _]|(_ & r' & xs & it & ys & Heq & Hcr' & Hbr' & Hhr' & Her & Her')].
        { exfalso. apply Hnin. unfold keys. rewrite Hel, fmap_cons.
          apply elem_of_cons; by left. }
        rewrite Heq.
        assert (xs = [] ∧ it = sv ∧ ys = rest) as (-> & -> & ->).
        { apply (ordered_head_split xs ys rest sk sv it).
          - unfold avl.ordered, keys in Hor. by rewrite Hel in Hor.
          - by rewrite <- Hel. }
        destruct (finish_spec sk sv l r' h s (n - 1) Hcl Hcr' Hbl Hbr')
          as (t' & Hfin & Hc' & Hb' & Hne & He' & Hh1 & Hh2); [lia|].
        exists t', (elements l), v, ((sk, sv) :: rest).
        rewrite Hfin, He'.
        change (elements (AVLTreeNode k v l r h s))
          with (elements l ++ (k, v) :: elements r).
        rewrite Hel, Her'. simpl.
        repeat split; try done; try lia.
Qed.


(** ** Lookup *)

Lemma getitem_aux_elements t key item :
  ordered t → (key, item) ∈ elements t → getitem_aux ltb t key = Return item.
Proof.
  induction t as [|k v l IHl r IHr h s]; simpl.
  - intros _ Hin. by apply elem_of_nil in Hin.
  - intros (Hol & Hor & Hlk & Hkr)%ordered_node
      [Hin|[[= -> ->]|Hin]%elem_of_cons]%elem_of_app.
    + assert (ltb key k = true) as ->; [|by apply IHl].
      by apply Hlk, (elem_of_keys l (key, item)).
    + by rewrite ltb_irrefl.
    + assert (lt k key) as Hgt by by apply Hkr, (elem_of_keys r (key, item)).
      destruct (ltb key k) eqn:Hlt; [by destruct (lt_asym k key)|].
      rewrite Hgt. by apply IHr.
Qed.

Lemma getitem_aux_Return t key item :
  getitem_aux ltb t key = Return item → (key, item) ∈ elements t.
Proof.
  induction t as [|k v l IHl r IHr h s]; simpl; [done|].
  destruct (ltb key k) eqn:Hlt; [|destruct (ltb k key) eqn:Hgt].
  - intros H. apply elem_of_app; left. by apply IHl.
  - intros H. apply elem_of_app; right. apply elem_of_cons; right. by apply IHr.
  - intros [= ->]. rewrite (ltb_total key k Hlt Hgt).
    apply elem_of_app; right. apply elem_of_cons; by left.
Qed.

(** ** Maximum *)

Lemma get_max_loop_spec t :
  ordered t → t ≠ Nil →
  ∃ k v xs,
    get_max_loop t = Return (k, v) ∧ elements t = xs ++ [(k, v)] ∧
    ∀ k', k' ∈ keys t → k' = k ∨ lt k' k.
Proof.
  induction t as [|k v l _ r IHr h s]; [done|].
  intros (Hol & Hor & Hlk & Hkr)%ordered_node _.
  destruct r as [|rk rv rl rr rh rs].
  - exists k, v, (elements l). simpl. repeat split; try done.
    unfold keys. simpl. rewrite fmap_app.
    intros k' [Hin|[->|Hin%elem_of_nil]%elem_of_cons]%elem_of_app; try done.
    + right. by apply Hlk.
    + by left.
  - set (r := AVLTreeNode rk rv rl rr rh rs) in *.
    destruct (IHr Hor) as (km & vm & xs & Hmax & Hel & Hall); [done|].
    exists km, vm, (elements l ++ (k, v) :: xs).
    change (get_max_loop (AVLTreeNode k v l r h s)) with (get_max_loop r).
    change (elements (AVLTreeNode k v l r h s))
      with (elements l ++ (k, v) :: elements r).
    rewrite keys_node, Hel, <- app_assoc. repeat split; try done.
    assert (lt k km) as Hkm.
    { apply Hkr. unfold keys. rewrite Hel, fmap_app.
      apply elem_of_app; right. apply elem_of_cons; by left. }
    intros k' [Hin|[->|Hin]%elem_of_cons]%elem_of_app.
    + right. unfold avl.lt. eapply ltb_trans; [by apply Hlk|done].
    + by right.
    + by apply Hall.
Qed.

(** ** Rank windows *)

Lemma window_nil_hi {A} lo hi (xs : list A) : hi < 0 → window lo hi xs = [].
Proof.
  revert lo hi. induction xs as [|x xs IH]; intros lo hi Hhi; simpl; [done|].
  rewrite IH by lia.
  destruct (Z.leb_spec 0 hi); [lia|]. by rewrite andb_false_r.
Qed.

Lemma window_nil_lo {A} lo hi (xs : list A) :
  Z.of_nat (List.length xs) <= lo → window lo hi xs = [].
Proof.
  revert lo hi. induction xs as [|x xs IH]; intros lo hi Hlo; simpl in *; [done|].
  rewrite IH by lia.
  destruct (Z.leb_spec lo 0); [lia|]. done.
Qed.

Lemma window_app {A} lo hi (xs ys : list A) :
  window lo hi (xs ++ ys) =
  window lo hi xs ++
  window (lo - Z.of_nat (List.length xs)) (hi - Z.of_nat (List.length xs)) ys.
Proof.
  revert lo hi. induction xs as [|x xs IH]; intros lo hi; simpl List.length.
  - simpl. f_equal; lia.
  - simpl. rewrite IH, <- app_assoc. do 3 f_equal; lia.
Qed.

Lemma window_clamped {A} lo hi (xs : list A) :
  window lo hi xs =
  take (Z.to_nat (hi + 1 - Z.max 0 lo)) (drop (Z.to_nat lo) xs).
Proof.
  revert lo hi. induction xs as [|x xs IH]; intros lo hi; simpl.
  - by rewrite drop_nil, take_nil.
  - destruct (Z.leb_spec lo 0) as [H0|H0].
    + replace (Z.to_nat lo) with O by lia. simpl drop.
      destruct (Z.leb_spec 0 hi) as [Hhi|Hhi]; simpl.
      * replace (Z.to_nat (hi + 1 - Z.max 0 lo)) with (S (Z.to_nat hi)) by lia.
        simpl. f_equal. rewrite IH.
        replace (Z.to_nat (lo - 1)) with O by lia. simpl. f_equal. lia.
      * replace (Z.to_nat (hi + 1 - Z.max 0 lo)) with O by lia.
        rewrite take_0. apply window_nil_hi. lia.
    + simpl. rewrite IH.
      replace (Z.to_nat lo) with (S (Z.to_nat (lo - 1))) by lia. simpl.
      f_equal. lia.
Qed.

Lemma window_slice {A} lo hi (xs : list A) :
  0 <= lo →
  window lo hi xs = take (Z.to_nat (hi + 1 - lo)) (drop (Z.to_nat lo) xs).
Proof. intros Hlo. rewrite window_clamped. do 2 f_equal. lia. Qed.


Lemma values_length t : Z.of_nat (List.length (values t)) = cardinal t.
Proof. unfold values. by rewrite length_fmap, cardinal_elements. Qed.

Lemma cardinal_nonneg t : 0 <= cardinal t.
Proof. rewrite cardinal_elements. lia. Qed.

(** The recursion appends to [acc] the items whose rank lies in [i..j],
    when [max_index] is the rank of the last node of the subtree. *)
Lemma range_between_aux_spec t i j max_index (acc : list I) :
  cached t →
  range_between_aux t i j max_index acc =
  acc ++ window (i - (max_index - cardinal t + 1))
                (j - (max_index - cardinal t + 1)) (values t).
Proof.
  revert i j max_index acc.
  induction t as [|k v l IHl r IHr h s]; intros i j m acc Hc.
  - simpl. by rewrite app_nil_r.
  - destruct Hc as (_ & _ & Hcl & Hcr).
    simpl range_between_aux.
    assert (match r with
            | Nil => m
            | AVLTreeNode _ _ _ _ _ rs => m - rs
            end = m - cardinal r) as ->.
    { destruct r as [|rk rv rl rr rh rs]; [simpl; lia|].
      change rs with (get_tree_size (AVLTreeNode rk rv rl rr rh rs)) at 1.
      by rewrite cached_cardinal. }
    change (values (AVLTreeNode k v l r h s))
      with ((elements l ++ (k, v) :: elements r).*2).
    rewrite fmap_app, fmap_cons. fold (values l). fold (values r).
    rewrite window_app, values_length. simpl window.
    simpl cardinal. simpl snd.
    pose proof (cardinal_nonneg l). pose proof (cardinal_nonneg r).
    set (ci := m - cardinal r).
    assert ((if i <? ci then range_between_aux l i j (ci - 1) acc else acc)
            = acc ++ window (i - (m - (1 + cardinal l + cardinal r) + 1))
                            (j - (m - (1 + cardinal l + cardinal r) + 1))
                            (values l)) as ->.
    { destruct (Z.ltb_spec i ci).
      - rewrite IHl by done. unfold ci. do 2 f_equal; lia.
      - rewrite window_nil_lo; [by rewrite app_nil_r|].
        rewrite values_length. unfold ci in *. lia. }
    assert (((i <=? ci) && (ci <=? j)) =
            ((i - (m - (1 + cardinal l + cardinal r) + 1) - cardinal l <=? 0) &&
             (0 <=? j - (m - (1 + cardinal l + cardinal r) + 1) - cardinal l)))
      as ->.
    { unfold ci. f_equal.
      - destruct (Z.leb_spec i (m - cardinal r)), (Z.leb_spec
          (i - (m - (1 + cardinal l + cardinal r) + 1) - cardinal l) 0); lia || done.
      - destruct (Z.leb_spec (m - cardinal r) j), (Z.leb_spec 0
          (j - (m - (1 + cardinal l + cardinal r) + 1) - cardinal l)); lia || done. }
    match goal with
    | |- context [if ?b then (acc ++ ?w) ++ [v] else _] =>
        assert ((if b then (acc ++ w) ++ [v] else acc ++ w)
                = acc ++ w ++ (if b then [v] else [])) as ->
    end.
    { destruct (_ && _); [by rewrite app_assoc|by rewrite app_nil_r]. }
    destruct (Z.ltb_spec ci j).
    + rewrite IHr by done. rewrite <- !app_assoc. do 3 f_equal.
      unfold ci. f_equal; lia.
    + rewrite (window_nil_hi _ _ (values r)); [|unfold ci in *; lia].
      by rewrite app_nil_r.
Qed.


(** ** Failing calls *)

Lemma finish_Raised t n e t' n' :
  finish t n = (Raised e, t', n') → e = AttributeError.
Proof.
  unfold finish. destruct (rebalance (update t)) as [c u] eqn:E.
  intros [= -> -> ->]. by apply rebalance_Raised in E as [-> _].
Qed.

Lemma insert_aux_KeyError t key item n t' n' :
  insert_aux ltb t key item n = (Raised KeyError, t', n') → t' = t ∧ n' = n.
Proof.
  revert t' n'. induction t as [|k v l IHl r IHr h s]; intros t' n'; simpl.
  - intros H. by apply finish_Raised in H.
  - destruct (ltb key k); [|destruct (ltb k key)].
    + destruct (insert_aux ltb l key item n) as [[[|e] l'] n1].
      * intros H. by apply finish_Raised in H.
      * intros [= -> <- <-]. by destruct (IHl l' n1 eq_refl) as [-> ->].
    + destruct (insert_aux ltb r key item n) as [[[|e] r'] n1].
      * intros H. by apply finish_Raised in H.
      * intros [= -> <- <-]. by destruct (IHr r' n1 eq_refl) as [-> ->].
    + by intros [= <- <-].
Qed.

Lemma insert_aux_present t key item n :
  ordered t → key ∈ keys t →
  insert_aux ltb t key item n = (Raised KeyError, t, n).
Proof.
  induction t as [|k v l IHl r IHr h s].
  - intros _ Hin. by apply elem_of_nil in Hin.
  - intros (Hol & Hor & Hlk & Hkr)%ordered_node. rewrite keys_node. simpl.
    intros [Hin|[->|Hin]%elem_of_cons]%elem_of_app.
    + rewrite (Hlk key Hin). by rewrite IHl.
    + by rewrite ltb_irrefl.
    + pose proof (Hkr key Hin) as Hgt.
      destruct (ltb key k) eqn:Hlt; [by destruct (lt_asym k key)|].
      rewrite Hgt. by rewrite IHr.
Qed.

Lemma delete_aux_absent t key n :
  key ∉ keys t → delete_aux ltb t key n = (Raised ValueError, t, n).
Proof.
  induction t as [|k v l IHl r IHr h s]; [done|].
  rewrite keys_node, not_elem_of_app, not_elem_of_cons.
  intros (Hl & Hk & Hr). simpl.
  destruct (ltb key k) eqn:Hlt; [by rewrite IHl|].
  destruct (ltb k key) eqn:Hgt; [by rewrite IHr|].
  by destruct Hk; apply ltb_total.
Qed.

Lemma delete_aux_ValueError t key n t' n' :
  ordered t →
  delete_aux ltb t key n = (Raised ValueError, t', n') →
  t' = t ∧ n' = n ∧ key ∉ keys t.
Proof.
  revert key n t' n'.
  induction t as [|k v l IHl r IHr h s]; intros key n t' n' Ho.
  - simpl. intros [= <- <-]. repeat split. apply not_elem_of_nil.
  - apply ordered_node in Ho as (Hol & Hor & Hlk & Hkr).
    rewrite keys_node, not_elem_of_app, not_elem_of_cons. simpl delete_aux.
    destruct (ltb key k) eqn:Hlt; [|destruct (ltb k key) eqn:Hgt].
    + destruct (delete_aux ltb l key n) as [[[|e] l'] n1] eqn:E.
      * intros H. by apply finish_Raised in H.
      * intros [= -> <- <-].
        destruct (IHl key n l' n1 Hol E) as (-> & -> & Hnin).
        repeat split; try done.
        -- by apply lt_neq.
        -- intros Hin. apply (lt_asym key k); [done|by apply Hkr].
    + destruct (delete_aux ltb r key n) as [[[|e] r'] n1] eqn:E.
      * intros H. by apply finish_Raised in H.
      * intros [= -> <- <-].
        destruct (IHr key n r' n1 Hor E) as (-> & -> & Hnin).
        repeat split; try done.
        -- intros Hin. apply (lt_asym k key); [done|by apply Hlk].
        -- intros ->. by rewrite ltb_irrefl in Hgt.
    + destruct l as [|lk lv ll lr lh ls]; [destruct r; simpl; discriminate|].
      destruct r as [|rk rv rl rr rh rs]; [simpl; discriminate|].
      set (l := AVLTreeNode lk lv ll lr lh ls) in *.
      set (r := AVLTreeNode rk rv rl rr rh rs) in *.
      destruct (get_minimal_head r) as (sk & sv & ml & mr & mh & ms & rest & Hmin & Hel);
        [done|].
      change (is_leaf (AVLTreeNode k v l r h s)) with false.
      change (is_None l) with false. change (is_None r) with false.
      cbv iota. unfold get_successor. rewrite Hmin.
      destruct (delete_aux ltb r sk n) as [[[|e] r'] n1] eqn:E.
      * intros H. by apply finish_Raised in H.
      * intros [= -> <- <-].
        destruct (IHr sk n r' n1 Hor E) as (_ & _ & Hnin).
        destruct Hnin. unfold keys. rewrite Hel, fmap_cons.
        apply elem_of_cons; by left.
Qed.


(** ** The invariants along a sequence of operations *)

Lemma ordered_remove (xs ys : list (K * I)) p :
  StronglySorted lt (xs ++ p :: ys).*1 → StronglySorted lt (xs ++ ys).*1.
Proof.
  rewrite !fmap_app, fmap_cons, !StronglySorted_app, StronglySorted_cons.
  intros (Hxy & Hx & _ & Hy). repeat split; try done.
  intros a b Ha Hb. apply Hxy; [done|]. apply elem_of_cons; by right.
Qed.

Lemma invariant_empty : invariant ltb (empty : AVLTree K I).
Proof.
  repeat split; simpl; try done. apply SSorted_nil.
Qed.

Lemma setitem_returned self key item :
  invariant ltb self → key ∉ keys (root self) →
  ∃ self' xs ys,
    setitem ltb self key item = (Returned, self') ∧
    invariant ltb self' ∧ length self' = length self + 1 ∧
    elements (root self) = xs ++ ys ∧
    elements (root self') = xs ++ (key, item) :: ys.
Proof.
  intros (Hb & Hc & Ho & Hn & Hs) Hnin. unfold setitem.
  destruct (insert_aux_spec (root self) key item (length self) Ho Hc Hb)
    as [[Hin _]|(_ & t' & xs & ys & Heq & Hc' & Hb' & Hne & _ & Hel & Hel' & Hlo & Hhi)];
    [done|].
  rewrite Heq. exists (mkAVLTree t' (length self + 1)), xs, ys.
  assert (length self + 1 = cardinal t') as Hcard.
  { rewrite Hn, !cardinal_elements, Hel, Hel', !length_app. simpl. lia. }
  repeat split; simpl; try done.
  - unfold avl.ordered, keys. rewrite Hel'. apply ordered_split; try done.
    unfold avl.ordered, keys in Ho. by rewrite Hel in Ho.
  - intros _. by rewrite cached_cardinal.
Qed.

Lemma delitem_returned self key :
  invariant ltb self → key ∈ keys (root self) →
  ∃ self' xs item ys,
    delitem ltb self key = (Returned, self') ∧
    invariant ltb self' ∧ length self' = length self - 1 ∧
    elements (root self) = xs ++ (key, item) :: ys ∧
    elements (root self') = xs ++ ys.
Proof.
  intros (Hb & Hc & Ho & Hn & Hs) Hin. unfold delitem.
  destruct (delete_aux_spec (root self) key (length self) Ho Hc Hb)
    as [[Hnin _]|(_ & t' & xs & it & ys & Heq & Hc' & Hb' & _ & Hel & Hel')];
    [done|].
  rewrite Heq. exists (mkAVLTree t' (length self - 1)), xs, it, ys.
  assert (length self - 1 = cardinal t') as Hcard.
  { rewrite Hn, !cardinal_elements, Hel, Hel', !length_app. simpl. lia. }
  repeat split; simpl; try done.
  - unfold avl.ordered, keys. rewrite Hel'. apply (ordered_remove xs ys (key, it)).
    unfold avl.ordered, keys in Ho. by rewrite Hel in Ho.
  - intros _. by rewrite cached_cardinal.
Qed.

Lemma apply_op_invariant self o self' :
  invariant ltb self → apply_op ltb self o = (Returned, self') →
  invariant ltb self'.
Proof.
  intros Hinv. pose proof Hinv as (Hb & Hc & Ho & Hn). destruct o as [key item|key]; simpl.
  - unfold setitem at 1.
    destruct (insert_aux_spec (root self) key item (length self) Ho Hc Hb)
      as [[_ Heq]|(Hnin & _)].
    + by rewrite Heq.
    + destruct (setitem_returned self key item Hinv Hnin)
        as (self1 & xs & ys & Heq & Hinv' & _).
      unfold setitem in Heq. rewrite Heq. by intros [= <-].
  - unfold delitem at 1.
    destruct (delete_aux_spec (root self) key (length self) Ho Hc Hb)
      as [[_ Heq]|(Hin & _)].
    + by rewrite Heq.
    + destruct (delitem_returned self key Hinv Hin)
        as (self1 & xs & it & ys & Heq & Hinv' & _).
      unfold delitem in Heq. rewrite Heq. by intros [= <-].
Qed.

Lemma run_invariant ops self self' :
  invariant ltb self → run ltb self ops = Some self' → invariant ltb self'.
Proof.
  revert self. induction ops as [|o ops IH]; intros self Hinv; simpl.
  - by intros [= <-].
  - destruct (apply_op ltb self o) as [[|e] self1] eqn:E; [|done].
    apply IH. by apply (apply_op_invariant self o).
Qed.

(** C1.  After any sequence of insertions and deletions that all succeed,
    started from the empty tree, the four invariants hold: the balance of
    every node is within one, the cached height and size of every node match
    their formulas, the in-order keys are strictly ascending, and the count
    is the number of nodes and the size cached at the root. *)
Theorem invariants_after_operations ops self :
  run ltb empty ops = Some self →
  balanced (root self) ∧ cached (root self) ∧
  StronglySorted lt (keys (root self)) ∧
  length self = cardinal (root self) ∧
  (root self ≠ Nil → length self = get_tree_size (root self)).
Proof.
  intros Hrun. by apply (run_invariant ops empty self invariant_empty).
Qed.


(** C2.  On a tree whose invariants hold, with [N = length self] keys,
    [range_between i j] for [0 <= i <= j < N] returns the items at positions
    [i..j] of the in-order list, which has [N] entries and is strictly
    ascending by key. *)
Theorem range_between_is_slice self i j :
  invariant ltb self → 0 <= i ∧ i <= j ∧ j < length self →
  StronglySorted lt (elements (root self)).*1 ∧
  Z.of_nat (List.length (elements (root self))) = length self ∧
  range_between self i j =
    (Return (take (Z.to_nat (j - i + 1))
                  (drop (Z.to_nat i) (elements (root self)))).*2,
     self).
Proof.
  intros (Hb & Hc & Ho & Hn & Hs) Hij. repeat split; try done.
  - by rewrite <- cardinal_elements.
  - unfold range_between. rewrite range_between_aux_spec by done.
    rewrite fmap_take, fmap_drop. fold (values (root self)).
    rewrite <- Hn, app_nil_l, window_slice by lia.
    do 4 f_equal; lia.
Qed.

(** C6, as the code has it.  [range_between] checks nothing and never
    raises: on a tree whose invariants hold it returns, for all integers [i]
    and [j], the items whose position [p] in the in-order list satisfies
    [i <= p <= j], and leaves the tree as it was.  With [j < i] that is the
    empty list. *)
Theorem range_between_unchecked self i j :
  invariant ltb self →
  range_between self i j =
    (Return (take (Z.to_nat (j + 1 - Z.max 0 i))
                  (drop (Z.to_nat i) (values (root self)))),
     self) ∧
  (j < i → range_between self i j = (Return [], self)).
Proof.
  intros (Hb & Hc & Ho & Hn & Hs).
  assert (range_between self i j =
          (Return (take (Z.to_nat (j + 1 - Z.max 0 i))
                        (drop (Z.to_nat i) (values (root self)))), self)) as Heq.
  { unfold range_between. rewrite range_between_aux_spec by done.
    rewrite <- Hn, app_nil_l, window_clamped.
    do 4 f_equal; lia. }
  split; [done|]. intros Hji. rewrite Heq.
  replace (Z.to_nat (j + 1 - Z.max 0 i)) with O by lia. by rewrite take_0.
Qed.

(** C3.  On a tree whose invariants hold, inserting a key that is present
    raises [KeyError] and changes nothing; inserting an absent key returns,
    adds one to the count, makes lookup of the key yield the item, and keeps
    every pair that was there, in the tree and under lookup. *)
Theorem setitem_spec self key item :
  invariant ltb self →
  (key ∈ keys (root self) →
   setitem ltb self key item = (Raised KeyError, self)) ∧
  (key ∉ keys (root self) →
   ∃ self',
     setitem ltb self key item = (Returned, self') ∧
     length self' = length self + 1 ∧
     getitem ltb self' key = Return item ∧
     ∀ k' v', (k', v') ∈ elements (root self) →
              (k', v') ∈ elements (root self') ∧
              getitem ltb self' k' = Return v').
Proof.
  intros Hinv. split.
  - intros Hin. destruct Hinv as (_ & _ & Ho & _). unfold setitem.
    rewrite insert_aux_present by done. by destruct self.
  - intros Hnin.
    destruct (setitem_returned self key item Hinv Hnin)
      as (self' & xs & ys & Heq & (_ & _ & Ho' & _) & Hlen & Hel & Hel').
    exists self'. split; [done|]. split; [done|]. split.
    + apply getitem_aux_elements; [done|]. rewrite Hel'.
      apply elem_of_app; right. apply elem_of_cons; by left.
    + intros k' v' Hin. rewrite Hel in Hin.
      assert ((k', v') ∈ elements (root self')) as Hin'.
      { rewrite Hel'. apply elem_of_app in Hin as [Hin|Hin].
        - apply elem_of_app; by left.
        - apply elem_of_app; right. apply elem_of_cons; by right. }
      split; [done|]. by apply getitem_aux_elements.
Qed.

(** C4.  On a tree whose invariants hold, deleting an absent key raises
    [ValueError] and changes nothing; deleting a present key returns, takes
    one from the count and removes that entry and no other from the in-order
    list.  At a matched node with two children, on any subtree, the node
    takes the key and item of the leftmost node of its right subtree, that
    node is deleted from the right subtree, and the common tail follows. *)
Theorem delitem_spec self key :
  invariant ltb self →
  (key ∉ keys (root self) →
   delitem ltb self key = (Raised ValueError, self)) ∧
  (key ∈ keys (root self) →
   ∃ self' xs item ys,
     delitem ltb self key = (Returned, self') ∧
     length self' = length self - 1 ∧
     elements (root self) = xs ++ (key, item) :: ys ∧
     elements (root self') = xs ++ ys ∧
     key ∉ keys (root self')) ∧
  (∀ k v l r h s n,
     ordered (AVLTreeNode k v l r h s) → cached (AVLTreeNode k v l r h s) →
     balanced (AVLTreeNode k v l r h s) → l ≠ Nil → r ≠ Nil →
     ∃ sk sv ml mr mh ms r',
       get_successor (AVLTreeNode k v l r h s) = AVLTreeNode sk sv ml mr mh ms ∧
       get_minimal r = AVLTreeNode sk sv ml mr mh ms ∧
       delete_aux ltb r sk n = (Returned, r', n - 1) ∧
       elements r = (sk, sv) :: elements r' ∧
       delete_aux ltb (AVLTreeNode k v l r h s) k n =
         finish (AVLTreeNode sk sv l r' h s) (n - 1)).
Proof.
  intros Hinv. split; [|split].
  - intros Hnin. unfold delitem. rewrite delete_aux_absent by done.
    by destruct self.
  - intros Hin.
    destruct (delitem_returned self key Hinv Hin)
      as (self' & xs & it & ys & Heq & (_ & _ & Ho' & _) & Hlen & Hel & Hel').
    exists self', xs, it, ys. repeat split; try done.
    destruct Hinv as (_ & _ & Ho & _). unfold avl.ordered, keys in Ho.
    rewrite Hel, fmap_app, fmap_cons, StronglySorted_app, StronglySorted_cons,
      Forall_forall in Ho.
    destruct Ho as (Hxy & _ & Hy & _).
    unfold keys. rewrite Hel', fmap_app. intros [Hx|Hx]%elem_of_app.
    + apply (lt_neq key key); [|done]. apply Hxy; [done|].
      apply elem_of_cons; by left.
    + apply (lt_neq key key); [|done]. by apply Hy.
  - intros k v l r h s n Ho Hc Hb Hl Hr.
    apply ordered_node in Ho as (Hol & Hor & Hlk & Hkr).
    destruct Hc as (_ & _ & Hcl & Hcr). destruct Hb as (_ & Hbl & Hbr).
    destruct (get_minimal_head r Hr)
      as (sk & sv & ml & mr & mh & ms & rest & Hmin & Hel).
    destruct (delete_aux_spec r sk n Hor Hcr Hbr)
      as [[Hnin _]|(_ & r' & xs & it & ys & Heq & _ & _ & _ & Her & Her')].
    { destruct Hnin. unfold keys. rewrite Hel, fmap_cons.
      apply elem_of_cons; by left. }
    assert (xs = [] ∧ it = sv ∧ ys = rest) as (-> & -> & ->).
    { apply (ordered_head_split xs ys rest sk sv it).
      - unfold avl.ordered, keys in Hor. by rewrite Hel in Hor.
      - by rewrite <- Hel. }
    exists sk, sv, ml, mr, mh, ms, r'. repeat split; try done.
    + by rewrite Hel, Her'.
    + simpl delete_aux. rewrite ltb_irrefl.
      destruct l as [|lk lv ll lr lh ls]; [done|].
      destruct r as [|rk rv rl rr rh rs]; [done|].
      set (l := AVLTreeNode lk lv ll lr lh ls) in *.
      set (r := AVLTreeNode rk rv rl rr rh rs) in *.
      change (is_leaf (AVLTreeNode k v l r h s)) with false.
      change (is_None l) with false. change (is_None r) with false.
      cbv iota. unfold get_successor. by rewrite Hmin, Heq.
Qed.

(** C5.  A failing insertion or deletion changes nothing.  An insertion that
    raises [KeyError] leaves the tree and the count as they were, on any
    tree; so does a deletion that raises [ValueError] on a tree with
    ascending keys.  Inserting a key present in such a tree does raise
    [KeyError], and deleting a key absent from any tree does raise
    [ValueError]. *)
Theorem failure_changes_nothing :
  (∀ self key item self',
     setitem ltb self key item = (Raised KeyError, self') → self' = self) ∧
  (∀ self key self',
     ordered (root self) →
     delitem ltb self key = (Raised ValueError, self') → self' = self) ∧
  (∀ self key item,
     ordered (root self) → key ∈ keys (root self) →
     setitem ltb self key item = (Raised KeyError, self)) ∧
  (∀ self key,
     key ∉ keys (root self) →
     delitem ltb self key = (Raised ValueError, self)).
Proof.
  repeat split.
  - intros [t n] key item self'. unfold setitem. simpl.
    destruct (insert_aux ltb t key item n) as [[c t'] n'] eqn:E.
    intros [= -> <-]. by apply insert_aux_KeyError in E as [-> ->].
  - intros [t n] key self' Ho. unfold delitem. simpl in *.
    destruct (delete_aux ltb t key n) as [[c t'] n'] eqn:E.
    intros [= -> <-]. by apply delete_aux_ValueError in E as (-> & -> & _).
  - intros [t n] key item Ho Hin. unfold setitem. simpl in *.
    by rewrite insert_aux_present.
  - intros [t n] key Hnin. unfold delitem. simpl in *.
    by rewrite delete_aux_absent.
Qed.

(** C7.  On a tree with ascending keys that has a root, [get_max] returns
    an entry of the tree, the last of the in-order list, whose key no key of
    the tree exceeds; on a tree without a root it raises, the attribute
    access on [None] failing.  The tree is as it was in both cases. *)
Theorem get_max_spec self :
  ordered (root self) →
  (root self ≠ Nil →
   ∃ k v xs,
     get_max self = (Return (k, v), self) ∧
     elements (root self) = xs ++ [(k, v)] ∧
     (k, v) ∈ elements (root self) ∧
     ∀ k', k' ∈ keys (root self) → k' = k ∨ lt k' k) ∧
  (root self = Nil → get_max self = (Raise AttributeError, self)).
Proof.
  intros Ho. split.
  - intros Hne.
    destruct (get_max_loop_spec (root self) Ho Hne) as (k & v & xs & Hmax & Hel & Hall).
    exists k, v, xs. unfold get_max. rewrite Hmax, Hel. repeat split; try done.
    apply elem_of_app; right. apply elem_of_cons; by left.
  - intros Hnil. unfold get_max. by rewrite Hnil.
Qed.


(** C9.  A left rotation followed by a right rotation gives back the node
    it started from: the same keys, items and parent-child structure, with
    the cached fields of the two rotated nodes recomputed, hence the very
    same tree when those fields were right; and the other way round.  A
    rotation that applies keeps the in-order list, hence the key sequence,
    and the number of nodes, and leaves the two restructured nodes with
    recomputed fields. *)
Theorem rotations_inverse (t : tree K I) :
  (is_None (right_child t) = false → is_None t = false →
   ∃ m back,
     left_rotate t = (Returned, m) ∧ right_rotate m = (Returned, back) ∧
     structure back = structure t ∧
     (recomputed t → recomputed (right_child t) → back = t)) ∧
  (is_None (left_child t) = false → is_None t = false →
   ∃ m back,
     right_rotate t = (Returned, m) ∧ left_rotate m = (Returned, back) ∧
     structure back = structure t ∧
     (recomputed t → recomputed (left_child t) → back = t)) ∧
  (∀ t', left_rotate t = (Returned, t') →
     elements t' = elements t ∧ keys t' = keys t ∧ cardinal t' = cardinal t ∧
     recomputed t' ∧ recomputed (left_child t') ∧
     left_child (left_child t') = left_child t ∧
     right_child (left_child t') = left_child (right_child t) ∧
     right_child t' = right_child (right_child t)) ∧
  (∀ t', right_rotate t = (Returned, t') →
     elements t' = elements t ∧ keys t' = keys t ∧ cardinal t' = cardinal t ∧
     recomputed t' ∧ recomputed (right_child t') ∧
     right_child (right_child t') = right_child t ∧
     left_child (right_child t') = right_child (left_child t) ∧
     left_child t' = left_child (left_child t)).
Proof.
  split; [|split; [|split]].
  - destruct t as [|k v l [|ck cv center cr ch cs] h s]; try done. intros _ _.
    eexists _, _. repeat split; simpl.
    intros [-> ->] [-> ->]. done.
  - destruct t as [|k v [|ck cv cl center ch cs] r h s]; try done. intros _ _.
    eexists _, _. repeat split; simpl.
    intros [-> ->] [-> ->]. done.
  - intros t' Hrot. split; [by apply left_rotate_elements|].
    split; [unfold keys; by rewrite (left_rotate_elements t t')|].
    split; [by apply left_rotate_cardinal|].
    apply left_rotate_Returned in Hrot as (?&?&?&?&?&?&?&?&?&?&?& -> & ->).
    done.
  - intros t' Hrot. split; [by apply right_rotate_elements|].
    split; [unfold keys; by rewrite (right_rotate_elements t t')|].
    split; [by apply right_rotate_cardinal|].
    apply right_rotate_Returned in Hrot as (?&?&?&?&?&?&?&?&?&?&?& -> & ->).
    done.
Qed.


(** ** Further facts: height, size accounting, round trips, ranks *)

Lemma avl_height_bound t :
  cached t → balanced t → 2 ^ (get_height t / 2) <= cardinal t + 1.
Proof.
  induction t as [|k v l IHl r IHr h s]; [intros _ _; by vm_compute|].
  intros Hc (Hd & Hbl & Hbr). pose proof Hc as (Hh & _ & Hcl & Hcr).
  specialize (IHl Hcl Hbl). specialize (IHr Hcr Hbr).
  pose proof (cached_height_nonneg l Hcl) as Hl0.
  pose proof (cached_height_nonneg r Hcr) as Hr0.
  simpl get_height. simpl cardinal. subst h.
  set (m := Z.min (get_height l) (get_height r)).
  assert (2 ^ ((1 + Z.max (get_height l) (get_height r)) / 2) <= 2 * 2 ^ (m / 2))
    as Htop.
  { rewrite <- Z.pow_succ_r by (apply Z.div_pos; lia).
    apply Z.pow_le_mono_r; [lia|].
    assert ((1 + Z.max (get_height l) (get_height r)) / 2 <= (m + 2) / 2)
      by (apply Z.div_le_mono; lia).
    replace ((m + 2) / 2) with (m / 2 + 1) in *; [lia|].
    replace (m + 2) with (m + 1 * 2) by lia. by rewrite Z.div_add by lia. }
  assert (2 ^ (m / 2) <= 2 ^ (get_height l / 2)) as Hml.
  { apply Z.pow_le_mono_r; [lia|]. apply Z.div_le_mono; lia. }
  assert (2 ^ (m / 2) <= 2 ^ (get_height r / 2)) as Hmr.
  { apply Z.pow_le_mono_r; [lia|]. apply Z.div_le_mono; lia. }
  lia.
Qed.

(** After any sequence of insertions and deletions that all succeed, the
    height of the tree, by its recursive definition, is logarithmic in the
    count: [2 ^ (height / 2) <= count + 1]. *)
Theorem height_is_logarithmic ops self :
  run ltb empty ops = Some self →
  get_height (root self) = depth (root self) ∧
  2 ^ (depth (root self) / 2) <= length self + 1.
Proof.
  intros Hrun.
  destruct (run_invariant ops empty self invariant_empty Hrun)
    as (Hb & Hc & _ & Hn & _).
  split; [by apply cached_depth|].
  rewrite <- cached_depth, Hn by done. by apply avl_height_bound.
Qed.

Lemma apply_op_length self o self' :
  invariant ltb self → apply_op ltb self o = (Returned, self') →
  length self' = length self + insertions [o] - deletions [o].
Proof.
  intros Hinv. pose proof Hinv as (Hb & Hc & Ho & Hn).
  destruct o as [key item|key]; simpl.
  - unfold setitem at 1.
    destruct (insert_aux_spec (root self) key item (length self) Ho Hc Hb)
      as [[_ Heq]|(_ & t' & xs & ys & Heq & _)]; rewrite Heq; [done|].
    intros [= <-]. simpl. lia.
  - unfold delitem at 1.
    destruct (delete_aux_spec (root self) key (length self) Ho Hc Hb)
      as [[_ Heq]|(_ & t' & xs & it & ys & Heq & _)]; rewrite Heq; [done|].
    intros [= <-]. simpl. lia.
Qed.

Lemma run_length ops self self' :
  invariant ltb self → run ltb self ops = Some self' →
  length self' = length self + insertions ops - deletions ops.
Proof.
  revert self. induction ops as [|o ops IH]; intros self Hinv; simpl run.
  - intros [= <-]. simpl. lia.
  - destruct (apply_op ltb self o) as [[|e] self1] eqn:E; [|done].
    intros Hrun. rewrite (IH self1 (apply_op_invariant self o self1 Hinv E) Hrun).
    rewrite (apply_op_length self o self1 Hinv E).
    destruct o; simpl; lia.
Qed.

(** After a sequence of operations that all succeed, started from the empty
    tree, the count is the number of insertions minus the number of
    deletions, and it is the number of entries of the tree. *)
Theorem length_counts_operations ops self :
  run ltb empty ops = Some self →
  length self = insertions ops - deletions ops ∧
  length self = Z.of_nat (List.length (elements (root self))).
Proof.
  intros Hrun. split.
  - by rewrite (run_length ops empty self invariant_empty Hrun).
  - destruct (run_invariant ops empty self invariant_empty Hrun)
      as (_ & _ & _ & Hn & _).
    by rewrite Hn, cardinal_elements.
Qed.

Lemma ordered_split_unique (xs ys xs' ys' : list (K * I)) k v v' :
  StronglySorted lt (xs ++ (k, v) :: ys).*1 →
  xs ++ (k, v) :: ys = xs' ++ (k, v') :: ys' →
  xs = xs' ∧ v = v' ∧ ys = ys'.
Proof.
  revert xs'. induction xs as [|p xs IH]; intros xs' Hs Heq.
  - simpl in *. destruct (ordered_head_split xs' ys' ys k v v' Hs Heq)
      as (-> & -> & ->). done.
  - destruct xs' as [|p' xs']; simpl in Heq.
    + injection Heq as -> Heq. exfalso.
      simpl in Hs. rewrite ?fmap_cons, StronglySorted_cons, Forall_forall in Hs.
      destruct Hs as [Hs _]. apply (lt_neq k k); [|done]. apply Hs.
      rewrite fmap_app, fmap_cons. apply elem_of_app; right.
      apply elem_of_cons; by left.
    + injection Heq as <- Heq.
      simpl in Hs. rewrite ?fmap_cons, StronglySorted_cons in Hs.
      destruct Hs as [_ Hs].
      destruct (IH xs' Hs Heq) as (-> & -> & ->). done.
Qed.

(** On a tree whose invariants hold, inserting an absent key and then
    deleting it gives back the same entries in the same order and the same
    count, and the invariants hold again; the shape of the tree may have
    changed. *)
Theorem delete_undoes_insert self key item :
  invariant ltb self → (key ∉ keys (root self)) →
  ∃ self1 self2,
    setitem ltb self key item = (Returned, self1) ∧
    delitem ltb self1 key = (Returned, self2) ∧
    elements (root self2) = elements (root self) ∧
    length self2 = length self ∧ invariant ltb self2.
Proof.
  intros Hinv Hnin.
  destruct (setitem_returned self key item Hinv Hnin)
    as (self1 & xs & ys & Hset & Hinv1 & Hlen1 & Hel & Hel1).
  assert (key ∈ keys (root self1)) as Hin.
  { unfold keys. rewrite Hel1, fmap_app, fmap_cons.
    apply elem_of_app; right. apply elem_of_cons; by left. }
  destruct (delitem_returned self1 key Hinv1 Hin)
    as (self2 & xs' & it & ys' & Hdel & Hinv2 & Hlen2 & Hel1' & Hel2).
  exists self1, self2. split; [done|]. split; [done|].
  split; [|split; [lia|done]].
  destruct Hinv1 as (_ & _ & Ho1 & _). unfold avl.ordered, keys in Ho1.
  rewrite Hel1 in Ho1, Hel1'.
  destruct (ordered_split_unique xs ys xs' ys' key item it Ho1 Hel1')
    as (-> & _ & ->).
  by rewrite Hel, Hel2.
Qed.


Lemma range_between_window self i j :
  cached (root self) → length self = cardinal (root self) →
  range_between self i j = (Return (window i j (values (root self))), self).
Proof.
  intros Hc Hn. unfold range_between. rewrite range_between_aux_spec by done.
  rewrite <- Hn, app_nil_l. do 3 f_equal; lia.
Qed.

Lemma window_split {A} lo m hi (xs : list A) :
  lo <= m + 1 → m <= hi →
  window lo hi xs = window lo m xs ++ window (m + 1) hi xs.
Proof.
  revert lo m hi. induction xs as [|x xs IH]; intros lo m hi Hlo Hhi; [done|].
  simpl. rewrite (IH (lo - 1) (m - 1) (hi - 1)) by lia.
  replace (m + 1 - 1) with (m - 1 + 1) by lia.
  destruct (Z.leb_spec lo 0), (Z.leb_spec 0 hi), (Z.leb_spec 0 m),
    (Z.leb_spec (m + 1) 0); simpl; try lia; try done.
  rewrite (window_nil_hi (lo - 1) (m - 1)) by lia. done.
Qed.

(** On a tree whose invariants hold, two adjacent rank windows put end to
    end are the window that covers both. *)
Theorem range_between_adjacent self i m j :
  invariant ltb self → i <= m + 1 → m <= j →
  ∃ first second,
    range_between self i m = (Return first, self) ∧
    range_between self (m + 1) j = (Return second, self) ∧
    range_between self i j = (Return (first ++ second), self).
Proof.
  intros (_ & Hc & _ & Hn & _) Him Hmj.
  eexists _, _. rewrite !range_between_window by done.
  repeat split. by rewrite (window_split i m j).
Qed.

(** On a tree whose invariants hold, a valid window [0 <= i <= j < count]
    yields exactly [j - i + 1] items, so never the empty list. *)
Theorem range_between_length self i j :
  invariant ltb self → 0 <= i ∧ i <= j ∧ j < length self →
  ∃ items,
    range_between self i j = (Return items, self) ∧
    Z.of_nat (List.length items) = j - i + 1 ∧ items ≠ [].
Proof.
  intros (_ & Hc & _ & Hn & _) Hij.
  eexists. rewrite range_between_window by done. split; [done|].
  assert (Z.of_nat (List.length (window i j (values (root self)))) = j - i + 1)
    as Hlen.
  { rewrite window_slice, length_take, length_drop by lia.
    pose proof (values_length (root self)). lia. }
  split; [done|]. intros Hnil. rewrite Hnil in Hlen. simpl in Hlen. lia.
Qed.

(** On a tree whose invariants hold and that has a root, [get_max] returns
    the entry whose item is the one of the last rank: the window from
    [count - 1] to [count - 1] holds that item alone. *)
Theorem get_max_is_last_rank self :
  invariant ltb self → root self ≠ Nil →
  ∃ k v,
    get_max self = (Return (k, v), self) ∧
    range_between self (length self - 1) (length self - 1) =
      (Return [v], self).
Proof.
  intros (_ & Hc & Ho & Hn & _) Hne.
  destruct (get_max_loop_spec (root self) Ho Hne) as (k & v & xs & Hmax & Hel & _).
  exists k, v. unfold get_max. rewrite Hmax. split; [done|].
  rewrite range_between_window, window_clamped by done.
  assert (length self = Z.of_nat (List.length xs) + 1) as Hlen.
  { rewrite Hn, cardinal_elements, Hel, length_app. simpl. lia. }
  unfold values. rewrite Hel, fmap_app. simpl.
  replace (Z.to_nat (length self - 1)) with (List.length (xs.*2))
    by (rewrite length_fmap; lia).
  rewrite drop_app_length.
  replace (Z.to_nat (length self - 1 + 1 - Z.max 0 (length self - 1)))
    with 1%nat by lia.
  done.
Qed.


(** The step of the mining loops of the game: on a tree whose invariants
    hold and whose count is positive, [get_max] returns, deleting the key it
    returned succeeds, removes the last entry of the in-order list and no
    other, takes one from the count and keeps the invariants. *)
Theorem get_max_then_delete self :
  invariant ltb self → 0 < length self →
  ∃ k v self',
    get_max self = (Return (k, v), self) ∧
    delitem ltb self k = (Returned, self') ∧
    elements (root self) = elements (root self') ++ [(k, v)] ∧
    length self' = length self - 1 ∧ invariant ltb self'.
Proof.
  intros Hinv Hpos. pose proof Hinv as (_ & _ & Ho & Hn & _).
  assert (root self ≠ Nil) as Hne.
  { intros Hnil. rewrite Hnil in Hn. simpl in Hn. lia. }
  destruct (get_max_loop_spec (root self) Ho Hne) as (k & v & xs & Hmax & Hel & _).
  assert (k ∈ keys (root self)) as Hin.
  { unfold keys. rewrite Hel, fmap_app. apply elem_of_app; right.
    apply elem_of_cons; by left. }
  destruct (delitem_returned self k Hinv Hin)
    as (self' & xs' & it & ys' & Hdel & Hinv' & Hlen & Hel1 & Hel').
  exists k, v, self'. unfold get_max. rewrite Hmax.
  do 2 (split; [done|]). split; [|by split].
  unfold avl.ordered, keys in Ho. rewrite Hel in Ho. rewrite Hel in Hel1.
  destruct (ordered_split_unique xs [] xs' ys' k v it Ho Hel1) as (<- & _ & <-).
  by rewrite Hel, Hel', app_nil_r.
Qed.


End avl_facts.

(** * The AVL tree on integer keys *)

Section avl_examples.

Import avl samples.

Lemma Zltb_trans (a b c : Z) :
  (a <? b) = true → (b <? c) = true → (a <? c) = true.
Proof. rewrite !Z.ltb_lt. lia. Qed.

Lemma Zltb_total (a b : Z) : (a <? b) = false → (b <? a) = false → a = b.
Proof. rewrite !Z.ltb_ge. lia. Qed.

Local Ltac solve_invariant :=
  repeat split; simpl; try lia; try done;
  unfold avl.ordered, keys; simpl; repeat constructor.

(** C8.  Keys 1, 2, 3 inserted in that order into the empty tree, with any
    items, leave key 2 at the root with height 2, key 1 as its left child
    and key 3 as its right child; keys 3, 1, 2 in that order leave the same
    tree. *)
Theorem insert_three_keys (I : Type) (v1 v2 v3 : I) :
  run Z.ltb empty [Insert 1 v1; Insert 2 v2; Insert 3 v3] =
    Some (mkAVLTree
            (AVLTreeNode 2 v2 (AVLTreeNode 1 v1 Nil Nil 1 1)
                              (AVLTreeNode 3 v3 Nil Nil 1 1) 2 3) 3) ∧
  run Z.ltb empty [Insert 3 v3; Insert 1 v1; Insert 2 v2] =
    Some (mkAVLTree
            (AVLTreeNode 2 v2 (AVLTreeNode 1 v1 Nil Nil 1 1)
                              (AVLTreeNode 3 v3 Nil Nil 1 1) 2 3) 3).
Proof. split; reflexivity. Qed.

Lemma invariants_after_operations_witness :
  run Z.ltb empty sample_ops = Some sample ∧
  balanced (root sample) ∧ cached (root sample) ∧
  StronglySorted (avl.lt Z.ltb) (keys (root sample)) ∧
  length sample = cardinal (root sample) ∧
  (root sample ≠ Nil → length sample = get_tree_size (root sample)).
Proof.
  split; [reflexivity|].
  apply (invariants_after_operations Z.ltb Z.ltb_irrefl Zltb_trans Zltb_total
           sample_ops sample).
  reflexivity.
Defined.

Lemma range_between_is_slice_witness :
  invariant Z.ltb sample ∧ (0 <= 1 ∧ 1 <= 3 ∧ 3 < length sample) ∧
  range_between sample 1 3 = (Return [40; 50; 70], sample).
Proof.
  assert (invariant Z.ltb sample) as Hinv by solve_invariant.
  assert (0 <= 1 ∧ 1 <= 3 ∧ 3 < length sample) as Hij by (simpl; lia).
  split; [exact Hinv|]. split; [exact Hij|].
  exact (proj2 (proj2 (range_between_is_slice Z.ltb sample 1 3 Hinv Hij))).
Defined.

(** C6, as the specification states it, fails: with [i > j] the call
    returns the empty list, and with [i < 0] or [j] beyond the count it
    returns the part of the window that exists. *)
Lemma range_between_raises_nothing :
  invariant Z.ltb sample ∧ length sample = 6 ∧
  range_between sample 4 2 = (Return [], sample) ∧
  range_between sample (-2) 1 = (Return [10; 40], sample) ∧
  range_between sample 4 9 = (Return [80; 90], sample) ∧
  ¬ (∃ e, range_between sample 4 2 = (Raise e, sample)).
Proof.
  split; [solve_invariant|].
  repeat split. intros [e He]. discriminate He.
Qed.

Lemma range_between_unchecked_witness :
  invariant Z.ltb sample ∧
  range_between sample (-2) 1 = (Return [10; 40], sample) ∧
  range_between sample 4 2 = (Return [], sample).
Proof.
  assert (invariant Z.ltb sample) as Hinv by solve_invariant.
  split; [exact Hinv|]. split.
  - exact (proj1 (range_between_unchecked Z.ltb sample (-2) 1 Hinv)).
  - apply (proj2 (range_between_unchecked Z.ltb sample 4 2 Hinv)). lia.
Defined.

Lemma setitem_spec_witness :
  invariant Z.ltb sample ∧
  setitem Z.ltb sample 8 0 = (Raised KeyError, sample) ∧
  ∃ self',
    setitem Z.ltb sample 6 60 = (Returned, self') ∧
    length self' = length sample + 1 ∧
    getitem Z.ltb self' 6 = Return 60 ∧
    ∀ k' v', (k', v') ∈ elements (root sample) →
             (k', v') ∈ elements (root self') ∧
             getitem Z.ltb self' k' = Return v'.
Proof.
  assert (invariant Z.ltb sample) as Hinv by solve_invariant.
  destruct (setitem_spec Z.ltb Z.ltb_irrefl Zltb_trans Zltb_total sample 8 0 Hinv)
    as [Hpresent _].
  destruct (setitem_spec Z.ltb Z.ltb_irrefl Zltb_trans Zltb_total sample 6 60 Hinv)
    as [_ Habsent].
  split; [exact Hinv|]. split.
  - apply Hpresent. apply list_elem_of_In. simpl. tauto.
  - apply Habsent. rewrite list_elem_of_In. simpl. lia.
Defined.

Lemma delitem_spec_witness :
  invariant Z.ltb sample ∧
  delitem Z.ltb sample 6 = (Raised ValueError, sample) ∧
  (∃ self' xs item ys,
     delitem Z.ltb sample 5 = (Returned, self') ∧
     length self' = length sample - 1 ∧
     elements (root sample) = xs ++ (5, item) :: ys ∧
     elements (root self') = xs ++ ys ∧
     5 ∉ keys (root self')) ∧
  ∃ sk sv ml mr mh ms r',
    get_successor (root sample) = AVLTreeNode sk sv ml mr mh ms ∧
    get_minimal (right_child (root sample)) = AVLTreeNode sk sv ml mr mh ms ∧
    delete_aux Z.ltb (right_child (root sample)) sk 6 = (Returned, r', 6 - 1) ∧
    elements (right_child (root sample)) = (sk, sv) :: elements r' ∧
    delete_aux Z.ltb (root sample) 5 6 =
      finish (AVLTreeNode sk sv (left_child (root sample)) r' 3 6) (6 - 1).
Proof.
  assert (invariant Z.ltb sample) as Hinv by solve_invariant.
  destruct (delitem_spec Z.ltb Z.ltb_irrefl Zltb_trans Zltb_total sample 6 Hinv)
    as (Habsent & _ & _).
  destruct (delitem_spec Z.ltb Z.ltb_irrefl Zltb_trans Zltb_total sample 5 Hinv)
    as (_ & Hpresent & Htwo).
  split; [exact Hinv|]. split; [|split].
  - apply Habsent. rewrite list_elem_of_In. simpl. lia.
  - apply Hpresent. apply list_elem_of_In. simpl. tauto.
  - destruct Hinv as (Hb & Hc & Ho & _).
    apply (Htwo 5 50 _ _ 3 6 6 Ho Hc Hb); discriminate.
Defined.

Lemma failure_changes_nothing_witness :
  setitem Z.ltb sample 8 0 = (Raised KeyError, sample) ∧
  delitem Z.ltb sample 6 = (Raised ValueError, sample).
Proof.
  destruct (failure_changes_nothing (I := Z) Z.ltb Z.ltb_irrefl Zltb_trans Zltb_total)
    as (_ & _ & Hins & Hdel).
  split.
  - apply Hins; [solve_invariant|]. apply list_elem_of_In. simpl. tauto.
  - apply Hdel. rewrite list_elem_of_In. simpl. lia.
Defined.

Lemma get_max_spec_witness :
  avl.ordered Z.ltb (root sample) ∧ root sample ≠ Nil ∧
  (∃ k v xs,
     get_max sample = (Return (k, v), sample) ∧
     elements (root sample) = xs ++ [(k, v)] ∧
     (k, v) ∈ elements (root sample) ∧
     ∀ k', k' ∈ keys (root sample) → k' = k ∨ avl.lt Z.ltb k' k) ∧
  get_max (empty : AVLTree Z Z) = (Raise AttributeError, empty).
Proof.
  assert (avl.ordered Z.ltb (root sample)) as Ho by solve_invariant.
  assert (avl.ordered Z.ltb (root (empty : AVLTree Z Z))) as Ho' by solve_invariant.
  assert (root sample ≠ Nil) as Hne by discriminate.
  split; [exact Ho|]. split; [exact Hne|]. split.
  - exact (proj1 (get_max_spec Z.ltb Zltb_trans sample Ho) Hne).
  - apply (proj2 (get_max_spec Z.ltb Zltb_trans empty Ho')). reflexivity.
Defined.

Lemma rotations_inverse_witness :
  (∃ m back,
     left_rotate chain = (Returned, m) ∧ right_rotate m = (Returned, back) ∧
     structure back = structure chain ∧ back = chain) ∧
  elements (left_rotate chain).2 = elements chain.
Proof.
  destruct (rotations_inverse chain) as (Hlr & _ & Hleft & _).
  split.
  - destruct Hlr as (m & back & Hl & Hr & Hs & Hsame); [reflexivity..|].
    exists m, back. repeat split; try done. apply Hsame; by split.
  - by apply (Hleft (left_rotate chain).2).
Defined.

End avl_examples.

(** * The linear-probing table: facts *)

Section hash_table_facts.

Import hash_table.

Context {T : Type}.

Implicit Types (self : LinearProbeTable T) (key : string) (data : T).
Implicit Types (position : Z) (slot : option (string * T)).

Lemma note_chain_fields self c :
  table (note_chain self c) = table self ∧
  count (note_chain self c) = count self ∧
  tablesize (note_chain self c) = tablesize self.
Proof. unfold note_chain. by destruct (probe_max self <? c). Qed.

(** A probe that returns has changed the statistics only, and stands on an
    empty slot, when inserting, or on a slot that holds the key. *)
Lemma probe_loop_Return fuel self key is_insert position chain p self' :
  probe_loop fuel self key is_insert position chain = (Return p, self') →
  table self' = table self ∧ count self' = count self ∧
  tablesize self' = tablesize self ∧
  ∃ slot, table self !! Z.to_nat p = Some slot ∧
          (slot = None ∧ is_insert = true ∨ ∃ old, slot = Some (key, old)).
Proof.
  revert self position chain.
  induction fuel as [|fuel IH]; intros self position chain; simpl; [done|].
  destruct (table self !! Z.to_nat position) as [[[k old]|]|] eqn:Hslot; [| |done].
  - destruct (String.eqb_spec k key) as [->|Hne].
    + intros [= <- <-]. destruct (note_chain_fields self chain) as (-> & -> & ->).
      repeat split. exists (Some (key, old)). split; [done|]. right. by exists old.
    + intros H. apply IH in H as (Ht & Hc & Hs & Hex). by simpl in *.
  - destruct is_insert; [|done].
    intros [= <- <-]. destruct (note_chain_fields self chain) as (-> & -> & ->).
    repeat split. exists None. split; [done|]. by left.
Qed.

(** A lookup probe that returns is retraced by the insertion probe. *)
Lemma probe_loop_found fuel self key position chain p self' :
  probe_loop fuel self key false position chain = (Return p, self') →
  probe_loop fuel self key true position chain = (Return p, self').
Proof.
  revert self position chain.
  induction fuel as [|fuel IH]; intros self position chain; simpl; [done|].
  destruct (table self !! Z.to_nat position) as [[[k old]|]|]; try done.
  destruct (String.eqb k key); [done|]. apply IH.
Qed.

Lemma linear_probe_Return self key is_insert p self' :
  linear_probe self key is_insert = (Return p, self') →
  table self' = table self ∧ count self' = count self ∧
  tablesize self' = tablesize self ∧
  ∃ slot, table self !! Z.to_nat p = Some slot ∧
          (slot = None ∧ is_insert = true ∨ ∃ old, slot = Some (key, old)).
Proof.
  unfold linear_probe. destruct (hash self key) as [position|e]; [|done].
  destruct (is_insert && is_full self); [done|]. apply probe_loop_Return.
Qed.

Lemma store_spec self position key data slot :
  table self !! Z.to_nat position = Some slot →
  ∃ self',
    store self position key data = (Returned, self') ∧
    table self' = <[Z.to_nat position := Some (key, data)]> (table self) ∧
    tablesize self' = tablesize self ∧
    count self' = match slot with
                  | None => count self + 1
                  | Some _ => count self
                  end.
Proof.
  intros Hslot. unfold store. rewrite Hslot. eexists. split; [done|].
  by destruct slot.
Qed.

(** When [__setitem__] does not rehash, that is when the count is at most
    half the table size: setting a key that [__getitem__] finds returns,
    stores the new data in the slot that held the key, keeps the count and
    leaves every other slot as it was; and whenever the call returns, one
    slot has been written, every other slot is as it was, and the count has
    grown by one when that slot was empty and is unchanged when it held the
    key. *)
Theorem setitem_without_rehash depth self key data :
  tablesize self = len self → 2 * count self <= tablesize self →
  (∀ old self1,
     getitem self key = (Return old, self1) →
     ∃ position self',
       setitem (S depth) self key data = (Returned, self') ∧
       table self !! Z.to_nat position = Some (Some (key, old)) ∧
       table self' = <[Z.to_nat position := Some (key, data)]> (table self) ∧
       count self' = count self ∧
       ∀ i, i ≠ Z.to_nat position → table self' !! i = table self !! i) ∧
  (∀ self',
     setitem (S depth) self key data = (Returned, self') →
     ∃ position slot,
       table self !! Z.to_nat position = Some slot ∧
       table self' = <[Z.to_nat position := Some (key, data)]> (table self) ∧
       (∀ i, i ≠ Z.to_nat position → table self' !! i = table self !! i) ∧
       (slot = None → count self' = count self + 1) ∧
       (slot ≠ None →
        count self' = count self ∧ ∃ old, slot = Some (key, old))).
Proof.
  intros Hsize Hhalf.
  assert ((tablesize self <? 2 * count self) = false) as Hno by (apply Z.ltb_ge; lia).
  split.
  - intros old0 self1. unfold getitem.
    destruct (linear_probe self key false) as [[position|e] self0] eqn:Hfound;
      [|done].
    pose proof (linear_probe_Return _ _ _ _ _ Hfound)
      as (Ht & Hc & Hs & slot & Hslot & [[_ [=]]|[old ->]]).
    rewrite Ht, Hslot. intros [= -> ->].
    assert (linear_probe self key true = (Return position, self1)) as Hins.
    { unfold linear_probe in *. destruct (hash self key) as [start|e]; [|done].
      simpl in Hfound. apply probe_loop_found in Hfound.
      assert (is_full self = false) as ->; [|done].
      unfold is_full. apply Z.eqb_neq. intros Hfull.
      unfold len in *. destruct (table self); [done|]. simpl in *. lia. }
    destruct (store_spec self1 position key data (Some (key, old0)))
      as (self' & Hstore & Ht' & _ & Hc'); [by rewrite Ht|].
    exists position, self'. simpl setitem. rewrite Hno, Hins, Hstore.
    rewrite Ht', Ht, Hc', Hc. repeat split; try done.
    intros i Hi. by rewrite list_lookup_insert_ne.
  - intros self'. simpl setitem. rewrite Hno.
    destruct (linear_probe self key true) as [[position|e] self1] eqn:Hprobe; [|done].
    pose proof (linear_probe_Return _ _ _ _ _ Hprobe)
      as (Ht & Hc & Hs & slot & Hslot & Hkind).
    destruct (store_spec self1 position key data slot)
      as (self2 & Hstore & Ht' & _ & Hc'); [by rewrite Ht|].
    rewrite Hstore. intros [= <-]. exists position, slot.
    rewrite Ht', Ht, Hc', Hc. repeat split; try done.
    + intros i Hi. by rewrite list_lookup_insert_ne.
    + by intros ->.
    + destruct slot; done.
    + destruct Hkind as [[-> _]|[old ->]]; [done|]. by exists old.
Qed.

End hash_table_facts.

(** * The linear-probing table on concrete tables *)

Section hash_table_examples.

Import hash_table samples.

(** C10, as stated, fails when [__setitem__] rehashes.  [two_keys] is what
    [LinearProbeTable(1, 3)] holds after ["a"] and ["b"] have been set; key
    ["a"] is found in slot 1.  Setting ["a"] again finds the count above
    half the size and rebuilds the table with five slots: slot 2, which is
    not the slot of ["a"] and held [("b", 2)], holds [("a", 5)] afterwards,
    and slot 1 is empty. *)
Lemma setitem_rehash_moves_slots :
  (init 1 3 = Return fresh_table ∧
   ∃ one, setitem 1 fresh_table "a" 1 = (Returned, one) ∧
          setitem 1 one "b" 2 = (Returned, two_keys)) ∧
  linear_probe two_keys "a" false = (Return 1, two_keys) ∧
  setitem 2 two_keys "a" 5 = (Returned, two_keys_rehashed) ∧
  table two_keys !! 2%nat = Some (Some ("b", 2)) ∧
  table two_keys_rehashed !! 2%nat = Some (Some ("a", 5)) ∧
  table two_keys_rehashed !! 1%nat = Some None ∧
  table two_keys_rehashed ≠ <[1%nat := Some ("a", 5)]> (table two_keys).
Proof.
  split; [split; [reflexivity|eexists; split; reflexivity]|].
  repeat split. discriminate.
Qed.

Lemma setitem_without_rehash_witness :
  tablesize roomy = len roomy ∧ 2 * count roomy <= tablesize roomy ∧
  getitem roomy "a" = (Return 1, roomy) ∧
  ∃ position self',
    setitem 1 roomy "a" 5 = (Returned, self') ∧
    table roomy !! Z.to_nat position = Some (Some ("a", 1)) ∧
    table self' = <[Z.to_nat position := Some ("a", 5)]> (table roomy) ∧
    count self' = count roomy ∧
    ∀ i, i ≠ Z.to_nat position → table self' !! i = table roomy !! i.
Proof.
  assert (tablesize roomy = len roomy) as Hsize by reflexivity.
  assert (2 * count roomy <= tablesize roomy) as Hhalf by (simpl; lia).
  assert (getitem roomy "a" = (Return 1, roomy)) as Hget by reflexivity.
  split; [exact Hsize|]. split; [exact Hhalf|]. split; [exact Hget|].
  exact (proj1 (setitem_without_rehash 0 roomy "a" 5 Hsize Hhalf) 1 roomy Hget).
Defined.

End hash_table_examples.

(** * The linear-probing table: hashing, consistency and round trips *)

Section hash_table_more.

Import hash_table.

Context {T : Type}.

Implicit Types (self : LinearProbeTable T) (key : string) (data : T).
Implicit Types (t : list (option (string * T))).

(** ** Hashing *)

Lemma hash_loop_bounds key value a size :
  2 <= size → 0 <= value < size →
  ∃ h, hash_loop key value a size = Return h ∧ 0 <= h < size.
Proof.
  intros Hsize. revert value a.
  induction key as [|char key IH]; intros value a Hvalue; simpl.
  - by exists value.
  - destruct (Z.eqb_spec size 0); [lia|].
    destruct (Z.eqb_spec (size - 1) 0); [lia|].
    apply IH. apply Z.mod_pos_bound. lia.
Qed.

(** In a table with at least two slots, [hash] returns a position of the
    array, whatever the key. *)
Theorem hash_in_range self key :
  2 <= len self → ∃ h, hash self key = Return h ∧ 0 <= h < len self.
Proof. intros Hlen. apply hash_loop_bounds; lia. Qed.

(** In a table with a single slot, [hash] divides by zero on every key that
    is not empty, and so does the first [__setitem__] on the table that
    [LinearProbeTable(expected_size, 1)] builds, which stays as it was. *)
Theorem one_slot_table_divides_by_zero expected char key data depth :
  ∃ self,
    init expected 1 = Return self ∧
    hash self (String char key) = Raise ZeroDivisionError ∧
    setitem (S depth) self (String char key) data =
      (Raised ZeroDivisionError, self).
Proof. eexists. split; [reflexivity|]. split; reflexivity. Qed.

(** ** What a probe leaves alone *)

Lemma probe_loop_fields fuel self key is_insert position chain :
  let self' := (probe_loop fuel self key is_insert position chain).2 in
  table self' = table self ∧ count self' = count self ∧
  tablesize self' = tablesize self ∧
  expected_size self' = expected_size self ∧
  conflict_count self' = conflict_count self ∧
  rehash_count self' = rehash_count self ∧
  probe_total self <= probe_total self'.
Proof.
  revert self position chain.
  induction fuel as [|fuel IH]; intros self position chain; simpl.
  - repeat split; lia.
  - destruct (table self !! Z.to_nat position) as [[[k old]|]|]; simpl.
    + destruct (String.eqb k key); simpl.
      * unfold note_chain. destruct (probe_max self <? chain); simpl;
          repeat split; lia.
      * specialize (IH (set_probe_total self (probe_total self + 1))
                       ((position + 1) mod len self) (chain + 1)).
        simpl in IH. destruct IH as (-> & -> & -> & -> & -> & -> & Hp).
        repeat split. lia.
    + destruct is_insert; simpl; [|repeat split; lia].
      unfold note_chain. destruct (probe_max self <? chain); simpl;
        repeat split; lia.
    + repeat split; lia.
Qed.

Lemma linear_probe_fields self key is_insert :
  let self' := (linear_probe self key is_insert).2 in
  table self' = table self ∧ count self' = count self ∧
  tablesize self' = tablesize self ∧
  expected_size self' = expected_size self ∧
  conflict_count self' = conflict_count self ∧
  rehash_count self' = rehash_count self ∧
  probe_total self <= probe_total self'.
Proof.
  unfold linear_probe. destruct (hash self key) as [position|e]; simpl.
  - destruct (is_insert && is_full self); simpl; [repeat split; lia|].
    apply probe_loop_fields.
  - repeat split; lia.
Qed.

(** [__getitem__] and [__contains__] change nothing but the two probe
    statistics: the array, the count, the size and the other counters are
    as they were, and [probe_total] does not decrease. *)
Theorem lookup_changes_statistics_only self key :
  (let self' := (getitem self key).2 in
   table self' = table self ∧ count self' = count self ∧
   tablesize self' = tablesize self ∧
   expected_size self' = expected_size self ∧
   conflict_count self' = conflict_count self ∧
   rehash_count self' = rehash_count self ∧
   probe_total self <= probe_total self') ∧
  (contains self key).2 = (getitem self key).2.
Proof.
  split.
  - pose proof (linear_probe_fields self key false) as H. unfold getitem.
    destruct (linear_probe self key false) as [[position|e] self1]; simpl in *;
      [|done].
    by destruct (table self1 !! Z.to_nat position) as [[[k data]|]|].
  - unfold contains. destruct (getitem self key) as [[data|e] self1]; [done|].
    by destruct e.
Qed.

(** A lookup that returns found its key in a slot and returns the data of
    that slot; [__contains__] answers [True] exactly then, and [False]
    exactly when the lookup raises [KeyError]. *)
Theorem getitem_returns_stored_data self key :
  (∀ data self', getitem self key = (Return data, self') →
                 Some (key, data) ∈ table self ∧ key ∈ keys self) ∧
  (∀ self', (contains self key = (Return true, self') ↔
             ∃ data, getitem self key = (Return data, self')) ∧
            (contains self key = (Return false, self') ↔
             getitem self key = (Raise KeyError, self'))).
Proof.
  split.
  - intros data self'. unfold getitem.
    destruct (linear_probe self key false) as [[position|e] self1] eqn:Hprobe;
      [|done].
    apply linear_probe_Return in Hprobe
      as (Ht & _ & _ & slot & Hslot & [[_ [=]]|[old ->]]).
    rewrite Ht, Hslot. intros [= <- <-].
    assert (Some (key, old) ∈ table self) as Hin
      by (apply list_elem_of_lookup; eauto).
    split; [done|]. unfold keys. clear -Hin.
    induction (table self) as [|[[k v]|] t IH]; simpl.
    + by apply elem_of_nil in Hin.
    + apply elem_of_cons in Hin as [[= -> ->]|Hin]; [left|right; auto].
    + apply elem_of_cons in Hin as [[=]|Hin]; auto.
  - intros self'. unfold contains.
    destruct (getitem self key) as [[data|e] self1].
    + split; split; try done.
      * intros [= <-]. by exists data.
      * by intros [data' [= _ <-]].
    + destruct e; (split; split; [done|by intros [? [=]]|..]); try done;
        by intros [= <-].
Qed.

(** ** Consistency of the count and the size *)

Lemma keys_of_insert t i key data slot :
  t !! i = Some slot →
  List.length (keys_of (<[i := Some (key, data)]> t)) =
  match slot with
  | None => S (List.length (keys_of t))
  | Some _ => List.length (keys_of t)
  end.
Proof.
  revert i. induction t as [|s t IH]; intros i; [done|].
  destruct i as [|i]; simpl.
  - intros [= ->]. by destruct slot as [[k v]|].
  - intros Hslot. specialize (IH i Hslot).
    destruct s as [[k v]|]; simpl; by rewrite IH; destruct slot.
Qed.

Lemma keys_of_replicate n : keys_of (replicate n (@None (string * T))) = [].
Proof. induction n; simpl; done. Qed.

Lemma store_consistent self position key data :
  consistent self → consistent (store self position key data).2.
Proof.
  intros [Hsize Hcount]. unfold store.
  destruct (table self !! Z.to_nat position) as [slot|] eqn:Hslot; [|done].
  unfold consistent, keys, len in *. simpl.
  destruct slot as [[k v]|]; simpl.
  - rewrite length_insert, (keys_of_insert _ _ _ _ _ Hslot). done.
  - rewrite length_insert, (keys_of_insert _ _ _ _ _ Hslot). split; [done|]. lia.
Qed.

Lemma consistent_fields self self' :
  table self' = table self → count self' = count self →
  tablesize self' = tablesize self → consistent self → consistent self'.
Proof.
  unfold consistent, keys, len. by intros -> -> ->.
Qed.

Lemma reinsert_consistent set t self :
  (∀ s k v, consistent s → consistent (set s k v).2) →
  consistent self → consistent (reinsert set t self).2.
Proof.
  intros Hset. revert self.
  induction t as [|[[k v]|] t IH]; intros self Hc; simpl; [done| |by apply IH].
  specialize (Hset self k v Hc).
  destruct (set self k v) as [[|e] self1]; simpl in *; [by apply IH|done].
Qed.

Lemma rehash_with_consistent set self :
  (∀ s k v, consistent s → consistent (set s k v).2) →
  consistent self → consistent (rehash_with set self).2.
Proof.
  intros Hset Hc. unfold rehash_with.
  destruct (next_size (tablesize self)) as [new_size|]; [|done].
  unfold ArrayR. destruct (Z.leb_spec new_size 0) as [|Hpos]; [done|].
  match goal with
  | |- context [reinsert set (table self) ?fresh] =>
      assert (consistent fresh) as Hfresh
  end.
  { unfold consistent, keys, len. simpl.
    rewrite length_replicate, keys_of_replicate. simpl. lia. }
  pose proof (reinsert_consistent set (table self) _ Hset Hfresh) as Hre.
  destruct (reinsert set (table self) _) as [[|e] self1]; simpl in *; [|done].
  by apply (consistent_fields self1).
Qed.

(** Whatever happens in [__setitem__], rehashing included, and whether it
    returns or raises, a table whose [tablesize] is the length of its array
    and whose [count] is the number of its occupied slots is left in such a
    state.  The tables that [__init__] builds are in such a state. *)
Lemma setitem_keeps_consistent depth self key data :
  consistent self → consistent (setitem depth self key data).2.
Proof.
  revert self key data.
  induction depth as [|depth IH]; intros self key data Hc; [done|].
  simpl setitem.
  assert (consistent
            (if tablesize self <? 2 * count self
             then rehash_with (setitem depth) self else (Returned, self)).2)
    as Hre.
  { destruct (tablesize self <? 2 * count self); [|done].
    by apply rehash_with_consistent. }
  destruct (if tablesize self <? 2 * count self
            then rehash_with (setitem depth) self else (Returned, self))
    as [[|e] self1]; simpl in Hre; [|done].
  pose proof (linear_probe_fields self1 key true) as (Ht & Hn & Hs & _).
  destruct (linear_probe self1 key true) as [[position|e] self2]; simpl in *.
  - apply store_consistent. by apply (consistent_fields self1).
  - by apply (consistent_fields self1).
Qed.

Lemma init_consistent expected override self :
  init expected override = Return self →
  consistent self ∧ count self = 0 ∧ keys self = [].
Proof.
  unfold init.
  destruct (if -1 <? override then Some override else next_size expected)
    as [size|]; [|done].
  unfold ArrayR. destruct (Z.leb_spec size 0) as [|Hpos]; [done|].
  intros [= <-]. unfold consistent, keys, len. simpl.
  rewrite length_replicate, keys_of_replicate. repeat split; simpl; lia.
Qed.

(** Every table obtained from [__init__] by any number of [__setitem__]
    calls, returning or raising, has [len(keys()) = len(values()) = count]
    and [tablesize = len(table)]. *)
Theorem count_is_number_of_keys expected override self depth
    (sets : list (string * T)) :
  init expected override = Return self →
  let final :=
    foldl (λ s kd, (setitem depth s kd.1 kd.2).2) self sets in
  count final = Z.of_nat (List.length (keys final)) ∧
  List.length (values final) = List.length (keys final) ∧
  tablesize final = len final.
Proof.
  intros Hinit%init_consistent. destruct Hinit as (Hc & _).
  simpl. revert self Hc.
  induction sets as [|[k v] sets IH]; intros self Hc; simpl.
  - destruct Hc as [Hs Hn]. repeat split; try done.
    unfold values, keys. clear.
    induction (table self) as [|[[k v]|] t IH]; simpl; congruence.
  - apply IH. by apply setitem_keeps_consistent.
Qed.


(** ** Round trips *)

(** The lookup probe retraces the insertion probe once the slot it ended on
    holds the key. *)
Lemma probe_after_store fuel self self' key data position chain chain' p self2 :
  probe_loop fuel self key true position chain = (Return p, self2) →
  table self' = <[Z.to_nat p := Some (key, data)]> (table self) →
  ∃ self'', probe_loop fuel self' key false position chain' = (Return p, self'') ∧
            table self'' = table self'.
Proof.
  revert self self' position chain chain'.
  induction fuel as [|fuel IH]; intros self self' position chain chain'; simpl;
    [done|].
  intros Hprobe Htable.
  assert (len self' = len self) as Hlen.
  { unfold len. by rewrite Htable, length_insert. }
  destruct (table self !! Z.to_nat position) as [[[k old]|]|] eqn:Hslot; [| |done].
  - destruct (String.eqb_spec k key) as [->|Hne].
    + injection Hprobe as <- <-.
      rewrite Htable, list_lookup_insert_eq by (by apply lookup_lt_Some in Hslot).
      rewrite String.eqb_refl. eexists. split; [done|].
      by destruct (note_chain_fields self' chain') as (-> & _).
    + pose proof (probe_loop_Return _ _ _ _ _ _ _ _ Hprobe)
        as (_ & _ & _ & slot & Hp & Hkind).
      assert (Z.to_nat p ≠ Z.to_nat position) as Hpos.
      { intros Heq. rewrite Heq in Hp. simpl in Hp. rewrite Hslot in Hp.
        injection Hp as <-. by destruct Hkind as [[[=] _]|[old' [= ->]]]. }
      rewrite Htable, list_lookup_insert_ne, Hslot by done.
      destruct (String.eqb_spec k key) as [|_]; [done|].
      rewrite Hlen.
      destruct (IH (set_probe_total self (probe_total self + 1))
                   (set_probe_total self' (probe_total self' + 1))
                   ((position + 1) mod len self) (chain + 1) (chain' + 1)
                   Hprobe Htable) as (self'' & Hlook & Ht).
      exists self''. split; [done|]. by rewrite Ht.
  - injection Hprobe as <- <-.
    rewrite Htable, list_lookup_insert_eq by (by apply lookup_lt_Some in Hslot).
    rewrite String.eqb_refl. eexists. split; [done|].
    by destruct (note_chain_fields self' chain') as (-> & _).
Qed.

(** The lookup probe of another key, when it found that key, finds it again
    after a slot that was empty or held [key] has been given to [key]. *)
Lemma probe_other_key fuel self self' key key' data position chain chain' p q self1 :
  key' ≠ key →
  (table self !! Z.to_nat p = Some None ∨
   ∃ old, table self !! Z.to_nat p = Some (Some (key, old))) →
  table self' = <[Z.to_nat p := Some (key, data)]> (table self) →
  probe_loop fuel self key' false position chain = (Return q, self1) →
  ∃ self1', probe_loop fuel self' key' false position chain' = (Return q, self1') ∧
            table self1' = table self' ∧
            table self' !! Z.to_nat q = table self !! Z.to_nat q.
Proof.
  intros Hne Hp Htable. revert self self' position chain chain' Hp Htable.
  induction fuel as [|fuel IH]; intros self self' position chain chain' Hp Htable;
    simpl; [done|].
  assert (len self' = len self) as Hlen.
  { unfold len. by rewrite Htable, length_insert. }
  destruct (table self !! Z.to_nat position) as [[[k old]|]|] eqn:Hslot; [|done..].
  destruct (String.eqb_spec k key') as [->|Hk].
  - intros [= <- <-].
    assert (Z.to_nat p ≠ Z.to_nat position) as Hpos.
    { intros Heq. rewrite Heq, Hslot in Hp.
      by destruct Hp as [[=]|[old' [= -> _]]]. }
    rewrite Htable, list_lookup_insert_ne, Hslot by done.
    rewrite String.eqb_refl. eexists. repeat split.
    by destruct (note_chain_fields self' chain') as (-> & _).
  - intros Hprobe.
    assert (∃ k' old', table self' !! Z.to_nat position = Some (Some (k', old'))
                       ∧ k' ≠ key') as (k' & old' & -> & Hk').
    { destruct (decide (Z.to_nat p = Z.to_nat position)) as [Heq|Hpos].
      - exists key, data. split; [|done].
        rewrite Htable, Heq.
        by rewrite list_lookup_insert_eq by (by apply lookup_lt_Some in Hslot).
      - exists k, old. by rewrite Htable, list_lookup_insert_ne, Hslot. }
    destruct (String.eqb_spec k' key') as [|_]; [done|].
    rewrite Hlen.
    apply (IH (set_probe_total self (probe_total self + 1))
              (set_probe_total self' (probe_total self' + 1))
              ((position + 1) mod len self) (chain + 1) (chain' + 1)); done.
Qed.

(** Whenever [self[key] = data] returns, with or without a rehash, the
    lookup [self[key]] that follows returns [data] and leaves the array as
    it is. *)
Theorem getitem_after_setitem depth self key data self' :
  setitem depth self key data = (Returned, self') →
  ∃ self'', getitem self' key = (Return data, self'') ∧
            table self'' = table self'.
Proof.
  destruct depth as [|depth]; [done|]. simpl setitem.
  destruct (if tablesize self <? 2 * count self
            then rehash_with (setitem depth) self else (Returned, self))
    as [[|e] self1]; [|done].
  unfold linear_probe.
  destruct (hash self1 key) as [start|e] eqn:Hhash; [|done].
  destruct (true && is_full self1); [done|].
  destruct (probe_loop _ self1 key true start 0) as [[p|e] self2] eqn:Hprobe;
    [|done].
  pose proof (probe_loop_Return _ _ _ _ _ _ _ _ Hprobe)
    as (Ht & _ & _ & slot & Hslot & _).
  destruct (store_spec self2 p key data slot) as (self3 & Hstore & Ht3 & _);
    [by rewrite Ht|].
  rewrite Hstore. intros [= <-]. rewrite Ht in Ht3.
  assert (len self3 = len self1) as Hlen.
  { unfold len. by rewrite Ht3, length_insert. }
  destruct (probe_after_store _ self1 self3 key data start 0 0 p self2 Hprobe Ht3)
    as (self4 & Hlook & Ht4).
  unfold getitem, linear_probe, hash. rewrite Hlen.
  unfold hash in Hhash. rewrite Hhash. simpl.
  replace (List.length (table self3)) with (List.length (table self1))
    by (by rewrite Ht3, length_insert).
  rewrite Hlook, Ht4, Ht3.
  rewrite list_lookup_insert_eq by (by apply lookup_lt_Some in Hslot).
  exists self4. split; [done|]. by rewrite Ht4.
Qed.

(** When [__setitem__] does not rehash, a key that lookup found before the
    call, other than the key being set, is found after it with the same
    data. *)
Theorem setitem_keeps_other_keys depth self key data self' key' data' self1 :
  2 * count self <= tablesize self → key' ≠ key →
  getitem self key' = (Return data', self1) →
  setitem (S depth) self key data = (Returned, self') →
  ∃ self1', getitem self' key' = (Return data', self1').
Proof.
  intros Hhalf Hne Hget. simpl setitem.
  assert ((tablesize self <? 2 * count self) = false) as -> by (apply Z.ltb_ge; lia).
  destruct (linear_probe self key true) as [[p|e] self2] eqn:Hprobe; [|done].
  pose proof (linear_probe_Return _ _ _ _ _ Hprobe)
    as (Ht & _ & _ & slot & Hslot & Hkind).
  destruct (store_spec self2 p key data slot) as (self3 & Hstore & Ht3 & _);
    [by rewrite Ht|].
  rewrite Hstore. intros [= <-]. rewrite Ht in Ht3.
  assert (len self3 = len self) as Hlen.
  { unfold len. by rewrite Ht3, length_insert. }
  unfold getitem, linear_probe, hash in Hget |- *. rewrite Hlen.
  destruct (hash_loop key' 0 31415 (len self)) as [start|e]; [|done].
  simpl in Hget |- *.
  destruct (probe_loop _ self key' false start 0) as [[q|e] self4] eqn:Hlook;
    [|done].
  pose proof (probe_loop_Return _ _ _ _ _ _ _ _ Hlook)
    as (Ht4 & _ & _ & slot' & Hq & Hkind').
  rewrite Ht4, Hq in Hget.
  destruct Hkind' as [[_ [=]]|[old ->]]. injection Hget as -> ->.
  destruct (probe_other_key (List.length (table self)) self self3 key key' data
              start 0 0 p q self1 Hne)
    as (self5 & Hlook' & Ht5 & Hsame); try done.
  { destruct Hkind as [[-> _]|[old ->]]; eauto. }
  replace (List.length (table self3)) with (List.length (table self))
    by (by rewrite Ht3, length_insert).
  rewrite Hlook', Ht5, Hsame, Hq. by exists self5.
Qed.


(** ** Statistics *)

Lemma count_conflicts_spec ks self hashes self' :
  count_conflicts ks self hashes = (Returned, self') →
  table self' = table self ∧ count self' = count self ∧
  tablesize self' = tablesize self ∧ probe_total self' = probe_total self ∧
  probe_max self' = probe_max self ∧ rehash_count self' = rehash_count self ∧
  0 <= conflict_count self' - conflict_count self <= Z.of_nat (List.length ks) ∧
  ∀ other,
    table other = table self →
    ∃ other',
      count_conflicts ks other hashes = (Returned, other') ∧
      conflict_count other' - conflict_count other =
      conflict_count self' - conflict_count self.
Proof.
  revert self hashes.
  induction ks as [|key ks IH]; intros self hashes; simpl.
  - intros [= <-]. repeat split; try lia. intros other _. exists other.
    split; [done|lia].
  - destruct (hash self key) as [h|e] eqn:Hhash; [|done].
    destruct (bool_decide (h ∈ hashes)) eqn:Hseen.
    + intros H. apply IH in H as (Ht & Hc & Hs & Hpt & Hpm & Hr & Hd & Hother).
      simpl in *. repeat split; try done; try lia.
      intros other Hto.
      assert (hash other key = Return h) as ->.
      { unfold hash, len in *. by rewrite Hto. }
      rewrite Hseen.
      destruct (Hother (set_conflict_count other (conflict_count other + 1)))
        as (other' & Heq & Hdiff); [done|].
      exists other'. split; [done|]. simpl in Hdiff. lia.
    + intros H. apply IH in H as (Ht & Hc & Hs & Hpt & Hpm & Hr & Hd & Hother).
      repeat split; try done; try lia.
      intros other Hto.
      assert (hash other key = Return h) as ->.
      { unfold hash, len in *. by rewrite Hto. }
      rewrite Hseen. by apply Hother.
Qed.

(** [statistics()] leaves the table and the other counters as they are and
    adds to [conflict_count] a number between 0 and the number of keys; a
    second call on the result adds that number again. *)
Theorem statistics_accumulates self c pt pm rc self1 :
  statistics self = (Return (c, pt, pm, rc), self1) →
  table self1 = table self ∧ count self1 = count self ∧
  pt = probe_total self ∧ pm = probe_max self ∧ rc = rehash_count self ∧
  c = conflict_count self1 ∧
  0 <= c - conflict_count self <= Z.of_nat (List.length (keys self)) ∧
  ∃ self2,
    statistics self1 =
      (Return (c + (c - conflict_count self), pt, pm, rc), self2).
Proof.
  unfold statistics.
  destruct (count_conflicts (keys self) self []) as [[|e] self'] eqn:Hfirst;
    [|done].
  intros [= <- <- <- <- <-].
  apply count_conflicts_spec in Hfirst
    as (Ht & Hc & Hs & Hpt & Hpm & Hr & Hd & Hother).
  repeat split; try done; try lia.
  destruct (Hother self') as (self2 & Hsecond & Hdiff); [done|].
  exists self2. unfold keys. rewrite Ht. fold (keys self). rewrite Hsecond.
  apply count_conflicts_spec in Hsecond as (_ & _ & _ & -> & -> & -> & _).
  replace (conflict_count self2)
    with (conflict_count self' + (conflict_count self' - conflict_count self))
    by lia.
  done.
Qed.


End hash_table_more.

(** * The range trader: facts *)

Section trader_facts.

Import avl trader.

Context {K P : Type}.

Variable ltb : K → K → bool.

Hypothesis ltb_irrefl : ∀ a, ltb a a = false.
Hypothesis ltb_trans : ∀ a b c, ltb a b = true → ltb b c = true → ltb a c = true.
Hypothesis ltb_total : ∀ a b, ltb a b = false → ltb b a = false → a = b.

Implicit Types (mat : Material K) (mats : list (Material K)).
Implicit Types (t : AVLTree K (Material K)) (self : RangeTrader K P).

(** The entry under which a material is stored. *)
Local Abbreviation entry := (λ mat : Material K, (mining_rate mat, mat)).

(** Materials compared by mining rate, as [Material.__lt__] does. *)
Local Abbreviation slower := (λ a b : Material K,
  avl.lt ltb (mining_rate a) (mining_rate b)).

Lemma add_all_returned t mats :
  invariant ltb t → NoDup (mining_rate <$> mats) →
  (∀ mat, mat ∈ mats → mining_rate mat ∉ keys (root t)) →
  ∃ t', add_all ltb t mats = (Returned, t') ∧ invariant ltb t' ∧
        elements (root t') ≡ₚ elements (root t) ++ (entry <$> mats) ∧
        length t' = length t + Z.of_nat (List.length mats).
Proof.
  revert t. induction mats as [|mat mats IH]; intros t Hinv Hnd Hfresh;
    simpl add_all.
  - exists t. rewrite fmap_nil, app_nil_r. do 3 (split; [done|]). simpl. lia.
  - rewrite fmap_cons in Hnd. apply NoDup_cons in Hnd as [Hmat Hnd].
    destruct (setitem_returned ltb ltb_irrefl ltb_trans ltb_total t
                (mining_rate mat) mat Hinv)
      as (t1 & xs & ys & Hset & Hinv1 & Hlen1 & Hel & Hel1).
    { apply Hfresh. apply elem_of_cons; by left. }
    rewrite Hset.
    destruct (IH t1 Hinv1 Hnd) as (t' & Hadd & Hinv' & Hperm & Hlen').
    { intros m Hm. unfold keys. rewrite Hel1, fmap_app, fmap_cons.
      rewrite not_elem_of_app, not_elem_of_cons. simpl.
      assert (mining_rate m ∉ keys (root t)) as Hk
        by (apply Hfresh; apply elem_of_cons; by right).
      unfold keys in Hk. rewrite Hel, fmap_app, not_elem_of_app in Hk.
      destruct Hk as [Hx Hy]. repeat split; try done.
      intros Heq. apply Hmat. rewrite <- Heq. by apply list_elem_of_fmap_2. }
    exists t'. do 2 (split; [done|]). split; [|simpl List.length; lia].
    rewrite Hperm, Hel1, Hel, fmap_cons, <- !app_assoc. simpl.
    apply Permutation_app_head. by rewrite <- !Permutation_middle.
Qed.

Lemma add_all_app t t1 pre mats :
  add_all ltb t pre = (Returned, t1) →
  add_all ltb t (pre ++ mats) = add_all ltb t1 mats.
Proof.
  revert t. induction pre as [|mat pre IH]; intros t; simpl.
  - by intros [= ->].
  - destruct (setitem ltb t (mining_rate mat) mat) as [[|e] t2]; [|done].
    apply IH.
Qed.

Lemma sorted_by_rate (l : list (K * Material K)) :
  Forall (λ p, p.1 = mining_rate p.2) l →
  StronglySorted (avl.lt ltb) l.*1 → StronglySorted slower l.*2.
Proof.
  induction l as [|[k m] l IH]; [constructor|].
  rewrite !fmap_cons. simpl.
  intros [Hk Hl]%Forall_cons [Hhd Htl]%StronglySorted_cons. simpl in Hk. subst k.
  apply StronglySorted_cons. split; [|by apply IH].
  apply Forall_forall. intros b (p & -> & Hp)%list_elem_of_fmap_1.
  rewrite <- (proj1 (Forall_forall _ _) Hl p Hp).
  apply (proj1 (Forall_forall _ _) Hhd). by apply list_elem_of_fmap_2.
Qed.

Lemma entries_of_materials mats (l : list (K * Material K)) :
  l ≡ₚ entry <$> mats →
  l.*2 ≡ₚ mats ∧ l.*1 ≡ₚ mining_rate <$> mats ∧
  Forall (λ p, p.1 = mining_rate p.2) l.
Proof.
  intros Hperm. repeat split.
  - rewrite Hperm, <- list_fmap_compose. by rewrite list_fmap_id.
  - rewrite Hperm, <- list_fmap_compose. done.
  - rewrite Hperm, Forall_fmap. by apply Forall_true.
Qed.

(** [set_all_materials] on materials with pairwise distinct mining rates
    returns, keeps the name and the deal, and leaves a tree whose invariants
    hold and whose count is the number of materials; the window over all
    its ranks is then the given materials in ascending order of mining
    rate. *)
Theorem set_all_materials_sorts self mats :
  NoDup (mining_rate <$> mats) →
  ∃ self' sorted,
    set_all_materials ltb self mats = (Returned, self') ∧
    name self' = name self ∧ sell self' = sell self ∧
    invariant ltb (materials self') ∧
    length (materials self') = Z.of_nat (List.length mats) ∧
    materials_between self' 0 (Z.of_nat (List.length mats) - 1) =
      (Return sorted, self') ∧
    sorted ≡ₚ mats ∧ StronglySorted slower sorted.
Proof.
  intros Hnd.
  destruct (add_all_returned empty mats (invariant_empty ltb) Hnd)
    as (t' & Hadd & Hinv & Hperm & Hlen).
  { intros mat _. apply not_elem_of_nil. }
  simpl in Hperm, Hlen.
  destruct (entries_of_materials mats _ Hperm) as (Hvals & _ & Hrate).
  exists (set_materials self t'), (values (root t')).
  unfold set_all_materials. rewrite Hadd.
  pose proof Hinv as (_ & Hc & Ho & Hn & _).
  do 5 (split; [done|]). split; [|split; [done|by apply sorted_by_rate]].
  unfold materials_between.
  change (materials (set_materials self t')) with t'.
  rewrite range_between_window, window_clamped by done.
  change (Z.to_nat 0) with O. rewrite drop_0.
  rewrite take_ge; [done|].
  pose proof (values_length (root t')). lia.
Qed.

(** [set_all_materials] on a list in which a material repeats the mining
    rate of an earlier one raises [KeyError] at the first such material;
    the trader is left with the materials that came before it, whatever it
    held until then. *)
Theorem set_all_materials_duplicate self pre mat rest :
  NoDup (mining_rate <$> pre) → mining_rate mat ∈ mining_rate <$> pre →
  ∃ self',
    set_all_materials ltb self (pre ++ mat :: rest) = (Raised KeyError, self') ∧
    values (root (materials self')) ≡ₚ pre ∧
    length (materials self') = Z.of_nat (List.length pre).
Proof.
  intros Hnd Hdup.
  destruct (add_all_returned empty pre (invariant_empty ltb) Hnd)
    as (t1 & Hadd & Hinv & Hperm & Hlen).
  { intros m _. apply not_elem_of_nil. }
  simpl in Hperm, Hlen.
  destruct (entries_of_materials pre _ Hperm) as (Hvals & Hkeys & _).
  exists (set_materials self t1). unfold set_all_materials.
  rewrite (add_all_app empty t1 pre (mat :: rest) Hadd). simpl add_all.
  unfold setitem. destruct Hinv as (_ & _ & Ho & _).
  rewrite (insert_aux_present ltb ltb_irrefl ltb_trans (root t1)
             (mining_rate mat) mat (length t1) Ho).
  - destruct t1. done.
  - unfold keys. by rewrite Hkeys.
Qed.

End trader_facts.

(** * Table sizes *)

Section size_facts.

Import primes hash_table.

Lemma is_prime_ge_2 n : is_prime n = true → 2 <= n.
Proof. unfold is_prime. destruct (Z.ltb_spec n 2); [done|lia]. Qed.

Lemma next_from_Some candidates p :
  next_from candidates = Some p →
  1 <= p <= Z.of_nat candidates ∧ is_prime p = true ∧
  ∀ q, p < q <= Z.of_nat candidates → is_prime q = false.
Proof.
  induction candidates as [|below IH]; [done|].
  change (next_from (S below))
    with (if is_prime (Z.of_nat (S below)) then Some (Z.of_nat (S below))
          else next_from below).
  destruct (is_prime (Z.of_nat (S below))) eqn:Hp.
  - intros [= <-]. repeat split; try done; lia.
  - intros (Hr & Hprime & Hq)%IH. repeat split; try done; try lia.
    intros q Hrange.
    destruct (decide (q = Z.of_nat (S below))) as [->|]; [done|].
    apply Hq. lia.
Qed.

Lemma next_from_None candidates :
  next_from candidates = None →
  ∀ q, 1 <= q <= Z.of_nat candidates → is_prime q = false.
Proof.
  induction candidates as [|below IH]; [intros _ q; lia|].
  change (next_from (S below))
    with (if is_prime (Z.of_nat (S below)) then Some (Z.of_nat (S below))
          else next_from below).
  destruct (is_prime (Z.of_nat (S below))) eqn:Hp; [done|].
  intros Hnone q Hrange.
  destruct (decide (q = Z.of_nat (S below))) as [->|]; [done|].
  apply IH; [done|lia].
Qed.

Lemma next_prime_Some upper_bound p :
  next_prime upper_bound = Some p →
  2 <= p < upper_bound ∧ is_prime p = true ∧
  ∀ q, p < q < upper_bound → is_prime q = false.
Proof.
  unfold next_prime. intros (Hr & Hp & Hq)%next_from_Some.
  pose proof (is_prime_ge_2 p Hp). repeat split; try done; try lia.
  intros q Hrange. apply Hq. lia.
Qed.

(** [LargestPrimeIterator(upper_bound, factor).__next__()] returns the
    largest number below the bound that [is_prime] accepts, which is at
    least 2; it returns [None] only when [is_prime] accepts no number below
    the bound. *)
Theorem next_prime_is_largest upper_bound :
  (∀ p, next_prime upper_bound = Some p →
        2 <= p < upper_bound ∧ is_prime p = true ∧
        ∀ q, p < q < upper_bound → is_prime q = false) ∧
  (next_prime upper_bound = None →
   ∀ q, q < upper_bound → is_prime q = false).
Proof.
  split; [apply next_prime_Some|].
  unfold next_prime. intros Hnone q Hq.
  destruct (Z.ltb_spec q 1) as [Hsmall|Hbig].
  - unfold is_prime. destruct (Z.ltb_spec q 2); [done|lia].
  - apply (next_from_None _ Hnone). lia.
Qed.

Context {T : Type}.

Implicit Types (self : LinearProbeTable T) (key : string) (data : T).

Lemma next_size_Some size new_size :
  next_size size = Some new_size → 2 <= new_size ∧ is_prime new_size = true.
Proof.
  unfold next_size. destruct (scaled size) as [upper|]; [|done].
  intros (Hr & Hp & _)%next_prime_Some. split; [lia|done].
Qed.

Lemma ArrayR_length size (t : list (option (string * T))) :
  ArrayR size = Return t → Z.of_nat (List.length t) = size ∧ 0 < size.
Proof.
  unfold ArrayR. destruct (Z.leb_spec size 0); [done|].
  intros [= <-]. rewrite length_replicate. lia.
Qed.

(** A table built by [__init__] without a size override has a size that
    [is_prime] accepts, hence at least two slots, and [hash] returns a
    position of its array for every key. *)
Theorem init_sizes_by_prime expected override self :
  override <= -1 → init expected override = Return self →
  is_prime (tablesize self) = true ∧ tablesize self = len self ∧
  2 <= len self ∧ count self = 0 ∧
  ∀ key, ∃ h, hash self key = Return h ∧ 0 <= h < len self.
Proof.
  intros Hover. unfold init.
  destruct (Z.ltb_spec (-1) override); [lia|].
  destruct (next_size expected) as [size|] eqn:Hsize; [|done].
  apply next_size_Some in Hsize as [Hge Hprime].
  destruct (ArrayR size) as [t|e] eqn:Harray; [|done].
  apply ArrayR_length in Harray as [Hlen _].
  intros [= <-]. unfold len. simpl.
  repeat split; try done; try lia.
  intros key. apply hash_loop_bounds; lia.
Qed.

Lemma reinsert_two_slots set t self :
  (∀ s k v, 2 <= len s →
            2 <= len (set s k v).2 ∧
            (set s k v).1 ≠ Raised ZeroDivisionError) →
  2 <= len self →
  2 <= len (reinsert set t self).2 ∧
  (reinsert set t self).1 ≠ Raised ZeroDivisionError.
Proof.
  intros Hset. revert self.
  induction t as [|[[k v]|] t IH]; intros self Hlen; simpl; [done| |by apply IH].
  specialize (Hset self k v Hlen).
  destruct (set self k v) as [[|e] self1]; simpl in *; [|done].
  apply IH. by destruct Hset.
Qed.

Lemma probe_loop_never_divides fuel self key is_insert position chain :
  (probe_loop fuel self key is_insert position chain).1 ≠ Raise ZeroDivisionError.
Proof.
  revert self position chain.
  induction fuel as [|fuel IH]; intros self position chain; simpl; [done|].
  destruct (table self !! Z.to_nat position) as [[[k old]|]|]; simpl; [| |done].
  - destruct (String.eqb k key); [done|]. apply IH.
  - by destruct is_insert.
Qed.

Lemma setitem_two_slots depth self key data :
  2 <= len self →
  2 <= len (setitem depth self key data).2 ∧
  (setitem depth self key data).1 ≠ Raised ZeroDivisionError.
Proof.
  revert self key data.
  induction depth as [|depth IH]; intros self key data Hlen; [done|].
  simpl setitem.
  assert (let r := if tablesize self <? 2 * count self
                   then rehash_with (setitem depth) self else (Returned, self) in
          2 <= len r.2 ∧ r.1 ≠ Raised ZeroDivisionError) as Hre.
  { destruct (tablesize self <? 2 * count self); [|done].
    unfold rehash_with.
    destruct (next_size (tablesize self)) as [size|] eqn:Hsize; [|done].
    apply next_size_Some in Hsize as [Hge _].
    destruct (ArrayR size) as [t|e] eqn:Harray; simpl.
    - apply ArrayR_length in Harray as [Ht _].
      match goal with
      | |- context [reinsert _ (table self) ?fresh] =>
          destruct (reinsert_two_slots (setitem depth) (table self) fresh IH)
            as [Hl He]; [unfold len; simpl; lia|]
      end.
      destruct (reinsert _ (table self) _) as [[|e] self1]; simpl in *; done.
    - unfold ArrayR in Harray. destruct (size <=? 0); [|done].
      by injection Harray as <-. }
  simpl in Hre.
  destruct (if tablesize self <? 2 * count self
            then rehash_with (setitem depth) self else (Returned, self))
    as [[|e] self1]; simpl in Hre; destruct Hre as [Hl1 He1]; [|done].
  pose proof (linear_probe_fields self1 key true) as (Ht & _).
  unfold linear_probe in *.
  destruct (hash_loop_bounds key 0 31415 (len self1)) as (h & Hh & _); [lia..|].
  unfold hash in *. rewrite Hh in *. simpl in *.
  destruct (is_full self1); simpl in *; [done|].
  pose proof (probe_loop_never_divides (List.length (table self1)) self1 key
                true h 0) as Hnz.
  destruct (probe_loop _ self1 key true h 0) as [[p|e] self2]; simpl in *.
  - unfold store. destruct (table self2 !! Z.to_nat p) as [slot|]; simpl.
    + unfold len in *. simpl. destruct slot; simpl;
        by rewrite length_insert, Ht.
    + unfold len in *. by rewrite Ht.
  - unfold len in *. rewrite Ht. split; [done|]. by intros [= ->].
Qed.

(** In a table with at least two slots, [__setitem__] never raises
    [ZeroDivisionError], rehashing included, and whether it returns or
    raises it leaves a table with at least two slots: no later call divides
    by zero either. *)
Theorem setitem_never_divides_by_zero depth self (sets : list (string * T)) :
  2 <= len self →
  let step := λ s (kd : string * T), (setitem depth s kd.1 kd.2).2 in
  2 <= len (foldl step self sets) ∧
  ∀ key data,
    (setitem depth (foldl step self sets) key data).1
    ≠ Raised ZeroDivisionError.
Proof.
  simpl. revert self. induction sets as [|[k v] sets IH]; intros self Hlen; simpl.
  - split; [done|]. intros key data. by apply setitem_two_slots.
  - apply IH. by apply setitem_two_slots.
Qed.

Lemma next_prime_above_3 upper_bound :
  4 <= upper_bound → ∃ p, next_prime upper_bound = Some p.
Proof.
  intros Hu. unfold next_prime.
  destruct (next_from (Z.to_nat (upper_bound - 1))) as [p|] eqn:Hnext;
    [by exists p|].
  pose proof (next_from_None _ Hnext 3) as H3.
  assert (is_prime 3 = true) as Hp by reflexivity.
  rewrite H3 in Hp by lia. done.
Qed.

Lemma scaled_above_3_spec bound n :
  scaled_above_3 bound = true → 2 <= n < bound →
  ∃ upper_bound, scaled n = Some upper_bound ∧ 4 <= upper_bound.
Proof.
  unfold scaled_above_3. rewrite forallb_forall. intros Hall Hn.
  specialize (Hall (Z.to_nat n)). rewrite Z2Nat.id in Hall by lia.
  destruct (scaled n) as [u|].
  - exists u. split; [done|]. apply Z.leb_le, Hall, in_seq. lia.
  - discriminate Hall. apply in_seq. lia.
Qed.

Lemma scaled_above_3_1000 : scaled_above_3 1000 = true.
Proof. vm_compute. reflexivity. Qed.

(** Without a size override, [LinearProbeTable(expected_size)] cannot be
    built for an expected size of 0 or 1: no number below [int(2.2 *
    expected_size)] is prime, the iterator returns [None] and the array
    cannot be made.  For every expected size from 2 up to 999 it is
    built. *)
Theorem init_needs_two_expected_items expected :
  (0 <= expected <= 1 →
   init (T := T) expected (-1) = Raise TypeError) ∧
  (2 <= expected < 1000 →
   ∃ self : LinearProbeTable T, init expected (-1) = Return self).
Proof.
  split.
  - intros Hn. assert (expected = 0 ∨ expected = 1) as [-> | ->] by lia;
      reflexivity.
  - intros Hn. unfold init. change (-1 <? -1) with false. cbv iota.
    unfold next_size.
    destruct (scaled_above_3_spec 1000 expected scaled_above_3_1000 Hn)
      as (u & -> & Hu).
    destruct (next_prime_above_3 u Hu) as (p & Hp). rewrite Hp.
    apply next_prime_Some in Hp as ([Hp2 _] & _).
    unfold ArrayR. destruct (Z.leb_spec p 0); [lia|]. by eexists.
Qed.

End size_facts.

(** * The linear-probing table: the pairs it holds *)

Section hash_table_pairs.

Import hash_table.

Context {T : Type}.

Implicit Types (self probed : LinearProbeTable T) (key : string) (data : T).
Implicit Types (t : list (option (string * T))) (kv : string * T).

(** ** Pairs, keys and slots *)

Lemma keys_of_pairs_of t : keys_of t = (pairs_of t).*1.
Proof.
  induction t as [|[[k v]|] t IH]; simpl; [done| |done]. by rewrite IH.
Qed.

Lemma elem_of_pairs_of t kv : kv ∈ pairs_of t ↔ Some kv ∈ t.
Proof.
  induction t as [|[kv'|] t IH]; simpl.
  - by rewrite !elem_of_nil.
  - rewrite !elem_of_cons, IH. split; intros [H|H]; auto.
    + left. by rewrite H.
    + left. by injection H.
  - rewrite elem_of_cons, IH. split; [auto|]. by intros [?|?].
Qed.

Lemma pairs_of_replicate n : pairs_of (replicate n (@None (string * T))) = [].
Proof. induction n; simpl; done. Qed.

Lemma pairs_of_insert t i kv slot :
  t !! i = Some slot →
  match slot with
  | None => pairs_of (<[i := Some kv]> t) ≡ₚ kv :: pairs_of t
  | Some kv0 =>
      ∃ rest, pairs_of t ≡ₚ kv0 :: rest ∧
              pairs_of (<[i := Some kv]> t) ≡ₚ kv :: rest
  end.
Proof.
  revert i. induction t as [|head t IH]; intros i; [done|].
  destruct i as [|i]; simpl.
  - intros [= ->]. destruct slot as [kv0|]; [|done]. by exists (pairs_of t).
  - intros Hslot. specialize (IH i Hslot). destruct slot as [kv0|].
    + destruct IH as (rest & Hold & Hnew). destruct head as [kh|].
      * exists (kh :: rest). rewrite Hold, Hnew. split; apply Permutation_swap.
      * by exists rest.
    + destruct head as [kh|]; [|done]. rewrite IH. apply Permutation_swap.
Qed.

(** ** Lookup depends on the array alone *)

Lemma probe_loop_same_table fuel self self' key position chain chain' p self1 :
  table self' = table self →
  probe_loop fuel self key false position chain = (Return p, self1) →
  ∃ self1', probe_loop fuel self' key false position chain' = (Return p, self1') ∧
            table self1' = table self'.
Proof.
  revert self self' position chain chain'.
  induction fuel as [|fuel IH]; intros self self' position chain chain' Ht;
    simpl; [done|].
  assert (len self' = len self) as -> by (unfold len; by rewrite Ht).
  rewrite Ht.
  destruct (table self !! Z.to_nat position) as [[[k old]|]|]; [|done..].
  destruct (String.eqb k key).
  - intros [= <- <-]. eexists. split; [done|].
    by destruct (note_chain_fields self' chain') as (-> & _).
  - intros Hprobe.
    destruct (IH (set_probe_total self (probe_total self + 1))
                 (set_probe_total self' (probe_total self' + 1))
                 ((position + 1) mod len self) (chain + 1) (chain' + 1)
                 Ht Hprobe) as (self1' & Hlook & Ht1).
    exists self1'. split; [exact Hlook|]. rewrite Ht1. exact Ht.
Qed.

Lemma finds_same_table self self' key data :
  table self' = table self → finds self key data → finds self' key data.
Proof.
  intros Ht [self1 Hget]. unfold finds, getitem, linear_probe, hash in *.
  assert (len self' = len self) as -> by (unfold len; by rewrite Ht).
  destruct (hash_loop key 0 31415 (len self)) as [start|e]; [|done].
  simpl in *. rewrite Ht.
  destruct (probe_loop _ self key false start 0) as [[p|e] self2] eqn:Hprobe;
    [|done].
  destruct (probe_loop_same_table _ self self' key start 0 0 p self2 Ht Hprobe)
    as (self3 & -> & Ht3).
  pose proof (probe_loop_Return _ _ _ _ _ _ _ _ Hprobe) as (Ht2 & _).
  rewrite Ht3, Ht. rewrite Ht2 in Hget.
  destruct (table self !! Z.to_nat p) as [[[k v]|]|]; try done.
  injection Hget as -> _. by eexists.
Qed.

Lemma retrievable_same_table self self' :
  table self' = table self → retrievable self → retrievable self'.
Proof.
  intros Ht [Hnd Hfind]. unfold retrievable, keys, pairs. rewrite Ht.
  split; [done|]. intros key data Hin.
  apply (finds_same_table self); [done|]. by apply Hfind.
Qed.

Lemma finds_pair self key data : finds self key data → (key, data) ∈ pairs self.
Proof.
  intros [self1 Hget]. unfold getitem in Hget.
  destruct (linear_probe self key false) as [[p|e] self2] eqn:Hprobe; [|done].
  apply linear_probe_Return in Hprobe
    as (Ht & _ & _ & slot & Hslot & [[_ [=]]|[old ->]]).
  rewrite Ht, Hslot in Hget. injection Hget as -> _.
  apply elem_of_pairs_of, list_elem_of_lookup. eauto.
Qed.

Lemma pairs_found self key data :
  retrievable self → ((key, data) ∈ pairs self ↔ finds self key data).
Proof. intros [_ Hfind]. split; [apply Hfind|apply finds_pair]. Qed.

Lemma key_of_pair self key : key ∈ keys self ↔ ∃ data, (key, data) ∈ pairs self.
Proof.
  unfold keys, pairs. rewrite keys_of_pairs_of, list_elem_of_fmap. split.
  - intros ([k v] & -> & Hin). by exists v.
  - intros (v & Hin). by exists (key, v).
Qed.

(** ** The probe and the two assignments *)

Lemma finds_unfold self key data :
  finds self key data ↔
  ∃ start p self1,
    hash self key = Return start ∧
    probe_loop (List.length (table self)) self key false start 0
      = (Return p, self1) ∧
    table self !! Z.to_nat p = Some (Some (key, data)).
Proof.
  unfold finds, getitem, linear_probe. split.
  - intros [self' Hget]. destruct (hash self key) as [start|e]; [|done].
    simpl in Hget.
    destruct (probe_loop _ self key false start 0) as [[p|e] self1] eqn:Hprobe;
      [|done].
    pose proof (probe_loop_Return _ _ _ _ _ _ _ _ Hprobe)
      as (Ht & _ & _ & slot & Hslot & [[_ [=]]|[old ->]]).
    rewrite Ht, Hslot in Hget. injection Hget as -> _.
    by exists start, p, self1.
  - intros (start & p & self1 & -> & Hprobe & Hslot). simpl. rewrite Hprobe.
    pose proof (probe_loop_Return _ _ _ _ _ _ _ _ Hprobe) as (Ht & _).
    rewrite Ht, Hslot. by eexists.
Qed.

Lemma probe_and_store_Returned probed key data self' :
  probe_and_store probed key data = (Returned, self') →
  ∃ position slot,
    table probed !! Z.to_nat position = Some slot ∧
    (slot = None ∨ ∃ old, slot = Some (key, old)) ∧
    table self' = <[Z.to_nat position := Some (key, data)]> (table probed) ∧
    tablesize self' = tablesize probed ∧
    count self' = match slot with
                  | None => count probed + 1
                  | Some _ => count probed
                  end ∧
    finds self' key data ∧
    (∀ key' data', key' ≠ key → finds probed key' data' → finds self' key' data') ∧
    (∀ old, finds probed key old → slot = Some (key, old)).
Proof.
  unfold probe_and_store.
  destruct (linear_probe probed key true) as [[p|e] self2] eqn:Hlinear; [|done].
  pose proof (linear_probe_Return _ _ _ _ _ Hlinear)
    as (Ht & Hc & Hs & slot & Hslot & Hkind).
  destruct (store_spec self2 p key data slot) as (self3 & Hstore & Ht3 & Hs3 & Hc3);
    [by rewrite Ht|].
  rewrite Hstore. intros [= <-]. rewrite Ht in Ht3. rewrite Hc in Hc3.
  exists p, slot. split; [done|]. split.
  { destruct Hkind as [[-> _]|?]; auto. }
  split; [done|]. split; [congruence|]. split; [done|].
  assert (len self3 = len probed) as Hlen.
  { unfold len. by rewrite Ht3, length_insert. }
  assert (List.length (table self3) = List.length (table probed)) as Hfuel.
  { by rewrite Ht3, length_insert. }
  unfold linear_probe in Hlinear.
  destruct (hash probed key) as [start|e] eqn:Hhash; [|done].
  destruct (true && is_full probed) eqn:Hfull; [done|].
  split; [|split].
  - apply finds_unfold.
    destruct (probe_after_store _ probed self3 key data start 0 0 p self2
                Hlinear Ht3) as (self4 & Hlook & Ht4).
    exists start, p, self4. unfold hash in *. rewrite Hlen, Hfuel.
    split; [done|]. split; [done|].
    rewrite Ht3. apply list_lookup_insert_eq. by apply lookup_lt_Some in Hslot.
  - intros key' data' Hne (start' & q & self1 & Hhash' & Hlook & Hq)%finds_unfold.
    apply finds_unfold.
    destruct (probe_other_key (List.length (table probed)) probed self3 key key'
                data start' 0 0 p q self1 Hne)
      as (self5 & Hlook' & Ht5 & Hsame); try done.
    { destruct Hkind as [[-> _]|[old ->]]; eauto. }
    exists start', q, self5. unfold hash in *. rewrite Hlen, Hfuel.
    split; [done|]. split; [done|]. by rewrite Hsame.
  - intros old (start' & q & self1 & Hhash' & Hlook & Hq)%finds_unfold.
    rewrite Hhash in Hhash'. injection Hhash' as <-.
    apply probe_loop_found in Hlook. rewrite Hlinear in Hlook.
    injection Hlook as <- _. rewrite Hslot in Hq. by injection Hq.
Qed.

Lemma probe_and_store_table probed key data e self' :
  probe_and_store probed key data = (Raised e, self') →
  table self' = table probed.
Proof.
  unfold probe_and_store.
  pose proof (linear_probe_fields probed key true) as (Ht & _).
  destruct (linear_probe probed key true) as [[p|e'] self2] eqn:Hlinear;
    simpl in Ht.
  - unfold store. destruct (table self2 !! Z.to_nat p); [done|].
    by intros [= _ <-].
  - by intros [= _ <-].
Qed.

Lemma probe_and_store_pairs probed key data self' :
  retrievable probed →
  probe_and_store probed key data = (Returned, self') →
  retrievable self' ∧
  ∃ position slot rest,
    table probed !! Z.to_nat position = Some slot ∧
    table self' = <[Z.to_nat position := Some (key, data)]> (table probed) ∧
    tablesize self' = tablesize probed ∧
    pairs self' ≡ₚ (key, data) :: rest ∧
    (slot = None ∧ (key ∉ keys probed) ∧ pairs probed ≡ₚ rest ∧
     count self' = count probed + 1 ∨
     ∃ old, slot = Some (key, old) ∧ pairs probed ≡ₚ (key, old) :: rest ∧
            count self' = count probed).
Proof.
  intros Hre Hstep.
  destruct (probe_and_store_Returned _ _ _ _ Hstep)
    as (p & slot & Hslot & Hkind & Ht & Hs & Hc & Hnew & Hothers & Hold).
  pose proof (pairs_of_insert _ _ (key, data) _ Hslot) as Hpairs.
  rewrite <- Ht in Hpairs. fold (pairs self') in Hpairs.
  fold (pairs probed) in Hpairs.
  destruct Hre as [Hnd Hfind].
  destruct Hkind as [->|[old ->]].
  - assert (key ∉ keys probed) as Hfresh.
    { intros (old & Hin)%key_of_pair. by specialize (Hold old (Hfind _ _ Hin)). }
    assert (retrievable self') as Hre'.
    { split.
      - unfold keys, pairs in *. rewrite keys_of_pairs_of, Hpairs, fmap_cons.
        simpl. apply NoDup_cons. by rewrite <- keys_of_pairs_of.
      - intros k v. rewrite Hpairs, elem_of_cons. intros [[= -> ->]|Hin]; [done|].
        apply Hothers; [|by apply Hfind].
        intros ->. apply Hfresh, key_of_pair. by exists v. }
    split; [done|]. exists p, None, (pairs probed).
    do 4 (split; [done|]). left. done.
  - destruct Hpairs as (rest & Hbefore & Hafter).
    assert (NoDup (key :: rest.*1)) as Hnd'.
    { unfold keys, pairs in *. rewrite keys_of_pairs_of, Hbefore in Hnd.
      by rewrite fmap_cons in Hnd. }
    assert (retrievable self') as Hre'.
    { split.
      - unfold keys, pairs in *. by rewrite keys_of_pairs_of, Hafter, fmap_cons.
      - intros k v. rewrite Hafter, elem_of_cons. intros [[= -> ->]|Hin]; [done|].
        apply Hothers.
        + intros ->. apply NoDup_cons in Hnd' as [Hnotin _]. apply Hnotin.
          apply list_elem_of_fmap. by exists (key, v).
        + apply Hfind. rewrite Hbefore. by right. }
    split; [done|]. exists p, (Some (key, old)), rest.
    do 4 (split; [done|]). right. by exists old.
Qed.

(** ** Rehashing keeps the pairs *)

Lemma setitem_unfold depth self key data :
  setitem (S depth) self key data =
  match (if tablesize self <? 2 * count self
         then rehash_with (setitem depth) self else (Returned, self)) with
  | (Raised e, probed) => (Raised e, probed)
  | (Returned, probed) => probe_and_store probed key data
  end.
Proof. reflexivity. Qed.

Lemma reinsert_pairs set old_table self :
  (∀ s k v, retrievable s →
            retrievable (set s k v).2 ∧
            ∀ s', set s k v = (Returned, s') →
                  (k ∉ keys s) → pairs s' ≡ₚ (k, v) :: pairs s) →
  retrievable self →
  retrievable (reinsert set old_table self).2 ∧
  ∀ self', reinsert set old_table self = (Returned, self') →
           NoDup (keys_of old_table ++ keys self) →
           pairs self' ≡ₚ pairs_of old_table ++ pairs self.
Proof.
  intros Hset. revert self.
  induction old_table as [|[[k v]|] old_table IH]; intros self Hre; simpl.
  - split; [done|]. by intros self' [= <-] _.
  - destruct (Hset self k v Hre) as [Hre1 Hpairs1].
    destruct (set self k v) as [[|e] self1]; simpl in Hre1; [|done].
    destruct (IH self1 Hre1) as [Hre' Hpairs']. split; [done|].
    intros self' Hrest [Hfresh Hnd]%NoDup_cons.
    assert (pairs self1 ≡ₚ (k, v) :: pairs self) as Hp1.
    { apply Hpairs1; [done|]. intros Hin. apply Hfresh, elem_of_app. by right. }
    rewrite (Hpairs' self' Hrest), Hp1.
    + by rewrite Permutation_middle.
    + unfold keys, pairs in *. rewrite (keys_of_pairs_of (table self1)), Hp1.
      rewrite fmap_cons. simpl. rewrite <- Permutation_middle.
      apply NoDup_cons. by rewrite <- keys_of_pairs_of.
  - by apply IH.
Qed.

Lemma rehash_with_pairs set self :
  (∀ s k v, retrievable s →
            retrievable (set s k v).2 ∧
            ∀ s', set s k v = (Returned, s') →
                  (k ∉ keys s) → pairs s' ≡ₚ (k, v) :: pairs s) →
  retrievable self →
  retrievable (rehash_with set self).2 ∧
  ∀ self', rehash_with set self = (Returned, self') →
           pairs self' ≡ₚ pairs self.
Proof.
  intros Hset Hre. unfold rehash_with.
  destruct (next_size (tablesize self)) as [new_size|]; [|done].
  destruct (ArrayR new_size) as [new_table|e] eqn:Harray; [|done].
  assert (new_table = replicate (Z.to_nat new_size) None) as ->.
  { unfold ArrayR in Harray. destruct (new_size <=? 0); [done|].
    by injection Harray. }
  match goal with
  | |- context [reinsert set (table self) ?fresh] =>
      assert (retrievable fresh) as Hfresh;
      [|destruct (reinsert_pairs set (table self) fresh Hset Hfresh)
          as [Hre' Hpairs']]
  end.
  { unfold retrievable, keys, pairs. simpl.
    rewrite keys_of_replicate, pairs_of_replicate. split; [constructor|].
    by intros k v Hin%elem_of_nil. }
  destruct (reinsert set (table self) _) as [[|e] self1]; simpl in *; [|done].
  split.
  - by apply (retrievable_same_table self1).
  - intros self' [= <-]. unfold pairs in *. simpl.
    rewrite (Hpairs' self1 eq_refl).
    + simpl. rewrite pairs_of_replicate. by rewrite app_nil_r.
    + unfold keys. simpl. rewrite keys_of_replicate, app_nil_r. by destruct Hre.
Qed.

Lemma setitem_pairs depth self key data :
  retrievable self →
  retrievable (setitem depth self key data).2 ∧
  ∀ self', setitem depth self key data = (Returned, self') →
           (key ∉ keys self) → pairs self' ≡ₚ (key, data) :: pairs self.
Proof.
  revert self key data.
  induction depth as [|depth IH]; intros self key data Hre; [done|].
  rewrite setitem_unfold.
  assert (let r := if tablesize self <? 2 * count self
                   then rehash_with (setitem depth) self else (Returned, self) in
          retrievable r.2 ∧
          ∀ probed, r = (Returned, probed) → pairs probed ≡ₚ pairs self)
    as Hrehash.
  { destruct (tablesize self <? 2 * count self).
    - by apply rehash_with_pairs.
    - split; [done|]. by intros probed [= <-]. }
  simpl in Hrehash.
  destruct (if tablesize self <? 2 * count self
            then rehash_with (setitem depth) self else (Returned, self))
    as [[|e] probed]; destruct Hrehash as [Hre1 Hpairs1]; simpl in Hre1; [|done].
  specialize (Hpairs1 probed eq_refl).
  destruct (probe_and_store probed key data) as [[|e] self1] eqn:Hstep; simpl.
  - destruct (probe_and_store_pairs _ _ _ _ Hre1 Hstep)
      as (Hre' & p & slot & rest & _ & _ & _ & Hafter & Hkind).
    split; [done|]. intros self' [= <-] Hfresh.
    destruct Hkind as [(_ & _ & Hbefore & _)|(old & _ & Hbefore & _)].
    + by rewrite Hafter, <- Hbefore, Hpairs1.
    + exfalso. apply Hfresh, key_of_pair. exists old.
      rewrite <- Hpairs1, Hbefore. by left.
  - split; [|done].
    apply (retrievable_same_table probed); [|done].
    by apply (probe_and_store_table _ key data e).
Qed.

(** ** The tables the class produces *)

Lemma count_conflicts_fields ks self hashes :
  let self' := (count_conflicts ks self hashes).2 in
  table self' = table self ∧ count self' = count self ∧
  tablesize self' = tablesize self.
Proof.
  revert self hashes.
  induction ks as [|key ks IH]; intros self hashes; simpl; [done|].
  destruct (hash self key) as [h|e]; [|done].
  destruct (bool_decide (h ∈ hashes)); [|apply IH].
  by destruct (IH (set_conflict_count self (conflict_count self + 1)) hashes)
    as (-> & -> & ->).
Qed.

Lemma sound_fields self self' :
  table self' = table self → count self' = count self →
  tablesize self' = tablesize self → sound self → sound self'.
Proof.
  intros Ht Hc Hs [Hcons Hre]. split.
  - by apply (consistent_fields self).
  - by apply (retrievable_same_table self).
Qed.

Lemma built_sound self : built self → sound self.
Proof.
  induction 1 as [expected override self Hinit
                 |depth self key data _ [Hcons Hre]
                 |self key _ IH
                 |self _ IH].
  - destruct (init_consistent _ _ _ Hinit) as (Hcons & _ & Hkeys).
    split; [done|]. split.
    + rewrite Hkeys. constructor.
    + intros key data Hin. assert (key ∈ keys self) as Hk
        by (apply key_of_pair; by exists data).
      rewrite Hkeys in Hk. by apply elem_of_nil in Hk.
  - split; [by apply setitem_keeps_consistent|by apply setitem_pairs].
  - pose proof (linear_probe_fields self key false) as (Ht & Hc & Hs & _).
    apply (sound_fields self); [..|done]; unfold getitem;
      destruct (linear_probe self key false) as [[p|e] self1]; simpl in *;
      try done; by destruct (table self1 !! Z.to_nat p) as [[[k v]|]|].
  - pose proof (count_conflicts_fields (keys self) self []) as (Ht & Hc & Hs).
    apply (sound_fields self); [..|done]; unfold statistics;
      by destruct (count_conflicts (keys self) self []) as [[|e] self1].
Qed.

(** ** When [__setitem__] returns *)

Lemma empty_slot t :
  (List.length (keys_of t) < List.length t)%nat → ∃ i, t !! i = Some None.
Proof.
  induction t as [|[[k v]|] t IH]; simpl; [lia| |by exists 0%nat].
  intros Hlt. destruct IH as [i Hi]; [lia|]. by exists (S i).
Qed.

(** The insertion probe returns once an empty slot lies within the
    iterations left. *)
Lemma probe_loop_reaches fuel self key position chain (j : nat) :
  0 <= position < len self → (j < fuel)%nat →
  table self !! Z.to_nat ((position + Z.of_nat j) mod len self) = Some None →
  ∃ p self', probe_loop fuel self key true position chain = (Return p, self').
Proof.
  revert self position chain j.
  induction fuel as [|fuel IH]; intros self position chain j Hpos Hj Hempty;
    [lia|].
  simpl.
  destruct (lookup_lt_is_Some_2 (table self) (Z.to_nat position)) as [slot Hslot].
  { unfold len in Hpos. lia. }
  rewrite Hslot. destruct slot as [[k old]|]; [|by eauto].
  destruct (String.eqb k key); [by eauto|].
  assert (j ≠ 0%nat) as Hj0.
  { intros ->. rewrite Z.add_0_r, Z.mod_small, Hslot in Hempty by done. done. }
  apply (IH (set_probe_total self (probe_total self + 1))
            ((position + 1) mod len self) (chain + 1) (j - 1)%nat).
  - change (len (set_probe_total self (probe_total self + 1))) with (len self).
    apply Z.mod_pos_bound. lia.
  - lia.
  - change (len (set_probe_total self (probe_total self + 1))) with (len self).
    change (table (set_probe_total self (probe_total self + 1)))
      with (table self).
    rewrite Zplus_mod_idemp_l.
    by replace (position + 1 + Z.of_nat (j - 1)) with (position + Z.of_nat j)
      by lia.
Qed.

Lemma probe_and_store_returns self key data :
  consistent self → 2 <= len self → count self < len self →
  ∃ self', probe_and_store self key data = (Returned, self').
Proof.
  intros [Hsize Hcount] Hlen Hroom.
  destruct (hash_loop_bounds key 0 31415 (len self)) as (h & Hh & Hrange);
    [lia..|].
  destruct (empty_slot (table self)) as [i Hi].
  { unfold keys, len in *. lia. }
  pose proof (lookup_lt_Some _ _ _ Hi) as Hilt.
  destruct (probe_loop_reaches (List.length (table self)) self key h 0
              (Z.to_nat ((Z.of_nat i - h) mod len self)))
    as (p & self1 & Hprobe); [done|..].
  { pose proof (Z.mod_pos_bound (Z.of_nat i - h) (len self)). unfold len in *.
    lia. }
  { rewrite Z2Nat.id by (apply Z.mod_pos_bound; lia).
    rewrite Zplus_mod_idemp_r.
    replace (h + (Z.of_nat i - h)) with (Z.of_nat i) by lia.
    rewrite Z.mod_small by (unfold len; lia). by rewrite Nat2Z.id. }
  assert (linear_probe self key true = (Return p, self1)) as Hlinear.
  { unfold linear_probe, hash. rewrite Hh.
    assert (is_full self = false) as ->; [|done].
    unfold is_full. apply Z.eqb_neq. lia. }
  pose proof (linear_probe_Return _ _ _ _ _ Hlinear)
    as (Ht & _ & _ & slot & Hslot & _).
  destruct (store_spec self1 p key data slot) as (self2 & Hstore & _);
    [by rewrite Ht|].
  exists self2. unfold probe_and_store. by rewrite Hlinear.
Qed.

Lemma setitem_returns_without_rehash depth self key data :
  consistent self → 2 <= len self → 2 * count self <= tablesize self →
  ∃ self',
    setitem (S depth) self key data = (Returned, self') ∧
    consistent self' ∧ tablesize self' = tablesize self ∧
    count self' <= count self + 1.
Proof.
  intros Hcons Hlen Hhalf.
  pose proof (setitem_keeps_consistent (S depth) self key data Hcons) as Hcons'.
  rewrite setitem_unfold in Hcons' |- *.
  assert ((tablesize self <? 2 * count self) = false) as Hno
    by (apply Z.ltb_ge; lia).
  rewrite Hno in Hcons' |- *.
  destruct (probe_and_store_returns self key data) as [self' Hstep]; [done..| |].
  { destruct Hcons as [Hsize _]. lia. }
  rewrite Hstep in Hcons' |- *. exists self'. split; [done|]. split; [done|].
  destruct (probe_and_store_Returned _ _ _ _ Hstep)
    as (p & slot & _ & _ & _ & Hs & Hc & _).
  split; [done|]. destruct slot; lia.
Qed.

Lemma reinsert_returns set old_table self :
  (∀ s k v,
     consistent s → 2 <= len s → 2 * count s <= tablesize s →
     ∃ s', set s k v = (Returned, s') ∧ consistent s' ∧
           tablesize s' = tablesize s ∧ count s' <= count s + 1) →
  consistent self → 2 <= len self →
  2 * (count self + Z.of_nat (List.length (keys_of old_table)))
    <= tablesize self →
  ∃ self',
    reinsert set old_table self = (Returned, self') ∧
    consistent self' ∧ tablesize self' = tablesize self ∧
    count self' <= count self + Z.of_nat (List.length (keys_of old_table)).
Proof.
  intros Hset. revert self.
  induction old_table as [|[[k v]|] old_table IH]; intros self Hcons Hlen Hroom;
    simpl in *.
  - exists self. do 3 (split; [done|]). lia.
  - destruct (Hset self k v) as (self1 & -> & Hcons1 & Hs1 & Hc1); [done..|lia|].
    destruct (IH self1) as (self' & Hrest & Hcons' & Hs' & Hc'); [done|..].
    + destruct Hcons as [Hsize _]. destruct Hcons1 as [Hsize1 _]. lia.
    + lia.
    + exists self'. split; [done|]. split; [done|]. split; [congruence|lia].
  - by apply IH.
Qed.

Lemma rehash_returns depth self new_size :
  consistent self → next_size (tablesize self) = Some new_size →
  2 * count self <= new_size →
  ∃ probed,
    rehash_with (setitem (S depth)) self = (Returned, probed) ∧
    consistent probed ∧ tablesize probed = new_size ∧
    count probed <= count self.
Proof.
  intros [Hsize Hcount] Hnext Hroom. unfold rehash_with. rewrite Hnext.
  apply next_size_Some in Hnext as [Hge _].
  unfold ArrayR. destruct (Z.leb_spec new_size 0); [lia|].
  match goal with
  | |- context [reinsert _ (table self) ?fresh] =>
      destruct (reinsert_returns (setitem (S depth)) (table self) fresh)
        as (self1 & -> & Hcons1 & Hs1 & Hc1)
  end.
  - apply setitem_returns_without_rehash.
  - unfold consistent, keys, len. simpl.
    rewrite length_replicate, keys_of_replicate. simpl. lia.
  - unfold len. simpl. rewrite length_replicate. lia.
  - simpl. unfold keys in Hcount. lia.
  - eexists. split; [done|]. simpl in *. unfold keys in Hcount.
    split; [by apply (consistent_fields self1)|]. split; [done|lia].
Qed.

(** ** Setting a key *)

Lemma pair_unique (l : list (string * T)) key data data' :
  NoDup l.*1 → (key, data) ∈ l → (key, data') ∈ l → data = data'.
Proof.
  induction l as [|[k v] l IH]; simpl; [by intros _ ?%elem_of_nil|].
  intros [Hfresh Hnd]%NoDup_cons.
  rewrite !elem_of_cons. intros [Heq|Hin] [Heq'|Hin']; [congruence|..|by auto].
  - injection Heq as -> ->. destruct Hfresh. apply list_elem_of_fmap.
    by exists (k, data').
  - injection Heq' as -> ->. destruct Hfresh. apply list_elem_of_fmap.
    by exists (k, data).
Qed.

(** A call of [__setitem__] that returns has probed a table that holds the
    pairs of the table it was given: that table itself, or the rehashed
    one. *)
Lemma setitem_Returned depth self key data self' :
  sound self → setitem depth self key data = (Returned, self') →
  ∃ probed,
    sound probed ∧ (2 * count self <= tablesize self → probed = self) ∧
    pairs probed ≡ₚ pairs self ∧ count probed = count self ∧
    probe_and_store probed key data = (Returned, self').
Proof.
  intros [Hcons Hre]. destruct depth as [|depth]; [done|].
  rewrite setitem_unfold.
  destruct (Z.ltb_spec (tablesize self) (2 * count self)) as [Hhalf|Hhalf].
  - pose proof (rehash_with_consistent (setitem depth) self
                  (setitem_keeps_consistent depth) Hcons) as Hcons1.
    destruct (rehash_with_pairs (setitem depth) self (setitem_pairs depth) Hre)
      as [Hre1 Hpairs1].
    destruct (rehash_with (setitem depth) self) as [[|e] probed]; [|done].
    simpl in *. specialize (Hpairs1 probed eq_refl).
    intros Hstep. exists probed. split; [done|]. split; [lia|].
    split; [done|]. split; [|done].
    destruct Hcons as [_ ->]. destruct Hcons1 as [_ ->].
    unfold keys, pairs in *.
    by rewrite !keys_of_pairs_of, !length_fmap, Hpairs1.
  - intros Hstep. by exists self.
Qed.

(** C10, with pairs for slots.  In a table that the class has produced,
    every stored pair is found by lookup.  Setting a key that is stored,
    whenever [__setitem__] returns, rehashing or not: the lookup of the key
    finds the new data, the count is what it was, the pair of the key has
    been replaced by the new one and every pair of another key is stored
    and found after the call exactly when it was before, in its own slot
    when the call does not rehash.  The call does return when it does not
    rehash, and also when it rehashes, provided two nested calls are
    allowed and the new size is at least twice the count.  And whatever the
    key, a call that returns has written one slot of the table it probed,
    which is the given table or the rehashed one with the same pairs and
    count: the count is one more when that slot was empty, which happens
    only when the key was not stored, and is unchanged when the slot held
    the key. *)
Theorem setitem_present_key self key data :
  built self →
  (∀ old,
     (key, old) ∈ pairs self →
     finds self key old ∧
     (∀ depth,
        2 * count self <= tablesize self ∨
        (∃ new_size, next_size (tablesize self) = Some new_size ∧
                     2 * count self <= new_size) →
        ∃ self', setitem (S (S depth)) self key data = (Returned, self')) ∧
     ∀ depth self',
       setitem depth self key data = (Returned, self') →
       finds self' key data ∧
       count self' = count self ∧
       (∃ rest, pairs self ≡ₚ (key, old) :: rest ∧
                pairs self' ≡ₚ (key, data) :: rest) ∧
       (∀ key' data',
          key' ≠ key →
          ((key', data') ∈ pairs self ↔ (key', data') ∈ pairs self') ∧
          (finds self key' data' ↔ finds self' key' data')) ∧
       (2 * count self <= tablesize self →
        ∃ position,
          table self !! position = Some (Some (key, old)) ∧
          table self' = <[position := Some (key, data)]> (table self) ∧
          ∀ i, i ≠ position → table self' !! i = table self !! i)) ∧
  (∀ depth self',
     setitem depth self key data = (Returned, self') →
     ∃ probed position slot,
       (2 * count self <= tablesize self → probed = self) ∧
       pairs probed ≡ₚ pairs self ∧ count probed = count self ∧
       table probed !! position = Some slot ∧
       table self' = <[position := Some (key, data)]> (table probed) ∧
       (slot = None → count self' = count self + 1 ∧ key ∉ keys self) ∧
       (slot ≠ None →
        count self' = count self ∧
        ∃ old, slot = Some (key, old) ∧ (key, old) ∈ pairs self)).
Proof.
  intros Hsound%built_sound.
  assert (∀ depth self',
            setitem depth self key data = (Returned, self') →
            ∃ probed position slot rest,
              retrievable self' ∧
              (2 * count self <= tablesize self → probed = self) ∧
              pairs probed ≡ₚ pairs self ∧ count probed = count self ∧
              table probed !! position = Some slot ∧
              table self' = <[position := Some (key, data)]> (table probed) ∧
              pairs self' ≡ₚ (key, data) :: rest ∧
              (slot = None ∧ (key ∉ keys self) ∧ pairs self ≡ₚ rest ∧
               count self' = count self + 1 ∨
               ∃ old, slot = Some (key, old) ∧ pairs self ≡ₚ (key, old) :: rest ∧
                      count self' = count self)) as Hstep.
  { intros depth self' Hset.
    destruct (setitem_Returned _ _ _ _ _ Hsound Hset)
      as (probed & [_ Hre1] & Hsame & Hpairs & Hcount & Hprobe).
    destruct (probe_and_store_pairs _ _ _ _ Hre1 Hprobe)
      as (Hre' & p & slot & rest & Hslot & Ht & _ & Hafter & Hkind).
    exists probed, (Z.to_nat p), slot, rest. do 6 (split; [done|]).
    split; [done|]. rewrite <- Hcount.
    destruct Hkind as [(-> & Hfresh & Hbefore & Hc)|(old & -> & Hbefore & Hc)].
    - left. split; [done|]. split; [|split; [by rewrite <- Hpairs|done]].
      intros (old & Hin)%key_of_pair. apply Hfresh, key_of_pair. exists old.
      by rewrite Hpairs.
    - right. exists old. split; [done|]. split; [by rewrite <- Hpairs|done]. }
  destruct Hsound as [[Hsize Hcount] [Hnd Hfind]].
  split.
  - intros old Hin. split; [by apply Hfind|]. split.
    + intros depth Hroom.
      destruct (Z.ltb_spec (tablesize self) (2 * count self)) as [Hhalf|Hhalf].
      * destruct Hroom as [?|(new_size & Hnext & Hroom)]; [lia|].
        destruct (rehash_returns depth self new_size)
          as (probed & Hrehash & Hcons1 & Hs1 & Hc1); [done..|].
        rewrite setitem_unfold.
        assert ((tablesize self <? 2 * count self) = true) as ->
          by (apply Z.ltb_lt; lia).
        rewrite Hrehash. apply next_size_Some in Hnext as [Hge _].
        assert (0 < count self).
        { assert (key ∈ keys self) as Hkey by (apply key_of_pair; eauto).
          rewrite Hcount. destruct (keys self); [|simpl; lia].
          by apply elem_of_nil in Hkey. }
        destruct Hcons1 as [Hsize1 Hcount1].
        apply probe_and_store_returns; [done|lia..].
      * destruct (Hfind _ _ Hin) as [self1 Hget].
        destruct (proj1 (setitem_without_rehash (S depth) self key data
                           Hsize Hhalf) old self1 Hget)
          as (position & self' & Hset & _).
        by exists self'.
    + intros depth self' Hset.
      destruct (Hstep depth self' Hset)
        as (probed & position & slot & rest & Hre' & Hsame & Hpairs & Hc & Hslot
            & Ht & Hafter & Hkind).
      assert (slot = Some (key, old) ∧ pairs self ≡ₚ (key, old) :: rest ∧
              count self' = count self) as (-> & Hbefore & Hc').
      { destruct Hkind as [(_ & Hfresh & _)|(old' & -> & Hbefore & Hc')].
        - destruct Hfresh. apply key_of_pair. by exists old.
        - assert (old' = old) as ->; [|done].
          apply (pair_unique (pairs self) key).
          + unfold keys, pairs in *. by rewrite <- keys_of_pairs_of.
          + rewrite Hbefore. by left.
          + done. }
      assert (NoDup (key :: rest.*1)) as [Hfresh _]%NoDup_cons.
      { unfold keys, pairs in *. rewrite keys_of_pairs_of, Hbefore in Hnd.
        by rewrite fmap_cons in Hnd. }
      assert (∀ key' data', key' ≠ key →
                (key', data') ∈ pairs self ↔ (key', data') ∈ pairs self')
        as Hothers.
      { intros key' data' Hne. rewrite Hbefore, Hafter, !elem_of_cons.
        split; (intros [[= ? _]|?]; [done|by right]). }
      split; [apply Hre'; rewrite Hafter; by left|]. split; [done|].
      split; [by exists rest|]. split.
      * intros key' data' Hne. split; [by apply Hothers|].
        rewrite <- (pairs_found self), <- (pairs_found self') by done.
        by apply Hothers.
      * intros Hhalf. rewrite (Hsame Hhalf) in Hslot, Ht. exists position.
        do 2 (split; [done|]). intros i Hi. rewrite Ht.
        by apply list_lookup_insert_ne.
  - intros depth self' Hset.
    destruct (Hstep depth self' Hset)
      as (probed & position & slot & rest & Hre' & Hsame & Hpairs & Hc & Hslot
          & Ht & Hafter & Hkind).
    exists probed, position, slot. do 5 (split; [done|]).
    destruct Hkind as [(-> & Hfresh & _ & Hc')|(old & -> & Hbefore & Hc')].
    + split; [done|]. by intros [].
    + split; [done|]. intros _. split; [done|]. exists old. split; [done|].
      rewrite Hbefore. by left.
Qed.

End hash_table_pairs.

(** * The linear-probing table: setting a key of a rehashing table *)

Section hash_table_pairs_examples.

Import hash_table samples.

(** [two_keys] is built by [LinearProbeTable(1, 3)] and two calls; setting
    ["a"] again rehashes it to five slots. *)
Lemma setitem_present_key_witness :
  built two_keys ∧ ("a", 1) ∈ pairs two_keys ∧
  (next_size (tablesize two_keys) = Some 5 ∧ 2 * count two_keys <= 5) ∧
  setitem 2 two_keys "a" 5 = (Returned, two_keys_rehashed) ∧
  (∃ self', setitem 2 two_keys "a" 5 = (Returned, self')) ∧
  finds two_keys_rehashed "a" 5 ∧
  count two_keys_rehashed = count two_keys ∧
  (∃ rest, pairs two_keys ≡ₚ ("a", 1) :: rest ∧
           pairs two_keys_rehashed ≡ₚ ("a", 5) :: rest) ∧
  (∀ key' data',
     key' ≠ "a" →
     ((key', data') ∈ pairs two_keys ↔ (key', data') ∈ pairs two_keys_rehashed) ∧
     (finds two_keys key' data' ↔ finds two_keys_rehashed key' data')) ∧
  (2 * count two_keys <= tablesize two_keys →
   ∃ position,
     table two_keys !! position = Some (Some ("a", 1)) ∧
     table two_keys_rehashed = <[position := Some ("a", 5)]> (table two_keys) ∧
     ∀ i, i ≠ position → table two_keys_rehashed !! i = table two_keys !! i).
Proof.
  assert (built two_keys) as Hbuilt.
  { change two_keys with (setitem 1 (setitem 1 fresh_table "a" 1).2 "b" 2).2.
    do 2 apply built_setitem. by apply (built_init 1 3). }
  assert (("a", 1) ∈ pairs two_keys) as Hin by (simpl; left).
  assert (next_size (tablesize two_keys) = Some 5 ∧ 2 * count two_keys <= 5)
    as Hroom by (split; [reflexivity|simpl; lia]).
  assert (setitem 2 two_keys "a" 5 = (Returned, two_keys_rehashed)) as Hset
    by reflexivity.
  split; [exact Hbuilt|]. split; [exact Hin|]. split; [exact Hroom|].
  split; [exact Hset|]. split.
  - exact (proj1 (proj2 (proj1 (setitem_present_key two_keys "a" 5 Hbuilt)
                           1 Hin))
             0%nat (or_intror (ex_intro _ 5 Hroom))).
  - exact (proj2 (proj2 (proj1 (setitem_present_key two_keys "a" 5 Hbuilt)
                           1 Hin))
             2%nat two_keys_rehashed Hset).
Defined.

End hash_table_pairs_examples.

(** * [is_prime] and primality *)

Section primality_facts.

Import primes primality.

Lemma powmod_spec v d n : 0 < n → powmod v d n = (v ^ Z.pos d) mod n.
Proof.
  intros Hn. induction d as [d IH|d IH|]; simpl powmod.
  - rewrite IH, Pos2Z.inj_xI, Z.pow_add_r, Z.pow_1_r, Z.pow_twice_r by lia.
    rewrite <- Z.mul_mod by lia.
    by rewrite Z.mul_mod_idemp_l by lia.
  - rewrite IH, Pos2Z.inj_xO, Z.pow_twice_r.
    by rewrite <- Z.mul_mod by lia.
  - by rewrite Z.pow_1_r.
Qed.

Lemma witnesses_fast_spec vals d s n :
  0 < n → witnesses_fast vals d s n = witnesses vals (Z.pos d) s n.
Proof.
  intros Hn. induction vals as [|v vals IH]; simpl; [done|].
  rewrite powmod_spec, IH by done. done.
Qed.

Lemma is_prime_fast_spec n : is_prime_fast n = is_prime n.
Proof.
  unfold is_prime_fast, is_prime. destruct (Z.ltb_spec n 2); [done|].
  destruct (n - 1) as [|p|p]; try done.
  destruct (split_twos p 0) as [d s]. apply witnesses_fast_spec. lia.
Qed.

Lemma trial_spec n : trial n = true ↔ Z.prime n.
Proof.
  unfold trial, Z.prime. rewrite andb_true_iff, forallb_forall, Z.leb_le. split.
  - intros [Hn Hdiv]. split; [lia|]. intros a Ha [b Hb].
    assert (1 < b) by nia.
    set (c := Z.min a b).
    assert (c * c <= n) by (unfold c; nia).
    assert (c <= Z.sqrt n) by (apply Z.sqrt_le_square; lia).
    assert (∃ e, n = e * c) as [e He].
    { unfold c. destruct (Z.min_spec a b) as [[_ ->]|[_ ->]].
      - by exists b.
      - exists a. lia. }
    specialize (Hdiv c). rewrite negb_true_iff, Z.eqb_neq in Hdiv.
    apply Hdiv.
    + apply list_elem_of_In, elem_of_seqZ. unfold c. lia.
    + rewrite He. apply Z.mod_mul. unfold c. lia.
  - intros [Hn Hp]. split; [lia|].
    intros k [Hk2 Hks]%list_elem_of_In%elem_of_seqZ.
    rewrite negb_true_iff, Z.eqb_neq. intros Hmod.
    pose proof (Z.sqrt_lt_lin n).
    apply (Hp k); [lia|]. apply Z.mod_divide; [lia|done].
Qed.

Lemma agree_below_spec bound n :
  agree_below bound = true → 0 <= n < bound → is_prime_fast n = trial n.
Proof.
  unfold agree_below. rewrite forallb_forall. intros Hall Hn.
  specialize (Hall (Z.to_nat n)). rewrite Z2Nat.id in Hall by lia.
  apply eqb_prop, Hall, in_seq. lia.
Qed.

Lemma agree_below_4000 : agree_below 4000 = true.
Proof. vm_compute. reflexivity. Qed.

(** For every number below 4000, [is_prime] answers [True] exactly when
    the number is prime: it is greater than 1 and no number strictly
    between 1 and it divides it. *)
Theorem is_prime_correct_below_4000 n :
  n < 4000 → (is_prime n = true ↔ Z.prime n).
Proof.
  intros Hn. destruct (Z.ltb_spec n 0) as [Hneg|Hpos].
  - split.
    + unfold is_prime. destruct (Z.ltb_spec n 2); [done|lia].
    + intros [Hp _]. lia.
  - rewrite <- trial_spec, <- is_prime_fast_spec.
    rewrite (agree_below_spec 4000 n agree_below_4000 (conj Hpos Hn)).
    reflexivity.
Qed.

End primality_facts.

(** * The further facts on concrete trees, traders and tables *)

Section more_examples.

Import samples.

Local Ltac solve_tree_invariant :=
  repeat split; simpl; try lia; try done;
  unfold avl.ordered, avl.keys; simpl; repeat constructor.

Lemma height_is_logarithmic_witness :
  avl.run Z.ltb avl.empty sample_ops = Some sample ∧
  avl.get_height (avl.root sample) = avl.depth (avl.root sample) ∧
  2 ^ (avl.depth (avl.root sample) / 2) <= avl.length sample + 1.
Proof.
  assert (avl.run Z.ltb avl.empty sample_ops = Some sample) as Hrun
    by reflexivity.
  split; [exact Hrun|].
  exact (height_is_logarithmic Z.ltb Z.ltb_irrefl Zltb_trans Zltb_total
           sample_ops sample Hrun).
Defined.

Lemma length_counts_operations_witness :
  avl.run Z.ltb avl.empty sample_ops = Some sample ∧
  avl.length sample = avl.insertions sample_ops - avl.deletions sample_ops ∧
  avl.length sample =
    Z.of_nat (List.length (avl.elements (avl.root sample))).
Proof.
  assert (avl.run Z.ltb avl.empty sample_ops = Some sample) as Hrun
    by reflexivity.
  split; [exact Hrun|].
  exact (length_counts_operations Z.ltb Z.ltb_irrefl Zltb_trans Zltb_total
           sample_ops sample Hrun).
Defined.

Lemma delete_undoes_insert_witness :
  avl.invariant Z.ltb sample ∧ (6 ∉ avl.keys (avl.root sample)) ∧
  ∃ self1 self2,
    avl.setitem Z.ltb sample 6 60 = (Returned, self1) ∧
    avl.delitem Z.ltb self1 6 = (Returned, self2) ∧
    avl.elements (avl.root self2) = avl.elements (avl.root sample) ∧
    avl.length self2 = avl.length sample ∧ avl.invariant Z.ltb self2.
Proof.
  assert (avl.invariant Z.ltb sample) as Hinv by solve_tree_invariant.
  assert (6 ∉ avl.keys (avl.root sample)) as Hnin
    by (rewrite list_elem_of_In; simpl; lia).
  split; [exact Hinv|]. split; [exact Hnin|].
  exact (delete_undoes_insert Z.ltb Z.ltb_irrefl Zltb_trans Zltb_total
           sample 6 60 Hinv Hnin).
Defined.

Lemma range_between_adjacent_witness :
  avl.invariant Z.ltb sample ∧ 1 <= 2 + 1 ∧ 2 <= 4 ∧
  ∃ first second,
    avl.range_between sample 1 2 = (Return first, sample) ∧
    avl.range_between sample (2 + 1) 4 = (Return second, sample) ∧
    avl.range_between sample 1 4 = (Return (first ++ second), sample).
Proof.
  assert (avl.invariant Z.ltb sample) as Hinv by solve_tree_invariant.
  assert (1 <= 2 + 1) as H1 by lia. assert (2 <= 4) as H2 by lia.
  split; [exact Hinv|]. split; [exact H1|]. split; [exact H2|].
  exact (range_between_adjacent Z.ltb sample 1 2 4 Hinv H1 H2).
Defined.

Lemma range_between_length_witness :
  avl.invariant Z.ltb sample ∧ (0 <= 1 ∧ 1 <= 4 ∧ 4 < avl.length sample) ∧
  ∃ items,
    avl.range_between sample 1 4 = (Return items, sample) ∧
    Z.of_nat (List.length items) = 4 - 1 + 1 ∧ items ≠ [].
Proof.
  assert (avl.invariant Z.ltb sample) as Hinv by solve_tree_invariant.
  assert (0 <= 1 ∧ 1 <= 4 ∧ 4 < avl.length sample) as Hij by (simpl; lia).
  split; [exact Hinv|]. split; [exact Hij|].
  exact (range_between_length Z.ltb sample 1 4 Hinv Hij).
Defined.

Lemma get_max_is_last_rank_witness :
  avl.invariant Z.ltb sample ∧ avl.root sample ≠ avl.Nil ∧
  ∃ k v,
    avl.get_max sample = (Return (k, v), sample) ∧
    avl.range_between sample (avl.length sample - 1) (avl.length sample - 1) =
      (Return [v], sample).
Proof.
  assert (avl.invariant Z.ltb sample) as Hinv by solve_tree_invariant.
  assert (avl.root sample ≠ avl.Nil) as Hne by discriminate.
  split; [exact Hinv|]. split; [exact Hne|].
  exact (get_max_is_last_rank Z.ltb Zltb_trans sample Hinv Hne).
Defined.

Lemma set_all_materials_sorts_witness :
  NoDup (trader.mining_rate <$> ores) ∧
  ∃ self' sorted,
    trader.set_all_materials Z.ltb merchant ores = (Returned, self') ∧
    trader.name self' = trader.name merchant ∧
    trader.sell self' = trader.sell merchant ∧
    avl.invariant Z.ltb (trader.materials self') ∧
    avl.length (trader.materials self') = Z.of_nat (List.length ores) ∧
    trader.materials_between self' 0 (Z.of_nat (List.length ores) - 1) =
      (Return sorted, self') ∧
    sorted ≡ₚ ores ∧
    StronglySorted
      (λ a b, avl.lt Z.ltb (trader.mining_rate a) (trader.mining_rate b))
      sorted.
Proof.
  assert (NoDup (trader.mining_rate <$> ores)) as Hnd.
  { simpl. repeat constructor; rewrite list_elem_of_In; simpl; lia. }
  split; [exact Hnd|].
  exact (set_all_materials_sorts Z.ltb Z.ltb_irrefl Zltb_trans Zltb_total
           merchant ores Hnd).
Defined.

Lemma set_all_materials_duplicate_witness :
  NoDup (trader.mining_rate <$> ores) ∧
  5 ∈ trader.mining_rate <$> ores ∧
  ∃ self',
    trader.set_all_materials Z.ltb merchant
      (ores ++ trader.mkMaterial "Charcoal" 5 :: []) =
      (Raised KeyError, self') ∧
    avl.values (avl.root (trader.materials self')) ≡ₚ ores ∧
    avl.length (trader.materials self') = Z.of_nat (List.length ores).
Proof.
  assert (NoDup (trader.mining_rate <$> ores)) as Hnd.
  { simpl. repeat constructor; rewrite list_elem_of_In; simpl; lia. }
  assert (5 ∈ trader.mining_rate <$> ores) as Hdup.
  { apply list_elem_of_In. simpl. tauto. }
  split; [exact Hnd|]. split; [exact Hdup|].
  exact (set_all_materials_duplicate Z.ltb Z.ltb_irrefl Zltb_trans Zltb_total
           merchant ores (trader.mkMaterial "Charcoal" 5) [] Hnd Hdup).
Defined.

Lemma hash_in_range_witness :
  2 <= hash_table.len roomy ∧
  ∃ h, hash_table.hash roomy "b" = Return h ∧ 0 <= h < hash_table.len roomy.
Proof.
  assert (2 <= hash_table.len roomy) as Hlen by (vm_compute; discriminate).
  split; [exact Hlen|]. exact (hash_in_range roomy "b" Hlen).
Defined.

Lemma getitem_returns_stored_data_witness :
  hash_table.getitem crowded "f" =
    (Return 6, hash_table.set_probe_total crowded 2) ∧
  Some ("f", 6) ∈ hash_table.table crowded ∧
  "f" ∈ hash_table.keys crowded ∧
  hash_table.contains crowded "f" =
    (Return true, hash_table.set_probe_total crowded 2).
Proof.
  assert (hash_table.getitem crowded "f" =
            (Return 6, hash_table.set_probe_total crowded 2)) as Hget
    by reflexivity.
  destruct (getitem_returns_stored_data crowded "f") as [Hstored Hcontains].
  split; [exact Hget|].
  destruct (Hstored 6 _ Hget) as [Hin Hkey].
  split; [exact Hin|]. split; [exact Hkey|].
  apply (proj1 (Hcontains _)). exists 6. exact Hget.
Defined.

Lemma count_is_number_of_keys_witness :
  hash_table.init 1 3 = Return fresh_table ∧
  let final :=
    foldl (λ s kd, (hash_table.setitem 2 s kd.1 kd.2).2) fresh_table
          [("a", 1); ("b", 2); ("a", 5)] in
  hash_table.count final = Z.of_nat (List.length (hash_table.keys final)) ∧
  List.length (hash_table.values final) =
    List.length (hash_table.keys final) ∧
  hash_table.tablesize final = hash_table.len final.
Proof.
  assert (hash_table.init 1 3 = Return fresh_table) as Hinit by reflexivity.
  split; [exact Hinit|].
  exact (count_is_number_of_keys 1 3 fresh_table 2
           [("a", 1); ("b", 2); ("a", 5)] Hinit).
Defined.

Lemma getitem_after_setitem_witness :
  hash_table.setitem 2 two_keys "a" 5 = (Returned, two_keys_rehashed) ∧
  ∃ self'',
    hash_table.getitem two_keys_rehashed "a" = (Return 5, self'') ∧
    hash_table.table self'' = hash_table.table two_keys_rehashed.
Proof.
  assert (hash_table.setitem 2 two_keys "a" 5 = (Returned, two_keys_rehashed))
    as Hset by reflexivity.
  split; [exact Hset|].
  exact (getitem_after_setitem 2 two_keys "a" 5 two_keys_rehashed Hset).
Defined.

Lemma setitem_keeps_other_keys_witness :
  2 * hash_table.count roomy <= hash_table.tablesize roomy ∧ "b" ≠ "c" ∧
  hash_table.getitem roomy "b" = (Return 2, roomy) ∧
  ∃ self',
    hash_table.setitem 1 roomy "c" 7 = (Returned, self') ∧
    ∃ self1', hash_table.getitem self' "b" = (Return 2, self1').
Proof.
  assert (2 * hash_table.count roomy <= hash_table.tablesize roomy) as Hhalf
    by (simpl; lia).
  assert ("b" ≠ "c") as Hne by discriminate.
  assert (hash_table.getitem roomy "b" = (Return 2, roomy)) as Hget
    by reflexivity.
  split; [exact Hhalf|]. split; [exact Hne|]. split; [exact Hget|].
  eexists. split; [reflexivity|].
  exact (setitem_keeps_other_keys 0 roomy "c" 7 _ "b" 2 roomy Hhalf Hne Hget
           eq_refl).
Defined.

Lemma statistics_accumulates_witness :
  ∃ self1,
    hash_table.statistics crowded = (Return (1, 1, 1, 0), self1) ∧
    hash_table.table self1 = hash_table.table crowded ∧
    ∃ self2, hash_table.statistics self1 = (Return (2, 1, 1, 0), self2).
Proof.
  eexists. split; [reflexivity|].
  match goal with
  | |- hash_table.table ?s = _ ∧ _ =>
      destruct (statistics_accumulates crowded 1 1 1 0 s eq_refl)
        as (Ht & _ & _ & _ & _ & _ & _ & self2 & Hsecond)
  end.
  split; [exact Ht|]. exists self2. exact Hsecond.
Defined.

Lemma next_prime_is_largest_witness :
  primes.next_prime 6 = Some 5 ∧ primes.next_prime 2 = None ∧
  (2 <= 5 < 6 ∧ primes.is_prime 5 = true ∧
   ∀ q, 5 < q < 6 → primes.is_prime q = false) ∧
  ∀ q, q < 2 → primes.is_prime q = false.
Proof.
  assert (primes.next_prime 6 = Some 5) as Hsome by reflexivity.
  assert (primes.next_prime 2 = None) as Hnone by reflexivity.
  split; [exact Hsome|]. split; [exact Hnone|]. split.
  - exact (proj1 (next_prime_is_largest 6) 5 Hsome).
  - exact (proj2 (next_prime_is_largest 2) Hnone).
Defined.

Lemma init_sizes_by_prime_witness :
  -1 <= -1 ∧
  ∃ self : hash_table.LinearProbeTable Z,
    hash_table.init 10 (-1) = Return self ∧
    primes.is_prime (hash_table.tablesize self) = true ∧
    hash_table.tablesize self = hash_table.len self ∧
    2 <= hash_table.len self ∧ hash_table.count self = 0 ∧
    ∀ key, ∃ h, hash_table.hash self key = Return h ∧
                0 <= h < hash_table.len self.
Proof.
  assert (-1 <= -1) as Hover by lia.
  split; [exact Hover|]. eexists. split; [reflexivity|].
  exact (init_sizes_by_prime 10 (-1) _ Hover eq_refl).
Defined.

Lemma setitem_never_divides_by_zero_witness :
  2 <= hash_table.len fresh_table ∧
  let step := λ s (kd : string * Z),
    (hash_table.setitem 2 s kd.1 kd.2).2 in
  2 <= hash_table.len (foldl step fresh_table [("a", 1); ("b", 2); ("a", 5)]) ∧
  ∀ key data,
    (hash_table.setitem 2
       (foldl step fresh_table [("a", 1); ("b", 2); ("a", 5)]) key data).1
    ≠ Raised ZeroDivisionError.
Proof.
  assert (2 <= hash_table.len fresh_table) as Hlen by (vm_compute; discriminate).
  split; [exact Hlen|].
  exact (setitem_never_divides_by_zero 2 fresh_table
           [("a", 1); ("b", 2); ("a", 5)] Hlen).
Defined.

Lemma is_prime_correct_below_4000_witness :
  97 < 4000 ∧ (primes.is_prime 97 = true ↔ Z.prime 97).
Proof.
  assert (97 < 4000) as Hn by lia.
  split; [exact Hn|]. exact (is_prime_correct_below_4000 97 Hn).
Defined.

Lemma get_max_then_delete_witness :
  avl.invariant Z.ltb sample ∧ 0 < avl.length sample ∧
  ∃ k v self',
    avl.get_max sample = (Return (k, v), sample) ∧
    avl.delitem Z.ltb sample k = (Returned, self') ∧
    avl.elements (avl.root sample) = avl.elements (avl.root self') ++ [(k, v)] ∧
    avl.length self' = avl.length sample - 1 ∧ avl.invariant Z.ltb self'.
Proof.
  assert (avl.invariant Z.ltb sample) as Hinv by solve_tree_invariant.
  assert (0 < avl.length sample) as Hpos by (simpl; lia).
  split; [exact Hinv|]. split; [exact Hpos|].
  exact (get_max_then_delete Z.ltb Z.ltb_irrefl Zltb_trans Zltb_total sample
           Hinv Hpos).
Defined.

Lemma init_needs_two_expected_items_witness :
  0 <= 1 <= 1 ∧ 2 <= 7 < 1000 ∧
  hash_table.init (T := Z) 1 (-1) = Raise TypeError ∧
  ∃ self : hash_table.LinearProbeTable Z,
    hash_table.init 7 (-1) = Return self.
Proof.
  assert (0 <= 1 <= 1) as H1 by lia. assert (2 <= 7 < 1000) as H7 by lia.
  split; [exact H1|]. split; [exact H7|]. split.
  - exact (proj1 (init_needs_two_expected_items 1) H1).
  - exact (proj2 (init_needs_two_expected_items 7) H7).
Defined.


End more_examples.
